(** * smiles-drawer: graph builder, ring connections, atoms, themes, permutation parity

    A shallow embedding of the parts of the TypeScript sources that the
    specification speaks about:

    - [src/Graph.ts]           the graph builder ([Graph._init], [createVertex]);
    - the [Edge] class         ([setBondType] and the [bonds] table);
    - [src/RingConnection.ts]  (the constructor, [updateOther], [containsRing],
                               [isBridge] and the static lookups);
    - [src/Atom.ts]            (the [Atom] constructor, rings, anchors, ring
                               bonds, pseudo elements, neighbouring elements
                               and the element tables);
    - [src/ThemeManager.ts]    ([ThemeManager.getColor], [setTheme]);
    - [src/MathHelper.ts]      ([MathHelper.parityOfPermutation]).

    JavaScript arrays are lists, [null]/[undefined] is [None], a thrown
    [TypeError] is the [Throw] branch of [result], and objects that the
    code mutates through a reference live in the graph's vertex array and
    are updated there by index. *)

From Stdlib Require Import List String Ascii Arith Lia Bool ZArith.
From Stdlib Require Import DecimalString Permutation Sorted.
From mathcomp Require boot finite_group.fingroup finite_group.perm.
Import ListNotations.
Open Scope string_scope.
Open Scope list_scope.
Open Scope nat_scope.

(** ** JavaScript values shared by all modules *)

Inductive JsError : Type := TypeError.

Inductive result (A : Type) : Type :=
| Ok (a : A)
| Throw (e : JsError).
Arguments Ok {A} a.
Arguments Throw {A} e.

Definition bind {A B : Type} (r : result A) (k : A -> result B) : result B :=
  match r with
  | Ok a => k a
  | Throw e => Throw e
  end.

Notation "x <- r ;; k" := (bind r (fun x => k))
  (at level 61, r at next level, right associativity).

(** [s || "-"] on a string: the empty string is falsy. *)
Definition or_dash (s : string) : string :=
  if String.eqb s "" then "-" else s.

(** [s || "-"] on a [string | null]. *)
Definition or_dash_opt (s : option string) : string :=
  match s with
  | Some s' => or_dash s'
  | None => "-"
  end.

(** [String.prototype.toUpperCase] on the 7-bit letters. *)
Definition upper_ascii (c : ascii) : ascii :=
  let n := nat_of_ascii c in
  if ((97 <=? n) && (n <=? 122))%nat then ascii_of_nat (n - 32) else c.

Fixpoint toUpperCase (s : string) : string :=
  match s with
  | EmptyString => EmptyString
  | String c s' => String (upper_ascii c) (toUpperCase s')
  end.

Definition is_lower_ascii (c : ascii) : bool :=
  let n := nat_of_ascii c in ((97 <=? n) && (n <=? 122))%nat.

(** The strings of 7-bit characters.  On these a character is one UTF-16
    code unit, so [String.length] is the [length] of the JavaScript
    string, and [toUpperCase] above is [String.prototype.toUpperCase]:
    it changes the letters a-z and nothing else. *)
Fixpoint seven_bit (s : string) : bool :=
  match s with
  | EmptyString => true
  | String c s' => (nat_of_ascii c <? 128)%nat && seven_bit s'
  end.

(** [arr[i] = x] on an index inside the array. *)
Fixpoint update_nth {A : Type} (i : nat) (f : A -> A) (l : list A) : list A :=
  match l, i with
  | [], _ => []
  | x :: l', 0 => f x :: l'
  | x :: l', S i' => x :: update_nth i' f l'
  end.

(** ** The parse tree consumed from the Parser

    [ParseTreeNode] is the interface declared at the top of [Graph.ts].
    [atom] is either a bare symbol (a string) or a bracket object; a
    [string | null] field is an [option]. *)

Record Bracket : Type := mkBracket {
  b_element : string;
  b_hcount : option nat;
  b_chirality : option string;
  b_charge : option Z;
  b_isotope : option nat;
  b_class : option nat
}.

Inductive AtomTok : Type :=
| SimpleAtom (symbol : string)
| BracketAtom (b : Bracket).

Record Ringbond : Type := mkRingbond {
  rb_id : nat;
  rb_bondType : string
}.

#[local] Unset Elimination Schemes.
Inductive ParseTreeNode : Type :=
| mkNode (atom : AtomTok) (bond : string) (branchBond : option string)
         (ringbonds : list Ringbond) (branches : list ParseTreeNode)
         (branchCount : nat) (ringbondCount : nat)
         (next : option ParseTreeNode) (hasNext : bool).
#[local] Set Elimination Schemes.

Definition atom (n : ParseTreeNode) : AtomTok :=
  match n with mkNode a _ _ _ _ _ _ _ _ => a end.
Definition bond (n : ParseTreeNode) : string :=
  match n with mkNode _ b _ _ _ _ _ _ _ => b end.
Definition branchBond (n : ParseTreeNode) : option string :=
  match n with mkNode _ _ bb _ _ _ _ _ _ => bb end.
Definition ringbonds (n : ParseTreeNode) : list Ringbond :=
  match n with mkNode _ _ _ rb _ _ _ _ _ => rb end.
Definition branches (n : ParseTreeNode) : list ParseTreeNode :=
  match n with mkNode _ _ _ _ bs _ _ _ _ => bs end.
Definition branchCount (n : ParseTreeNode) : nat :=
  match n with mkNode _ _ _ _ _ bc _ _ _ => bc end.
Definition ringbondCount (n : ParseTreeNode) : nat :=
  match n with mkNode _ _ _ _ _ _ rc _ _ => rc end.
Definition next (n : ParseTreeNode) : option ParseTreeNode :=
  match n with mkNode _ _ _ _ _ _ _ nx _ => nx end.
Definition hasNext (n : ParseTreeNode) : bool :=
  match n with mkNode _ _ _ _ _ _ _ _ hn => hn end.

(** ** The [Edge] class *)

Module Edge.

Record t : Type := mk {
  id : option nat;
  sourceId : nat;
  targetId : nat;
  weight : option nat;
  bondType : string;
  isPartOfAromaticRing : bool;
  center : bool;
  wedge : string
}.

(** [static get bonds()]: a key outside the table reads [undefined]. *)
Definition bonds (bondType : string) : option nat :=
  if String.eqb bondType "-" then Some 1
  else if String.eqb bondType "/" then Some 1
  else if String.eqb bondType "\" then Some 1
  else if String.eqb bondType "=" then Some 2
  else if String.eqb bondType "#" then Some 3
  else if String.eqb bondType "$" then Some 4
  else None.

(** [constructor(sourceId, targetId, weight = 1)]. *)
Definition new (sourceId targetId : nat) : t :=
  {| id := None; sourceId := sourceId; targetId := targetId;
     weight := Some 1; bondType := "-"; isPartOfAromaticRing := false;
     center := false; wedge := "" |}.

(** [setBondType]: stores the symbol and looks the weight up. *)
Definition setBondType (bondType' : string) (e : t) : t :=
  {| id := id e; sourceId := sourceId e; targetId := targetId e;
     weight := bonds bondType'; bondType := bondType';
     isPartOfAromaticRing := isPartOfAromaticRing e;
     center := center e; wedge := wedge e |}.

End Edge.

(** ** The graph builder of [Graph.ts] *)

(** [element] is [node.atom.element ? node.atom.element : node.atom]: a
    string, or the bracket object itself when its element is falsy. *)
Inductive ElementVal : Type :=
| ElemStr (s : string)
| ElemObj (b : Bracket).

(** [element !== "H"] is [negb (isH element)]. *)
Definition isH (e : ElementVal) : bool :=
  match e with
  | ElemStr s => String.eqb s "H"
  | ElemObj _ => false
  end.

(** The atom object literal built at the top of [_init]. *)
Record GAtom : Type := mkGAtom {
  a_element : ElementVal;
  a_bondType : string;
  a_idx : option nat;
  a_branchBond : option string;
  a_ringbonds : list Ringbond;
  a_bracket : option Bracket;
  a_class : option nat;
  a_isStereoCenter : bool;
  a_isPartOfAromaticRing : bool;
  a_bondCount : nat;
  a_neighbouringElements : list ElementVal
}.

(** The vertex object literal returned by [createVertex]. *)
Record GVertex : Type := mkGVertex {
  v_id : nat;
  v_value : GAtom;
  v_neighbours : list nat;
  v_edges : list nat;
  v_spanningTreeChildren : list nat;
  v_parentVertexId : option nat;
  v_positioned : bool;
  v_forcePositioned : bool
}.

(** The edge object literal built inside [_init].  Its own [setBondType]
    assigns [bondType] only. *)
Record GEdge : Type := mkGEdge {
  e_id : nat;
  e_sourceId : nat;
  e_targetId : nat;
  e_weight : nat;
  e_bondType : string;
  e_isPartOfAromaticRing : bool
}.

Record Graph : Type := mkGraph {
  vertices : list GVertex;
  edges : list GEdge;
  atomIdxToVertexId : list nat;
  vertexIdsToEdgeId : list (string * nat);
  isomeric : bool;
  _atomIdx : nat;
  _time : nat
}.

(** *** Mutators of the object literals *)

Definition createVertex (atom : GAtom) : GVertex :=
  {| v_id := 0; v_value := atom; v_neighbours := []; v_edges := [];
     v_spanningTreeChildren := []; v_parentVertexId := None;
     v_positioned := false; v_forcePositioned := false |}.

Definition set_id (i : nat) (v : GVertex) : GVertex :=
  mkGVertex i (v_value v) (v_neighbours v) (v_edges v)
            (v_spanningTreeChildren v) (v_parentVertexId v)
            (v_positioned v) (v_forcePositioned v).

(** [vertex.setParentVertexId(parentVertexId)]. *)
Definition setParentVertexId (p : nat) (v : GVertex) : GVertex :=
  mkGVertex (v_id v) (v_value v) (v_neighbours v) (v_edges v)
            (v_spanningTreeChildren v) (Some p)
            (v_positioned v) (v_forcePositioned v).

(** [vertex.addChild(vertexId)]: pushes onto [neighbours]. *)
Definition addChild (c : nat) (v : GVertex) : GVertex :=
  mkGVertex (v_id v) (v_value v) (v_neighbours v ++ [c]) (v_edges v)
            (v_spanningTreeChildren v) (v_parentVertexId v)
            (v_positioned v) (v_forcePositioned v).

(** [vertex.spanningTreeChildren.push(vertexId)]. *)
Definition pushSpanningTreeChild (c : nat) (v : GVertex) : GVertex :=
  mkGVertex (v_id v) (v_value v) (v_neighbours v) (v_edges v)
            (v_spanningTreeChildren v ++ [c]) (v_parentVertexId v)
            (v_positioned v) (v_forcePositioned v).

(** [vertex.getNeighbours(vertexId)]. *)
Definition getNeighbours (vertexId : option nat) (v : GVertex) : list nat :=
  match vertexId with
  | None => v_neighbours v
  | Some x => filter (fun w => negb (w =? x)) (v_neighbours v)
  end.

(** [vertex.getSpanningTreeNeighbours(vertexId)]. *)
Definition getSpanningTreeNeighbours (vertexId : option nat) (v : GVertex)
    : list nat :=
  match vertexId with
  | None => v_spanningTreeChildren v
  | Some x => filter (fun w => negb (w =? x)) (v_spanningTreeChildren v)
  end.

Definition map_value (f : GAtom -> GAtom) (v : GVertex) : GVertex :=
  mkGVertex (v_id v) (f (v_value v)) (v_neighbours v) (v_edges v)
            (v_spanningTreeChildren v) (v_parentVertexId v)
            (v_positioned v) (v_forcePositioned v).

(** [atom.addNeighbouringElement(element)]. *)
Definition addNeighbouringElement (e : ElementVal) (a : GAtom) : GAtom :=
  mkGAtom (a_element a) (a_bondType a) (a_idx a) (a_branchBond a)
          (a_ringbonds a) (a_bracket a) (a_class a) (a_isStereoCenter a)
          (a_isPartOfAromaticRing a) (a_bondCount a)
          (a_neighbouringElements a ++ [e]).

(** [atom.isStereoCenter = true]. *)
Definition markStereoCenter (a : GAtom) : GAtom :=
  mkGAtom (a_element a) (a_bondType a) (a_idx a) (a_branchBond a)
          (a_ringbonds a) (a_bracket a) (a_class a) true
          (a_isPartOfAromaticRing a) (a_bondCount a)
          (a_neighbouringElements a).

(** The [setBondType] of the edge literal: [this.bondType = bondType]. *)
Definition GEdge_setBondType (bondType : string) (e : GEdge) : GEdge :=
  mkGEdge (e_id e) (e_sourceId e) (e_targetId e) (e_weight e) bondType
          (e_isPartOfAromaticRing e).

Definition set_edge_id (i : nat) (e : GEdge) : GEdge :=
  mkGEdge i (e_sourceId e) (e_targetId e) (e_weight e) (e_bondType e)
          (e_isPartOfAromaticRing e).

Definition with_vertices (vs : list GVertex) (g : Graph) : Graph :=
  mkGraph vs (edges g) (atomIdxToVertexId g) (vertexIdsToEdgeId g)
          (isomeric g) (_atomIdx g) (_time g).

(** A mutation through a reference to the vertex stored at index [i]. *)
Definition modify_vertex (i : nat) (f : GVertex -> GVertex) (g : Graph) : Graph :=
  with_vertices (update_nth i f (vertices g)) g.

(** Modelled from the spec: [Graph.addVertex], which [_init] calls but
    [Graph.ts] does not define.  The data model asks for vertex ids dense
    [0..n-1]: the vertex takes the next free id and is appended to
    [vertices]; the id is returned. *)
Definition addVertex (vertex : GVertex) (g : Graph) : Graph * nat :=
  let vid := List.length (vertices g) in
  (with_vertices (vertices g ++ [set_id vid vertex]) g, vid).

(** Modelled from the spec: [Graph.addEdge], which [_init] calls but
    [Graph.ts] does not define.  The data model asks for edge ids dense
    [0..n-1]: the edge takes the next free id and is appended to [edges];
    the id is returned. *)
Definition addEdge (edge : GEdge) (g : Graph) : Graph * nat :=
  let eid := List.length (edges g) in
  (mkGraph (vertices g) (edges g ++ [set_edge_id eid edge])
           (atomIdxToVertexId g) (vertexIdsToEdgeId g) (isomeric g)
           (_atomIdx g) (_time g), eid).

(** *** [_init] *)

(** [node.atom.element ? node.atom.element : node.atom]. *)
Definition element_of (a : AtomTok) : ElementVal :=
  match a with
  | SimpleAtom s => ElemStr s
  | BracketAtom b => if String.eqb (b_element b) "" then ElemObj b
                     else ElemStr (b_element b)
  end.

(** [node.atom.element ? node.atom : null]. *)
Definition bracket_of (a : AtomTok) : option Bracket :=
  match a with
  | SimpleAtom _ => None
  | BracketAtom b => if String.eqb (b_element b) "" then None else Some b
  end.

(** [node.atom.class]. *)
Definition class_of (a : AtomTok) : option nat :=
  match a with
  | SimpleAtom _ => None
  | BracketAtom b => b_class b
  end.

Definition is_null {A : Type} (o : option A) : bool :=
  match o with Some _ => false | None => true end.

(** Truthiness of a [string | null]. *)
Definition truthy (o : option string) : bool :=
  match o with
  | Some s => negb (String.eqb s "")
  | None => false
  end.

(** A missing [hcount] adds nothing and runs no loop iteration. *)
Definition hcount_of (b : Bracket) : nat :=
  match b_hcount b with Some h => h | None => 0 end.

(** [element !== "H" || (!node.hasNext && parentVertexId === null)]. *)
Definition indexed_at (a : AtomTok) (hn : bool) (par : option nat) : bool :=
  negb (isH (element_of a)) || (negb hn && is_null par).

(** The atom literal with the assignments that follow it, up to
    [atom.class = node.atom.class]. *)
Definition visit_atom (a : AtomTok) (bond : string) (bb : option string)
    (rb : list Ringbond) (hn : bool) (par : option nat) (g : Graph) : GAtom :=
  {| a_element := element_of a;
     a_bondType := bond;
     a_idx := if indexed_at a hn par then Some (_atomIdx g) else None;
     a_branchBond := bb;
     a_ringbonds := rb;
     a_bracket := bracket_of a;
     a_class := class_of a;
     a_isStereoCenter := false;
     a_isPartOfAromaticRing := false;
     a_bondCount := 0;
     a_neighbouringElements := [] |}.

(** [this._atomIdx++], when the atom is indexed. *)
Definition bump_atomIdx (indexed : bool) (g : Graph) : Graph :=
  mkGraph (vertices g) (edges g) (atomIdxToVertexId g) (vertexIdsToEdgeId g)
          (isomeric g) (if indexed then S (_atomIdx g) else _atomIdx g)
          (_time g).

(** [this.atomIdxToVertexId.push(vertex.id)], when the atom is indexed. *)
Definition record_atomIdx (indexed : bool) (vid : nat) (g : Graph) : Graph :=
  mkGraph (vertices g) (edges g)
          (if indexed then atomIdxToVertexId g ++ [vid] else atomIdxToVertexId g)
          (vertexIdsToEdgeId g) (isomeric g) (_atomIdx g) (_time g).

(** The edge literal after its [setBondType] call. *)
Definition visit_edge (p vid : nat) (isBranch : bool) (bb : option string)
    (pv : GVertex) : GEdge :=
  let edge := {| e_id := 0; e_sourceId := p; e_targetId := vid;
                 e_weight := 1; e_bondType := "";
                 e_isPartOfAromaticRing := false |} in
  if isBranch then GEdge_setBondType (or_dash_opt bb) edge
  else GEdge_setBondType (or_dash (a_bondType (v_value pv))) edge.

(** The body of [if (parentVertexId !== null)]: [pv] is the parent as it
    was looked up before [addVertex]; [element] and [bondType] of an atom
    never change, so reading them from [pv] reads the stored vertex. *)
Definition attach (p : nat) (pv : GVertex) (vid : nat) (element : ElementVal)
    (isBranch : bool) (bb : option string) (g : Graph) : Graph :=
  let g := modify_vertex vid (setParentVertexId p) g in
  let g := modify_vertex vid
             (map_value (addNeighbouringElement (a_element (v_value pv)))) g in
  let g := modify_vertex p (addChild vid) g in
  let g := modify_vertex p (map_value (addNeighbouringElement element)) g in
  let g := modify_vertex p (pushSpanningTreeChild vid) g in
  fst (addEdge (visit_edge p vid isBranch bb pv) g).

(** The part of [_init] before any recursive call (the atom literal up to
    [addEdge]): returns the graph and the id of the vertex it created. *)
Definition visit (atomTok : AtomTok) (bond : string)
    (branchBond : option string) (ringbonds : list Ringbond)
    (hasNext : bool) (parentVertexId : option nat) (isBranch : bool)
    (g : Graph) : result (Graph * nat) :=
  let indexed := indexed_at atomTok hasNext parentVertexId in
  let atom := visit_atom atomTok bond branchBond ringbonds hasNext
                         parentVertexId g in
  let g := bump_atomIdx indexed g in
  let vertex := createVertex atom in
  let parentVertex :=
    match parentVertexId with
    | Some p => nth_error (vertices g) p
    | None => None
    end in
  let (g, vid) := addVertex vertex g in
  let g := record_atomIdx indexed vid g in
  match parentVertexId with
  | None => Ok (g, vid)
  | Some p =>
    match parentVertex with
    | None => Throw TypeError
    | Some pv =>
      Ok (attach p pv vid (element_of atomTok) isBranch branchBond g, vid)
    end
  end.

(** The node literal passed for every stereo hydrogen. *)
Definition hydrogenNode : ParseTreeNode :=
  mkNode (SimpleAtom "H") "-" None [] [] 0 0 None false.

(** [_init] on [hydrogenNode]: the node has no bracket, no branch and no
    successor, so only the first part of the body runs
    (lemma [_init_hydrogenNode] below). *)
Definition init_hydrogen (order : nat) (parentVertexId : option nat)
    (isBranch : bool) (g : Graph) : result Graph :=
  match visit (SimpleAtom "H") "-" None [] false parentVertexId isBranch g with
  | Ok (g', _) => Ok g'
  | Throw e => Throw e
  end.

(** [for (let i = 0; i < stereoHydrogens; i++) this._init(H, i, vertex.id, true)],
    with [n] iterations left. *)
Fixpoint stereo_loop (n i vid : nat) (g : Graph) : result Graph :=
  match n with
  | 0 => Ok g
  | S n' => g' <- init_hydrogen i (Some vid) true g ;; stereo_loop n' (S i) vid g'
  end.

(** The stereo-hydrogen block: [atom.isStereoCenter = true] reaches the
    stored vertex through the shared atom object. *)
Definition stereo_part (bracket : option Bracket) (vid : nat) (g : Graph)
    : result Graph :=
  match bracket with
  | Some b =>
    if truthy (b_chirality b) then
      stereo_loop (hcount_of b) 0 vid
        (modify_vertex vid (map_value markStereoCenter) g)
    else Ok g
  | None => Ok g
  end.

Section BranchLoop.

Variable init : ParseTreeNode -> nat -> option nat -> bool -> Graph -> result Graph.
Variables (offset vid : nat).

(** [for (let i = 0; i < node.branchCount; i++)
       this._init(node.branches[i], i + offset, vertex.id, true)],
    with [n] iterations left; [bs] is the part of [node.branches] from
    index [i] on.  Reading past its end passes [undefined] to [_init],
    which throws on [node.atom]. *)
Fixpoint branch_loop (bs : list ParseTreeNode) (n i : nat) (g : Graph)
    {struct bs} : result Graph :=
  match n with
  | 0 => Ok g
  | S n' =>
    match bs with
    | [] => Throw TypeError
    | b :: bs' =>
      g' <- init b (i + offset) (Some vid) true g ;;
      branch_loop bs' n' (S i) g'
    end
  end.

End BranchLoop.

Fixpoint _init (node : ParseTreeNode) (order : nat)
    (parentVertexId : option nat) (isBranch : bool) (g : Graph)
    {struct node} : result Graph :=
  match node with
  | mkNode atomTok bond branchBond ringbonds branches branchCount
           ringbondCount next hasNext =>
    match visit atomTok bond branchBond ringbonds hasNext
                parentVertexId isBranch g with
    | Throw e => Throw e
    | Ok (g, vid) =>
      let bracket := bracket_of atomTok in
      let offset := ringbondCount + 1
                    + match bracket with Some b => hcount_of b | None => 0 end in
      g <- stereo_part bracket vid g ;;
      g <- branch_loop _init offset vid branches branchCount 0 g ;;
      if hasNext then
        match next with
        | None => Throw TypeError
        | Some nx => _init nx (branchCount + offset) (Some vid) false g
        end
      else Ok g
    end
  end.

(** [new Graph(parseTree, isomeric)]. *)
Definition Graph_new (parseTree : ParseTreeNode) (isomeric : bool) : result Graph :=
  _init parseTree 0 None false
    {| vertices := []; edges := []; atomIdxToVertexId := [];
       vertexIdsToEdgeId := []; isomeric := isomeric; _atomIdx := 0;
       _time := 0 |}.

(** ** [Array.prototype.sort] on strings

    Without a comparator the array is sorted ascending by code units.
    That order is total and two strings that compare equal are the same
    string, so the sorted array does not depend on the algorithm the
    engine uses (lemma [js_sort_unique]); insertion sort computes it. *)

Fixpoint insert_sorted (x : string) (l : list string) : list string :=
  match l with
  | [] => [x]
  | y :: l' => if String.leb x y then x :: l else y :: insert_sorted x l'
  end.

Fixpoint js_sort (l : list string) : list string :=
  match l with
  | [] => []
  | x :: l' => insert_sorted x (js_sort l')
  end.

(** ** The [Atom] class of [Atom.ts] *)

Record PseudoElement : Type := mkPseudoElement {
  pe_element : string;
  pe_count : nat;
  pe_hydrogenCount : nat;
  pe_previousElement : string;
  pe_charge : Z
}.

Module Atom.

Record t : Type := mk {
  idx : option nat;
  element : string;
  drawExplicit : bool;
  ringbonds : list Ringbond;
  rings : list nat;
  bondType : string;
  branchBond : option string;
  isBridge : bool;
  isBridgeNode : bool;
  originalRings : list nat;
  bridgedRing : option nat;
  anchoredRings : list nat;
  bracket : option Bracket;
  plane : Z;
  attachedPseudoElements : list (string * PseudoElement);
  hasAttachedPseudoElements : bool;
  isDrawn : bool;
  isConnectedToRing : bool;
  neighbouringElements : list string;
  isPartOfAromaticRing : bool;
  bondCount : nat;
  chirality : string;
  isStereoCenter : bool;
  priority : nat;
  mainChain : bool;
  hydrogenDirection : string;
  subtreeDepth : nat;
  hasHydrogen : bool
}.

(** [this.element = element.length === 1 ? element.toUpperCase() : element],
    for an [element] of 7-bit characters ([seven_bit]): outside of them
    [String.length] counts bytes, not code units, and [toUpperCase]
    leaves letters unchanged that JavaScript upper-cases. *)
Definition stored_element (element : string) : string :=
  if (String.length element =? 1)%nat then toUpperCase element else element.

(** [constructor(element, bondType = "-")]; [bondType = None] is the
    omitted argument. *)
Definition new (element' : string) (bondType' : option string) : t :=
  {| idx := None;
     element := stored_element element';
     drawExplicit := false;
     ringbonds := [];
     rings := [];
     bondType := match bondType' with Some b => b | None => "-" end;
     branchBond := None;
     isBridge := false;
     isBridgeNode := false;
     originalRings := [];
     bridgedRing := None;
     anchoredRings := [];
     bracket := None;
     plane := 0%Z;
     attachedPseudoElements := [];
     hasAttachedPseudoElements := false;
     isDrawn := true;
     isConnectedToRing := false;
     neighbouringElements := [];
     isPartOfAromaticRing := negb (String.eqb element' (stored_element element'));
     bondCount := 0;
     chirality := "";
     isStereoCenter := false;
     priority := 0;
     mainChain := false;
     hydrogenDirection := "down";
     subtreeDepth := 1;
     hasHydrogen := false |}.

(** [this.neighbouringElements.push(element)]. *)
Definition addNeighbouringElement (e : string) (a : t) : t :=
  mk (idx a) (element a) (drawExplicit a) (ringbonds a) (rings a)
     (bondType a) (branchBond a) (isBridge a) (isBridgeNode a)
     (originalRings a) (bridgedRing a) (anchoredRings a) (bracket a)
     (plane a) (attachedPseudoElements a) (hasAttachedPseudoElements a)
     (isDrawn a) (isConnectedToRing a) (neighbouringElements a ++ [e])
     (isPartOfAromaticRing a) (bondCount a) (chirality a) (isStereoCenter a)
     (priority a) (mainChain a) (hydrogenDirection a) (subtreeDepth a)
     (hasHydrogen a).

(** The key [`${hydrogenCount}${element}${charge}`] of a pseudo element:
    the two numbers are printed in decimal. *)
Definition pseudo_key (hydrogenCount : nat) (element' : string) (charge : Z)
    : string :=
  (NilZero.string_of_uint (Nat.to_uint hydrogenCount) ++ element'
   ++ NilZero.string_of_int (Z.to_int charge))%string.

(** [this.attachedPseudoElements[key]]. *)
Fixpoint lookup_pseudo (key : string) (o : list (string * PseudoElement))
    : option PseudoElement :=
  match o with
  | [] => None
  | (k, pe) :: o' => if String.eqb k key then Some pe else lookup_pseudo key o'
  end.

(** [this.attachedPseudoElements[key].count += 1]. *)
Fixpoint bump_count (key : string) (o : list (string * PseudoElement))
    : list (string * PseudoElement) :=
  match o with
  | [] => []
  | (k, pe) :: o' =>
    if String.eqb k key
    then (k, mkPseudoElement (pe_element pe) (pe_count pe + 1)
                             (pe_hydrogenCount pe) (pe_previousElement pe)
                             (pe_charge pe)) :: o'
    else (k, pe) :: bump_count key o'
  end.

Definition set_pseudo (o : list (string * PseudoElement)) (a : t) : t :=
  mk (idx a) (element a) (drawExplicit a) (ringbonds a) (rings a)
     (bondType a) (branchBond a) (isBridge a) (isBridgeNode a)
     (originalRings a) (bridgedRing a) (anchoredRings a) (bracket a)
     (plane a) (o) (true) (isDrawn a) (isConnectedToRing a)
     (neighbouringElements a) (isPartOfAromaticRing a) (bondCount a)
     (chirality a) (isStereoCenter a) (priority a) (mainChain a)
     (hydrogenDirection a) (subtreeDepth a) (hasHydrogen a).

(** [attachPseudoElement(element, previousElement, hydrogenCount = 0,
    charge = 0)]; an omitted or [null] number is [None] and counts as 0.
    A key starts with a digit, so it never names an inherited property
    of the object. *)
Definition attachPseudoElement (element' previousElement : string)
    (hydrogenCount : option nat) (charge : option Z) (a : t) : t :=
  let hydrogenCount := match hydrogenCount with Some h => h | None => 0 end in
  let charge := match charge with Some c => c | None => 0%Z end in
  let key := pseudo_key hydrogenCount element' charge in
  match lookup_pseudo key (attachedPseudoElements a) with
  | Some _ => set_pseudo (bump_count key (attachedPseudoElements a)) a
  | None =>
    set_pseudo (attachedPseudoElements a
                ++ [(key, mkPseudoElement element' 1 hydrogenCount
                                          previousElement charge)]) a
  end.

(** [getAttachedPseudoElements]: the keys are sorted and the entries are
    copied into a fresh object in that order; the result lists them in
    the order in which [forEach] inserts them.  A key of the object
    always has an entry. *)
Definition getAttachedPseudoElements (a : t) : list (string * PseudoElement) :=
  flat_map (fun key =>
              match lookup_pseudo key (attachedPseudoElements a) with
              | Some pe => [(key, pe)]
              | None => []
              end)
           (js_sort (map fst (attachedPseudoElements a))).

(** [Object.keys(this.attachedPseudoElements).length]. *)
Definition getAttachedPseudoElementsCount (a : t) : nat :=
  List.length (attachedPseudoElements a).

(** [this.element !== "C" && this.element !== "H"]. *)
Definition isHeteroAtom (a : t) : bool :=
  negb (String.eqb (element a) "C") && negb (String.eqb (element a) "H").

Definition set_anchoredRings (l : list nat) (a : t) : t :=
  mk (idx a) (element a) (drawExplicit a) (ringbonds a) (rings a)
     (bondType a) (branchBond a) (isBridge a) (isBridgeNode a)
     (originalRings a) (bridgedRing a) (l) (bracket a) (plane a)
     (attachedPseudoElements a) (hasAttachedPseudoElements a) (isDrawn a)
     (isConnectedToRing a) (neighbouringElements a) (isPartOfAromaticRing a)
     (bondCount a) (chirality a) (isStereoCenter a) (priority a)
     (mainChain a) (hydrogenDirection a) (subtreeDepth a) (hasHydrogen a).

(** [addAnchoredRing(ringId)]. *)
Definition addAnchoredRing (ringId : nat) (a : t) : t :=
  if existsb (Nat.eqb ringId) (anchoredRings a) then a
  else set_anchoredRings (anchoredRings a ++ [ringId]) a.

Definition getRingbondCount (a : t) : nat := List.length (ringbonds a).

Definition set_rings (l : list nat) (a : t) : t :=
  mk (idx a) (element a) (drawExplicit a) (ringbonds a) (l) (bondType a)
     (branchBond a) (isBridge a) (isBridgeNode a) (originalRings a)
     (bridgedRing a) (anchoredRings a) (bracket a) (plane a)
     (attachedPseudoElements a) (hasAttachedPseudoElements a) (isDrawn a)
     (isConnectedToRing a) (neighbouringElements a) (isPartOfAromaticRing a)
     (bondCount a) (chirality a) (isStereoCenter a) (priority a)
     (mainChain a) (hydrogenDirection a) (subtreeDepth a) (hasHydrogen a).

Definition set_originalRings (l : list nat) (a : t) : t :=
  mk (idx a) (element a) (drawExplicit a) (ringbonds a) (rings a)
     (bondType a) (branchBond a) (isBridge a) (isBridgeNode a) (l)
     (bridgedRing a) (anchoredRings a) (bracket a) (plane a)
     (attachedPseudoElements a) (hasAttachedPseudoElements a) (isDrawn a)
     (isConnectedToRing a) (neighbouringElements a) (isPartOfAromaticRing a)
     (bondCount a) (chirality a) (isStereoCenter a) (priority a)
     (mainChain a) (hydrogenDirection a) (subtreeDepth a) (hasHydrogen a).

(** [this.originalRings = [...this.rings]]. *)
Definition backupRings (a : t) : t := set_originalRings (rings a) a.

(** [this.rings = [...this.originalRings]]. *)
Definition restoreRings (a : t) : t := set_rings (originalRings a) a.

(** [haveCommonRingbond(atomA, atomB)]. *)
Definition haveCommonRingbond (atomA atomB : t) : bool :=
  existsb (fun rbA =>
             existsb (fun rbB => (rb_id rbA =? rb_id rbB)%nat) (ringbonds atomB))
          (ringbonds atomA).

(** [sortedArr.every((element, index) => element === sortedNeighbours[index])]:
    past the end of the second array the comparison is with [undefined]. *)
Fixpoint every_equal (l1 l2 : list string) : bool :=
  match l1 with
  | [] => true
  | x :: l1' =>
    match l2 with
    | y :: l2' => String.eqb x y && every_equal l1' l2'
    | [] => false
    end
  end.

(** [neighbouringElementsEqual(arr)]. *)
Definition neighbouringElementsEqual (arr : list string) (a : t) : bool :=
  if negb (List.length arr =? List.length (neighbouringElements a))%nat
  then false
  else every_equal (js_sort arr) (js_sort (neighbouringElements a)).

(** [Atom.maxBonds]. *)
Definition maxBonds : list (string * nat) :=
  [("H", 1); ("C", 4); ("N", 3); ("O", 2); ("P", 3); ("S", 2); ("B", 3);
   ("F", 1); ("I", 1); ("Cl", 1); ("Br", 1)].

(** [Atom.atomicNumbers]. *)
Definition atomicNumbers : list (string * nat) :=
  [("H", 1); ("He", 2); ("Li", 3); ("Be", 4); ("B", 5); ("b", 5); ("C", 6);
   ("c", 6); ("N", 7); ("n", 7); ("O", 8); ("o", 8); ("F", 9); ("Ne", 10);
   ("Na", 11); ("Mg", 12); ("Al", 13); ("Si", 14); ("P", 15); ("p", 15);
   ("S", 16); ("s", 16); ("Cl", 17); ("Ar", 18); ("K", 19); ("Ca", 20);
   ("Sc", 21); ("Ti", 22); ("V", 23); ("Cr", 24); ("Mn", 25); ("Fe", 26);
   ("Co", 27); ("Ni", 28); ("Cu", 29); ("Zn", 30); ("Ga", 31); ("Ge", 32);
   ("As", 33); ("Se", 34); ("Br", 35); ("Kr", 36); ("Rb", 37); ("Sr", 38);
   ("Y", 39); ("Zr", 40); ("Nb", 41); ("Mo", 42); ("Tc", 43); ("Ru", 44);
   ("Rh", 45); ("Pd", 46); ("Ag", 47); ("Cd", 48); ("In", 49); ("Sn", 50);
   ("Sb", 51); ("Te", 52); ("I", 53); ("Xe", 54); ("Cs", 55); ("Ba", 56);
   ("La", 57); ("Ce", 58); ("Pr", 59); ("Nd", 60); ("Pm", 61); ("Sm", 62);
   ("Eu", 63); ("Gd", 64); ("Tb", 65); ("Dy", 66); ("Ho", 67); ("Er", 68);
   ("Tm", 69); ("Yb", 70); ("Lu", 71); ("Hf", 72); ("Ta", 73); ("W", 74);
   ("Re", 75); ("Os", 76); ("Ir", 77); ("Pt", 78); ("Au", 79); ("Hg", 80);
   ("Tl", 81); ("Pb", 82); ("Bi", 83); ("Po", 84); ("At", 85); ("Rn", 86);
   ("Fr", 87); ("Ra", 88); ("Ac", 89); ("Th", 90); ("Pa", 91); ("U", 92);
   ("Np", 93); ("Pu", 94); ("Am", 95); ("Cm", 96); ("Bk", 97); ("Cf", 98);
   ("Es", 99); ("Fm", 100); ("Md", 101); ("No", 102); ("Lr", 103);
   ("Rf", 104); ("Db", 105); ("Sg", 106); ("Bh", 107); ("Hs", 108);
   ("Mt", 109); ("Ds", 110); ("Rg", 111); ("Cn", 112); ("Uut", 113);
   ("Uuq", 114); ("Uup", 115); ("Uuh", 116); ("Uus", 117); ("Uuo", 118)].

(** A read of one of the two tables; only their own entries are
    modelled. *)
Fixpoint table_lookup (key : string) (o : list (string * nat)) : option nat :=
  match o with
  | [] => None
  | (k, v) :: o' => if String.eqb k key then Some v else table_lookup key o'
  end.

Definition getAtomicNumber (a : t) : option nat :=
  table_lookup (element a) atomicNumbers.

Definition getMaxBonds (a : t) : option nat :=
  table_lookup (element a) maxBonds.

End Atom.

(** ** [RingConnection.ts] *)

(** [Vertex] and [Ring] are imported by [RingConnection.ts]; only the
    fields it reads are kept: [vertex.value] (an [Atom]), [ring.id] and
    [ring.members]. *)
Record Vertex : Type := mkVertex { value : Atom.t }.

Record Ring : Type := mkRing {
  ring_id : option nat;
  members : list nat
}.

Module RingConnection.

(** [vertices] is a [Set<number>]: the list holds its elements in
    insertion order, each once. *)
Record t : Type := mk {
  id : option nat;
  firstRingId : option nat;
  secondRingId : option nat;
  vertices : list nat
}.

(** [Set.prototype.add]. *)
Definition set_add (x : nat) (s : list nat) : list nat :=
  if existsb (Nat.eqb x) s then s else s ++ [x].

Definition addVertex (vertexId : nat) (rc : t) : t :=
  mk (id rc) (firstRingId rc) (secondRingId rc) (set_add vertexId (vertices rc)).

(** The constructor: every member of the first ring that is also a
    member of the second one is added. *)
Definition new (firstRing secondRing : Ring) : t :=
  fold_left
    (fun rc c =>
       fold_left (fun rc d => if (c =? d)%nat then addVertex c rc else rc)
                 (members secondRing) rc)
    (members firstRing)
    (mk None (ring_id firstRing) (ring_id secondRing) []).

(** [for (let vertexId of this.vertices) ...]: reading [.value] of a
    vertex outside the array throws. *)
Fixpoint isBridge_loop (ids : list nat) (vs : list Vertex) : result bool :=
  match ids with
  | [] => Ok false
  | vertexId :: ids' =>
    match nth_error vs vertexId with
    | None => Throw TypeError
    | Some v =>
      if (2 <? List.length (Atom.rings (value v)))%nat then Ok true
      else isBridge_loop ids' vs
    end
  end.

Definition isBridge (rc : t) (vs : list Vertex) : result bool :=
  if (2 <? List.length (vertices rc))%nat then Ok true
  else isBridge_loop (vertices rc) vs.

(** [stored === ringId] for a stored [number | null]. *)
Definition is_ring (stored : option nat) (ringId : nat) : bool :=
  match stored with
  | Some r => (r =? ringId)%nat
  | None => false
  end.

(** [updateOther(ringId, otherRingId)]. *)
Definition updateOther (ringId otherRingId : nat) (rc : t) : t :=
  if is_ring (firstRingId rc) otherRingId
  then mk (id rc) (firstRingId rc) (Some ringId) (vertices rc)
  else mk (id rc) (Some ringId) (secondRingId rc) (vertices rc).

(** [containsRing(ringId)]. *)
Definition containsRing (ringId : nat) (rc : t) : bool :=
  is_ring (firstRingId rc) ringId || is_ring (secondRingId rc) ringId.

(** The test shared by the static [isBridge] and [getVertices]: the
    connection joins the two rings, in either order. *)
Definition joins (rc : t) (firstRingId' secondRingId' : nat) : bool :=
  (is_ring (firstRingId rc) firstRingId'
   && is_ring (secondRingId rc) secondRingId')
  || (is_ring (firstRingId rc) secondRingId'
      && is_ring (secondRingId rc) firstRingId').

(** [static isBridge(ringConnections, vertices, firstRingId, secondRingId)]. *)
Fixpoint static_isBridge (ringConnections : list t) (vs : list Vertex)
    (firstRingId' secondRingId' : nat) : result bool :=
  match ringConnections with
  | [] => Ok false
  | rc :: rest =>
    if joins rc firstRingId' secondRingId' then isBridge rc vs
    else static_isBridge rest vs firstRingId' secondRingId'
  end.

(** [static getNeighbours(ringConnections, ringId)]. *)
Fixpoint getNeighbours (ringConnections : list t) (ringId : nat)
    : list (option nat) :=
  match ringConnections with
  | [] => []
  | rc :: rest =>
    if is_ring (firstRingId rc) ringId
    then secondRingId rc :: getNeighbours rest ringId
    else if is_ring (secondRingId rc) ringId
         then firstRingId rc :: getNeighbours rest ringId
         else getNeighbours rest ringId
  end.

(** [static getVertices(ringConnections, firstRingId, secondRingId)]. *)
Fixpoint getVertices (ringConnections : list t)
    (firstRingId' secondRingId' : nat) : list nat :=
  match ringConnections with
  | [] => []
  | rc :: rest =>
    if joins rc firstRingId' secondRingId' then vertices rc
    else getVertices rest firstRingId' secondRingId'
  end.

End RingConnection.

(** ** [ThemeManager.ts] *)

Module ThemeManager.

(** A [Record<string, string>]: its own properties, looked up by key. *)
Definition Theme : Type := list (string * string).

Fixpoint lookup {A : Type} (key : string) (o : list (string * A)) : option A :=
  match o with
  | [] => None
  | (k, v) :: o' => if String.eqb k key then Some v else lookup key o'
  end.

(** [theme] is [undefined] when the constructor was given a name that
    [colors] does not hold. *)
Record t : Type := mk {
  colors : list (string * Theme);
  theme : option Theme
}.

Definition new (colors' : list (string * Theme)) (theme' : string) : t :=
  mk colors' (lookup theme' colors').

(** [getColor].  [key in this.theme] and [this.theme['C']] throw on an
    undefined theme.  An upper-cased key never names an inherited
    property of a plain object, so [in] is a lookup among the theme's
    own properties.  The value is [None] when the property read is
    [undefined]. *)
Definition getColor (tm : t) (key : string) : result (option string) :=
  match theme tm with
  | None => Throw TypeError
  | Some th =>
    if String.eqb key "" then Ok (lookup "C" th)
    else
      let key := toUpperCase key in
      match lookup key th with
      | Some c => Ok (Some c)
      | None => Ok (lookup "C" th)
      end
  end.

Definition setTheme (theme' : string) (tm : t) : t :=
  match lookup theme' (colors tm) with
  | Some th => mk (colors tm) (Some th)
  | None => tm
  end.

End ThemeManager.

(** ** [MathHelper.parityOfPermutation] *)

Module MathHelper.

(** [traverseCycle(i, cycleLength)] with the [visited] array threaded
    through.  Every call that goes on marks one more cell, so
    [arr.length + 1] calls suffice; [fuel] counts the calls left.  An
    index outside the two arrays is outside the model ([None]). *)
Fixpoint traverseCycle (fuel : nat) (arr visited : list nat)
    (i cycleLength : nat) : option (list nat * nat) :=
  match fuel with
  | 0 => None
  | S fuel' =>
    match nth_error visited i with
    | None => None
    | Some b =>
      if (b =? 1)%nat then Some (visited, cycleLength)
      else
        match nth_error arr i with
        | None => None
        | Some j =>
          traverseCycle fuel' arr (update_nth i (fun _ => 1) visited)
                        j (S cycleLength)
        end
    end
  end.

(** [for (let i = 0; i < arr.length; i++)], with [k] iterations left. *)
Fixpoint cycle_loop (k i : nat) (arr visited : list nat)
    (evenLengthCycleCount : nat) : option nat :=
  match k with
  | 0 => Some evenLengthCycleCount
  | S k' =>
    match nth_error visited i with
    | None => None
    | Some b =>
      if (b =? 1)%nat then cycle_loop k' (S i) arr visited evenLengthCycleCount
      else
        match traverseCycle (S (List.length arr)) arr visited i 0 with
        | None => None
        | Some (visited', cycleLength) =>
          cycle_loop k' (S i) arr visited'
                     (evenLengthCycleCount + (1 - cycleLength mod 2))
        end
    end
  end.

Definition parityOfPermutation (arr : list nat) : option Z :=
  match cycle_loop (List.length arr) 0 arr (repeat 0 (List.length arr)) 0 with
  | None => None
  | Some evenLengthCycleCount =>
    Some (if (evenLengthCycleCount mod 2 =? 0)%nat then 1%Z else (-1)%Z)
  end.

End MathHelper.

(** ** Specification-side notions for the graph builder *)

(** The shape the Parser promises: the two counters agree with the data
    they count, and a bracket atom carries an element symbol and, if any,
    a non-empty chirality tag. *)
Definition bracket_ok (a : AtomTok) : bool :=
  match a with
  | SimpleAtom _ => true
  | BracketAtom b =>
    negb (String.eqb (b_element b) "")
    && match b_chirality b with Some c => negb (String.eqb c "") | None => true end
  end.

Fixpoint shape_ok (n : ParseTreeNode) : bool :=
  match n with
  | mkNode _ _ _ _ bs bc _ nx hn =>
    (bc =? List.length bs)%nat
    && forallb shape_ok bs
    && match nx with
       | Some n' => hn && shape_ok n'
       | None => negb hn
       end
  end.

Fixpoint brackets_ok (n : ParseTreeNode) : bool :=
  match n with
  | mkNode a _ _ _ bs _ _ nx _ =>
    bracket_ok a
    && forallb brackets_ok bs
    && match nx with Some n' => brackets_ok n' | None => true end
  end.

(** Number of atom nodes of a parse tree. *)
Fixpoint atom_count (n : ParseTreeNode) : nat :=
  match n with
  | mkNode _ _ _ _ bs _ _ nx _ =>
    1 + fold_right (fun b acc => atom_count b + acc) 0 bs
      + match nx with Some n' => atom_count n' | None => 0 end
  end.

(** Hydrogen count of a bracket atom that carries a chirality tag. *)
Definition stereo_hcount (a : AtomTok) : nat :=
  match a with
  | BracketAtom b =>
    match b_chirality b with
    | Some _ => hcount_of b
    | None => 0
    end
  | SimpleAtom _ => 0
  end.

Fixpoint stereo_count (n : ParseTreeNode) : nat :=
  match n with
  | mkNode a _ _ _ bs _ _ nx _ =>
    stereo_hcount a + fold_right (fun b acc => stereo_count b + acc) 0 bs
      + match nx with Some n' => stereo_count n' | None => 0 end
  end.

(** The fields of a vertex that are fixed once the vertex is built. *)
Record Core : Type := mkCore {
  c_id : nat;
  c_parent : option nat;
  c_element : ElementVal;
  c_idx : option nat;
  c_bracket : option Bracket;
  c_stereo : bool
}.

Definition core (v : GVertex) : Core :=
  {| c_id := v_id v;
     c_parent := v_parentVertexId v;
     c_element := a_element (v_value v);
     c_idx := a_idx (v_value v);
     c_bracket := a_bracket (v_value v);
     c_stereo := a_isStereoCenter (v_value v) |}.

Definition cores (g : Graph) : list Core := map core (vertices g).

(** Vertex [p] lists vertex [i] among its children. *)
Definition child_listed (g : Graph) (i p : nat) : Prop :=
  exists pv, nth_error (vertices g) p = Some pv
             /\ In i (v_spanningTreeChildren pv) /\ In i (v_neighbours pv).

Definition has_idx (c : Core) : bool := negb (is_null (c_idx c)).

(** The core of a stereo hydrogen with id [i] under stereocenter [p]. *)
Definition hydrogen_core (p i : nat) : Core :=
  mkCore i (Some p) (ElemStr "H") None None false.

Definition chiral (c : Core) : bool :=
  match c_bracket c with
  | Some b => truthy (b_chirality b)
  | None => false
  end.

Definition core_hcount (c : Core) : nat :=
  match c_bracket c with Some b => hcount_of b | None => 0 end.

(** What holds of the vertex at index [i] of a graph under construction. *)
Definition vertex_ok (g : Graph) (i : nat) (c : Core) : Prop :=
  c_id c = i
  /\ match c_parent c with
     | None => i = 0
     | Some p => p < i /\ child_listed g i p
     end
  /\ (isH (c_element c) = false -> c_idx c <> None)
  /\ (isH (c_element c) = true -> c_idx c <> None -> i = 0)
  /\ c_stereo c = chiral c
  /\ (chiral c = true -> forall k, k < core_hcount c ->
        nth_error (cores g) (i + 1 + k) = Some (hydrogen_core i (i + 1 + k))).

Record Inv (g : Graph) : Prop := mkInv {
  inv_vertex : forall i c, nth_error (cores g) i = Some c -> vertex_ok g i c;
  inv_map : atomIdxToVertexId g = map c_id (filter has_idx (cores g));
  inv_idx : map c_idx (filter has_idx (cores g)) = map Some (seq 0 (_atomIdx g));
  inv_edge : forall e, In e (edges g) -> e_weight e = 1
}.

(** [g'] continues [g]: the fixed fields of the old vertices are
    untouched and no child is forgotten. *)
Definition grows (g g' : Graph) : Prop :=
  (exists l, cores g' = cores g ++ l)
  /\ (forall i p, child_listed g i p -> child_listed g' i p).

(** The parent handed to [_init]: [null] for the root of an empty graph,
    an existing vertex otherwise. *)
Definition parent_ok (parentVertexId : option nat) (g : Graph) : Prop :=
  match parentVertexId with
  | None => vertices g = []
  | Some p => p < List.length (vertices g)
  end.

(** ** Bookkeeping for the cycle traversal

    [n] is the length of the array and [s] the permutation of [0..n-1]
    whose value table the array is. *)

Module CycleInvariants.

Import mathcomp.boot.boot mathcomp.finite_group.fingroup
       mathcomp.finite_group.perm.

Section Defs.

Variables (n : nat) (s : 'S_n).

(** The cells of [visited] that hold 1 are those of the set [P]. *)
Definition marks (visited : seq nat) (P : pred 'I_n) : Prop :=
  forall y : 'I_n,
    exists b, nth_error visited y = Some b /\ Nat.eqb b 1 = P y.

(** [V] is a union of cycles of [s]. *)
Definition closed (V : {set 'I_n}) : Prop :=
  forall y, y \in V -> porbit s y \subset V.

End Defs.

Arguments marks {n} visited P.
Arguments closed {n} s V.

End CycleInvariants.

(** ** Notions used by the proofs about the graph builder *)

(** What the three mutations of [parentVertex] amount to. *)
Definition adopt (vid : nat) (el : ElementVal) (pv : GVertex) : GVertex :=
  pushSpanningTreeChild vid (map_value (addNeighbouringElement el) (addChild vid pv)).

(** [child_listed] on a bare vertex array. *)
Definition listed (vs : list GVertex) (i p : nat) : Prop :=
  exists pv, nth_error vs p = Some pv
             /\ In i (v_spanningTreeChildren pv) /\ In i (v_neighbours pv).

(** The fixed fields of the vertex that [visit] creates. *)
Definition visit_core (a : AtomTok) (hn : bool) (par : option nat) (g : Graph)
    : Core :=
  mkCore (List.length (vertices g)) par (element_of a)
         (if indexed_at a hn par then Some (_atomIdx g) else None)
         (bracket_of a) false.

(** The effect of one [visit]. *)
Record visit_post (a : AtomTok) (hn : bool) (par : option nat)
    (g g1 : Graph) (vid : nat) : Prop := mkVisitPost {
  vp_vid : vid = List.length (vertices g);
  vp_cores : cores g1 = cores g ++ [visit_core a hn par g];
  vp_mono : forall i p, child_listed g i p -> child_listed g1 i p;
  vp_parent : forall p, par = Some p -> p < vid /\ child_listed g1 vid p;
  vp_atomIdx : _atomIdx g1 = if indexed_at a hn par then S (_atomIdx g)
                             else _atomIdx g;
  vp_map : atomIdxToVertexId g1 =
           if indexed_at a hn par then atomIdxToVertexId g ++ [vid]
           else atomIdxToVertexId g;
  vp_edges : forall e, In e (edges g1) -> In e (edges g) \/ e_weight e = 1
}.

(** [atom.isStereoCenter = true] on the fixed fields. *)
Definition set_stereo (c : Core) : Core :=
  mkCore (c_id c) (c_parent c) (c_element c) (c_idx c) (c_bracket c) true.

(** The effect of a run of visits that index no atom. *)
Record loop_post (g g' : Graph) (new : list Core) : Prop := mkLoopPost {
  lp_cores : cores g' = cores g ++ new;
  lp_mono : forall i p, child_listed g i p -> child_listed g' i p;
  lp_atomIdx : _atomIdx g' = _atomIdx g;
  lp_map : atomIdxToVertexId g' = atomIdxToVertexId g;
  lp_edges : forall e, In e (edges g') -> In e (edges g) \/ e_weight e = 1
}.

(** The fixed fields of a vertex once the stereo block has run. *)
Definition finish (c : Core) : Core :=
  mkCore (c_id c) (c_parent c) (c_element c) (c_idx c) (c_bracket c) (chiral c).

(** The stereo hydrogens the block adds under vertex [vid]. *)
Definition stereo_new (vid : nat) (c : Core) : list Core :=
  if chiral c then map (hydrogen_core vid) (seq (S vid) (core_hcount c)) else [].

(** [P] holds of the successor, if there is one. *)
Definition option_all {A : Type} (P : A -> Prop) (o : option A) : Prop :=
  match o with Some x => P x | None => True end.

(** The three properties of [_init] proved by induction on the tree. *)
Definition keeps_inv (node : ParseTreeNode) : Prop :=
  forall order par br g g',
    _init node order par br g = Ok g' -> Inv g -> parent_ok par g ->
    Inv g' /\ grows g g'.

(** The graph the constructor starts from. *)
Definition empty_graph (iso : bool) : Graph :=
  {| vertices := []; edges := []; atomIdxToVertexId := [];
     vertexIdsToEdgeId := []; isomeric := iso; _atomIdx := 0; _time := 0 |}.

(** A parent id, when given, names a stored vertex. *)
Definition valid_parent (par : option nat) (g : Graph) : Prop :=
  match par with Some p => p < List.length (vertices g) | None => True end.

Definition returns (node : ParseTreeNode) : Prop :=
  shape_ok node = true ->
  forall order par br g, valid_parent par g ->
    exists g', _init node order par br g = Ok g'
               /\ List.length (vertices g) < List.length (vertices g').

Definition counted (node : ParseTreeNode) : Prop :=
  shape_ok node = true -> brackets_ok node = true ->
  forall order par br g g',
    _init node order par br g = Ok g' ->
    List.length (vertices g')
    = List.length (vertices g) + atom_count node + stereo_count node.

(** The vertices that received a heavy-atom index, in creation order. *)
Definition indexed_vertices (g : Graph) : list GVertex :=
  filter (fun v => negb (is_null (a_idx (v_value v)))) (vertices g).

(** Following [parentVertexId] upwards [k] times. *)
Fixpoint ancestor (vs : list GVertex) (k i : nat) : option nat :=
  match k with
  | 0 => Some i
  | S k' =>
    match nth_error vs i with
    | Some v =>
      match v_parentVertexId v with
      | Some p => ancestor vs k' p
      | None => None
      end
    | None => None
    end
  end.

(** ** Examples *)

(** A node with a bare symbol and nothing attached. *)
Definition leaf (symbol : string) : ParseTreeNode :=
  mkNode (SimpleAtom symbol) "-" None [] [] 0 0 None false.

(** [C=C]. *)
Definition ethene : ParseTreeNode :=
  mkNode (SimpleAtom "C") "=" None [] [] 0 0 (Some (leaf "C")) true.

(** [[H](C)]: a hydrogen root with one branch and no chain continuation. *)
Definition hydrogen_with_branch : ParseTreeNode :=
  mkNode (SimpleAtom "H") "-" None [] [leaf "C"] 1 0 None false.

(** [[C@H](F)(Cl)Br]. *)
Definition chiral_carbon : ParseTreeNode :=
  mkNode (BracketAtom (mkBracket "C" (Some 1) (Some "@") None None None))
         "-" None [] [leaf "F"; leaf "Cl"] 2 0 (Some (leaf "Br")) true.

(** The graph of a construction that returned. *)
Definition graph_of (r : result Graph) : Graph :=
  match r with Ok g => g | Throw _ => empty_graph false end.

(** The graphs the builder returns on the three examples. *)
Definition ethene_graph : Graph :=
  Eval vm_compute in graph_of (Graph_new ethene false).

Definition hydrogen_with_branch_graph : Graph :=
  Eval vm_compute in graph_of (Graph_new hydrogen_with_branch false).

Definition chiral_carbon_graph : Graph :=
  Eval vm_compute in graph_of (Graph_new chiral_carbon false).

(** Two six-membered rings that share the vertices 4 and 5; every atom
    lies in at most two rings. *)
Definition ring_atom (rings : list nat) : Vertex :=
  mkVertex
    {| Atom.idx := None; Atom.element := "C"; Atom.drawExplicit := false;
       Atom.ringbonds := []; Atom.rings := rings; Atom.bondType := "-";
       Atom.branchBond := None; Atom.isBridge := false;
       Atom.isBridgeNode := false; Atom.originalRings := [];
       Atom.bridgedRing := None; Atom.anchoredRings := [];
       Atom.bracket := None; Atom.plane := 0%Z;
       Atom.attachedPseudoElements := [];
       Atom.hasAttachedPseudoElements := false; Atom.isDrawn := true;
       Atom.isConnectedToRing := false; Atom.neighbouringElements := [];
       Atom.isPartOfAromaticRing := false; Atom.bondCount := 0;
       Atom.chirality := ""; Atom.isStereoCenter := false;
       Atom.priority := 0; Atom.mainChain := false;
       Atom.hydrogenDirection := "down"; Atom.subtreeDepth := 1;
       Atom.hasHydrogen := false |}.

(** The ten ring atoms with their ring lists. *)
Definition decalin_vertices : list Vertex :=
  [ring_atom [0]; ring_atom [0]; ring_atom [0]; ring_atom [0];
   ring_atom [0; 1]; ring_atom [0; 1];
   ring_atom [1]; ring_atom [1]; ring_atom [1]; ring_atom [1]].

Definition decalin_connection : RingConnection.t :=
  RingConnection.new (mkRing (Some 0) [0; 1; 2; 3; 4; 5])
                     (mkRing (Some 1) [4; 5; 6; 7; 8; 9]).

(** Every character is a lower-case letter. *)
Fixpoint all_lower (s : string) : bool :=
  match s with
  | EmptyString => true
  | String c s' => is_lower_ascii c && all_lower s'
  end.

(** An element written in lower-case notation: [c], [n], [se], [as], ... *)
Definition lower_case_notation (s : string) : bool :=
  negb (String.eqb s "") && all_lower s.

(** A theme with a carbon entry, and a manager that loaded it. *)
Definition light_theme : ThemeManager.Theme :=
  [("C", "#222"); ("O", "#e74c3c"); ("N", "#3498db"); ("BACKGROUND", "#fff")].

Definition light_manager : ThemeManager.t :=
  ThemeManager.new [("light", light_theme)] "light".

(** ** Notions used by the further properties *)

(** The sum of the [count] fields of the attached pseudo elements. *)
Fixpoint pseudo_total (o : list (string * PseudoElement)) : nat :=
  match o with
  | [] => 0
  | (_, pe) :: o' => pe_count pe + pseudo_total o'
  end.

(** The order of the default sort on strings. *)
Definition le_str (a b : string) : Prop := String.leb a b = true.

(** Two rings that share the three vertices 2, 3 and 4. *)
Definition bridged_connection : RingConnection.t :=
  RingConnection.new (mkRing (Some 0) [0; 1; 2; 3; 4])
                     (mkRing (Some 1) [2; 3; 4; 5; 6]).

(** [addAnchoredRing] called for every ring id of a list, in order. *)
Definition anchor_all (ringIds : list nat) (a : Atom.t) : Atom.t :=
  fold_left (fun a r => Atom.addAnchoredRing r a) ringIds a.

(** [setTheme] called for every name of a list, in order. *)
Definition set_themes (names : list string) (tm : ThemeManager.t)
    : ThemeManager.t :=
  fold_left (fun m n => ThemeManager.setTheme n m) names tm.

(** [colors.hasOwnProperty(name)]. *)
Definition known (colors : list (string * ThemeManager.Theme)) (name : string)
    : bool :=
  match ThemeManager.lookup name colors with Some _ => true | None => false end.

(** The number of cells of [visited] that are not marked. *)
Definition unvisited (visited : list nat) : nat :=
  List.length (filter (fun b => negb (b =? 1)) visited).

(** *** The links of a built graph *)

(** Vertex [w] has the vertex with id [i] as parent. *)
Definition is_child_of (i : nat) (w : GVertex) : bool :=
  match v_parentVertexId w with Some p => p =? i | None => false end.

(** The vertices whose parent is vertex [i], in creation order. *)
Definition children_of (vs : list GVertex) (i : nat) : list GVertex :=
  filter (is_child_of i) vs.

Definition v_element (v : GVertex) : ElementVal := a_element (v_value v).

(** The element of the parent of [v], if [v] has a parent. *)
Definition parent_element (vs : list GVertex) (v : GVertex) : list ElementVal :=
  match v_parentVertexId v with
  | Some p =>
    match nth_error vs p with
    | Some pv => [v_element pv]
    | None => []
    end
  | None => []
  end.

(** The fields of a vertex that no later step of [_init] assigns. *)
Definition fixed (v : GVertex)
    : nat * option nat * ElementVal * string * option string :=
  (v_id v, v_parentVertexId v, v_element v, a_bondType (v_value v),
   a_branchBond (v_value v)).

(** The vertex at index [i] and the lists it keeps. *)
Definition vertex_linked (vs : list GVertex) (i : nat) (v : GVertex) : Prop :=
  v_id v = i
  /\ match v_parentVertexId v with Some p => p < i | None => i = 0 end
  /\ v_neighbours v = map v_id (children_of vs i)
  /\ v_spanningTreeChildren v = map v_id (children_of vs i)
  /\ a_neighbouringElements (v_value v)
     = parent_element vs v ++ map v_element (children_of vs i).

(** The edge at index [k] joins vertex [k + 1] to its parent; its bond
    symbol is the target's [branchBond] or the source's [bondType], with
    "-" for a missing or empty one. *)
Definition edge_linked (vs : list GVertex) (k : nat) (e : GEdge) : Prop :=
  e_targetId e = S k
  /\ exists v pv,
       nth_error vs (S k) = Some v
       /\ v_parentVertexId v = Some (e_sourceId e)
       /\ nth_error vs (e_sourceId e) = Some pv
       /\ (e_bondType e = or_dash_opt (a_branchBond (v_value v))
           \/ e_bondType e = or_dash (a_bondType (v_value pv))).

Record Linked (g : Graph) : Prop := mkLinked {
  lk_vertex : forall i v, nth_error (vertices g) i = Some v ->
                vertex_linked (vertices g) i v;
  lk_edge_count : List.length (edges g) = pred (List.length (vertices g));
  lk_edges : forall k e, nth_error (edges g) k = Some e ->
               edge_linked (vertices g) k e
}.

(** *** The atoms of a parse tree, in the order [_init] visits them *)

(** The atom object [_init] builds for a node, without the index and the
    bookkeeping of its neighbours. *)
Definition node_atom (stereo : bool) (a : AtomTok) (bond : string)
    (bb : option string) (rb : list Ringbond) : GAtom :=
  {| a_element := element_of a;
     a_bondType := bond;
     a_idx := None;
     a_branchBond := bb;
     a_ringbonds := rb;
     a_bracket := bracket_of a;
     a_class := class_of a;
     a_isStereoCenter := stereo;
     a_isPartOfAromaticRing := false;
     a_bondCount := 0;
     a_neighbouringElements := [] |}.

(** The same view of a stored atom: [idx], [bondCount] and
    [neighbouringElements] are blanked. *)
Definition strip (a : GAtom) : GAtom :=
  mkGAtom (a_element a) (a_bondType a) None (a_branchBond a) (a_ringbonds a)
          (a_bracket a) (a_class a) (a_isStereoCenter a)
          (a_isPartOfAromaticRing a) 0 [].

Definition label (v : GVertex) : GAtom := strip (v_value v).

(** [atom.bracket && atom.bracket.chirality]. *)
Definition tok_chiral (a : AtomTok) : bool :=
  match bracket_of a with
  | Some b => truthy (b_chirality b)
  | None => false
  end.

(** The number of iterations of the stereo-hydrogen loop. *)
Definition tok_hydrogens (a : AtomTok) : nat :=
  match bracket_of a with
  | Some b => if truthy (b_chirality b) then hcount_of b else 0
  | None => 0
  end.

(** The atom of a stereo hydrogen. *)
Definition hydrogen_atom : GAtom := node_atom false (SimpleAtom "H") "-" None [].

(** Depth first: the node, its stereo hydrogens, its branches from left
    to right, then the rest of the chain. *)
Fixpoint preorder (n : ParseTreeNode) : list GAtom :=
  match n with
  | mkNode a bond bb rb bs _ _ nx _ =>
    node_atom (tok_chiral a) a bond bb rb
    :: repeat hydrogen_atom (tok_hydrogens a)
    ++ flat_map preorder bs
    ++ match nx with Some n' => preorder n' | None => [] end
  end.

Definition visits_preorder (node : ParseTreeNode) : Prop :=
  shape_ok node = true ->
  forall order par br g g',
    _init node order par br g = Ok g' ->
    map label (vertices g') = map label (vertices g) ++ preorder node.

(** The part of a parse tree that the counters announce: the first
    [branchCount] branches, and the successor when [hasNext] is set. *)
Fixpoint counted_part (n : ParseTreeNode) : ParseTreeNode :=
  match n with
  | mkNode a bond bb rb bs bc rc nx hn =>
    mkNode a bond bb rb (firstn bc (map counted_part bs)) bc rc
           (if hn then option_map counted_part nx else None) hn
  end.

Definition reads_counted_part (node : ParseTreeNode) : Prop :=
  forall order order' par br g,
    _init node order par br g = _init (counted_part node) order' par br g.

(** [this.isomeric = isomeric]. *)
Definition set_isomeric (b : bool) (g : Graph) : Graph :=
  mkGraph (vertices g) (edges g) (atomIdxToVertexId g) (vertexIdsToEdgeId g)
          b (_atomIdx g) (_time g).

Definition ignores_isomeric (node : ParseTreeNode) : Prop :=
  forall b order par br g,
    _init node order par br (set_isomeric b g)
    = (g' <- _init node order par br g ;; Ok (set_isomeric b g')).

(** A property of graphs that [_init] on [node] carries over, while the
    graph gets longer. *)
Definition step_closed (P : Graph -> Prop) (node : ParseTreeNode) : Prop :=
  forall order par br g g',
    _init node order par br g = Ok g' -> parent_ok par g -> P g ->
    P g' /\ List.length (vertices g) < List.length (vertices g').

(** * Verification *)

(** ** Arrays updated by index *)

Section UpdateNth.

Context {A : Type}.
Implicit Types (l : list A) (f : A -> A).

Lemma update_nth_length i f l :
  List.length (update_nth i f l) = List.length l.
Proof.
  revert i; induction l as [|x l IH]; intros [|i]; simpl; auto.
Qed.

Lemma nth_error_update_nth_eq i f l x :
  nth_error l i = Some x -> nth_error (update_nth i f l) i = Some (f x).
Proof.
  revert i; induction l as [|y l IH]; intros [|i]; simpl; try discriminate.
  - now intros [= ->].
  - apply IH.
Qed.

Lemma nth_error_update_nth_neq i j f l :
  i <> j -> nth_error (update_nth i f l) j = nth_error l j.
Proof.
  revert i j; induction l as [|y l IH]; intros [|i] [|j] Hij; simpl; auto;
    congruence.
Qed.

Lemma update_nth_app_l i f l l' :
  i < List.length l -> update_nth i f (l ++ l') = update_nth i f l ++ l'.
Proof.
  revert i; induction l as [|y l IH]; intros [|i]; simpl; try lia; auto.
  intros H; f_equal; apply IH; lia.
Qed.

Lemma update_nth_app_last f l x :
  update_nth (List.length l) f (l ++ [x]) = l ++ [f x].
Proof.
  induction l as [|y l IH]; simpl; auto. now rewrite IH.
Qed.

Lemma update_nth_twice i f f' l :
  update_nth i f (update_nth i f' l) = update_nth i (fun x => f (f' x)) l.
Proof.
  revert i; induction l as [|y l IH]; intros [|i]; simpl; auto.
  now rewrite IH.
Qed.

Lemma map_update_nth {B : Type} (h : A -> B) i f l :
  (forall x, h (f x) = h x) -> map h (update_nth i f l) = map h l.
Proof.
  intros Hh; revert i; induction l as [|y l IH]; intros [|i]; simpl; auto.
  - now rewrite Hh.
  - now rewrite IH.
Qed.

End UpdateNth.

(** ** The first part of [_init] in closed form *)

Lemma Graph_eq g g' :
  vertices g = vertices g' -> edges g = edges g' ->
  atomIdxToVertexId g = atomIdxToVertexId g' ->
  vertexIdsToEdgeId g = vertexIdsToEdgeId g' -> isomeric g = isomeric g' ->
  _atomIdx g = _atomIdx g' -> _time g = _time g' -> g = g'.
Proof. destruct g, g'; simpl; congruence. Qed.

(** Field by field, what each mutation leaves behind. *)
Section Projections.

Variables (g : Graph) (i : nat) (f : GVertex -> GVertex).

Lemma vertices_modify : vertices (modify_vertex i f g) = update_nth i f (vertices g).
Proof. reflexivity. Qed.
Lemma edges_modify : edges (modify_vertex i f g) = edges g.
Proof. reflexivity. Qed.
Lemma map_modify : atomIdxToVertexId (modify_vertex i f g) = atomIdxToVertexId g.
Proof. reflexivity. Qed.
Lemma ids_modify : vertexIdsToEdgeId (modify_vertex i f g) = vertexIdsToEdgeId g.
Proof. reflexivity. Qed.
Lemma isomeric_modify : isomeric (modify_vertex i f g) = isomeric g.
Proof. reflexivity. Qed.
Lemma atomIdx_modify : _atomIdx (modify_vertex i f g) = _atomIdx g.
Proof. reflexivity. Qed.
Lemma time_modify : _time (modify_vertex i f g) = _time g.
Proof. reflexivity. Qed.

Variable e : GEdge.

Lemma vertices_addEdge : vertices (fst (addEdge e g)) = vertices g.
Proof. reflexivity. Qed.
Lemma edges_addEdge :
  edges (fst (addEdge e g)) = edges g ++ [set_edge_id (List.length (edges g)) e].
Proof. reflexivity. Qed.
Lemma map_addEdge : atomIdxToVertexId (fst (addEdge e g)) = atomIdxToVertexId g.
Proof. reflexivity. Qed.
Lemma ids_addEdge : vertexIdsToEdgeId (fst (addEdge e g)) = vertexIdsToEdgeId g.
Proof. reflexivity. Qed.
Lemma isomeric_addEdge : isomeric (fst (addEdge e g)) = isomeric g.
Proof. reflexivity. Qed.
Lemma atomIdx_addEdge : _atomIdx (fst (addEdge e g)) = _atomIdx g.
Proof. reflexivity. Qed.
Lemma time_addEdge : _time (fst (addEdge e g)) = _time g.
Proof. reflexivity. Qed.

End Projections.

Ltac graph_fields :=
  repeat progress
    rewrite ?vertices_modify, ?edges_modify, ?map_modify, ?ids_modify,
      ?isomeric_modify, ?atomIdx_modify, ?time_modify, ?vertices_addEdge,
      ?edges_addEdge, ?map_addEdge, ?ids_addEdge, ?isomeric_addEdge,
      ?atomIdx_addEdge, ?time_addEdge.

Lemma visit_root a bond bb rb hn br g :
  visit a bond bb rb hn None br g =
  Ok (mkGraph
        (vertices g ++ [set_id (List.length (vertices g))
                               (createVertex (visit_atom a bond bb rb hn None g))])
        (edges g)
        (if indexed_at a hn None
         then atomIdxToVertexId g ++ [List.length (vertices g)]
         else atomIdxToVertexId g)
        (vertexIdsToEdgeId g) (isomeric g)
        (if indexed_at a hn None then S (_atomIdx g) else _atomIdx g)
        (_time g),
      List.length (vertices g)).
Proof. reflexivity. Qed.

Lemma visit_child a bond bb rb hn br g p pv :
  nth_error (vertices g) p = Some pv ->
  visit a bond bb rb hn (Some p) br g =
  Ok (mkGraph
        (update_nth p (adopt (List.length (vertices g)) (element_of a)) (vertices g)
         ++ [map_value (addNeighbouringElement (a_element (v_value pv)))
               (setParentVertexId p
                  (set_id (List.length (vertices g))
                          (createVertex (visit_atom a bond bb rb hn (Some p) g))))])
        (edges g ++ [set_edge_id (List.length (edges g))
                       (visit_edge p (List.length (vertices g)) br bb pv)])
        (if indexed_at a hn (Some p)
         then atomIdxToVertexId g ++ [List.length (vertices g)]
         else atomIdxToVertexId g)
        (vertexIdsToEdgeId g) (isomeric g)
        (if indexed_at a hn (Some p) then S (_atomIdx g) else _atomIdx g)
        (_time g),
      List.length (vertices g)).
Proof.
  intros Hp.
  assert (Hlt : p < List.length (vertices g))
    by (apply nth_error_Some; congruence).
  unfold visit. cbn [bump_atomIdx vertices addVertex]. rewrite Hp.
  do 2 f_equal.
  unfold attach. cbv zeta.
  apply Graph_eq; graph_fields; try reflexivity.
  cbn [vertices record_atomIdx with_vertices].
  rewrite !update_nth_app_last.
  rewrite !update_nth_app_l by (rewrite ?update_nth_length; exact Hlt).
  rewrite !update_nth_twice.
  reflexivity.
Qed.

Lemma visit_dangling a bond bb rb hn br g p :
  nth_error (vertices g) p = None ->
  visit a bond bb rb hn (Some p) br g = Throw TypeError.
Proof.
  intros Hp. unfold visit. cbn [bump_atomIdx vertices addVertex].
  now rewrite Hp.
Qed.

(** ** Children lists only grow *)

Lemma listed_app vs l i p : listed vs i p -> listed (vs ++ l) i p.
Proof.
  intros (pv & Hp & H1 & H2). exists pv; repeat split; auto.
  rewrite nth_error_app1; auto. apply nth_error_Some; congruence.
Qed.

Lemma listed_adopt vs p vid el i q :
  listed vs i q -> listed (update_nth p (adopt vid el) vs) i q.
Proof.
  intros (qv & Hq & H1 & H2).
  destruct (Nat.eq_dec p q) as [->|Hne].
  - exists (adopt vid el qv). split; [now apply nth_error_update_nth_eq|].
    simpl. split; apply in_or_app; auto.
  - exists qv. rewrite nth_error_update_nth_neq by exact Hne. auto.
Qed.

Lemma listed_adopt_new vs p pv vid el :
  nth_error vs p = Some pv -> listed (update_nth p (adopt vid el) vs) vid p.
Proof.
  intros Hp. exists (adopt vid el pv).
  split; [now apply nth_error_update_nth_eq|].
  simpl. split; apply in_or_app; right; now left.
Qed.

Lemma listed_update vs k f i p :
  (forall v, v_spanningTreeChildren (f v) = v_spanningTreeChildren v) ->
  (forall v, v_neighbours (f v) = v_neighbours v) ->
  listed vs i p -> listed (update_nth k f vs) i p.
Proof.
  intros Hs Hn (pv & Hp & H1 & H2).
  destruct (Nat.eq_dec k p) as [->|Hne].
  - exists (f pv). split; [now apply nth_error_update_nth_eq|].
    now rewrite Hs, Hn.
  - exists pv. rewrite nth_error_update_nth_neq by exact Hne. auto.
Qed.

(** ** What one visit does to the graph *)

Lemma visit_spec a bond bb rb hn par br g g1 vid :
  visit a bond bb rb hn par br g = Ok (g1, vid) -> visit_post a hn par g g1 vid.
Proof.
  destruct par as [p|].
  - destruct (nth_error (vertices g) p) as [pv|] eqn:Hp.
    + rewrite (visit_child _ _ _ _ _ _ _ _ _ Hp). intros [= <- <-].
      assert (Hlt : p < List.length (vertices g))
        by (apply nth_error_Some; congruence).
      constructor; cbn [vertices edges atomIdxToVertexId _atomIdx].
      * reflexivity.
      * unfold cores; cbn [vertices]. rewrite map_app.
        rewrite map_update_nth by reflexivity. reflexivity.
      * intros i q H. apply listed_app, listed_adopt, H.
      * intros q [= <-]. split; [exact Hlt|].
        eapply listed_app, listed_adopt_new, Hp.
      * reflexivity.
      * reflexivity.
      * intros e He. apply in_app_or in He as [He|[<-|[]]]; auto.
        right. unfold visit_edge. now destruct br.
    + rewrite (visit_dangling _ _ _ _ _ _ _ _ Hp). discriminate.
  - rewrite visit_root. intros [= <- <-].
    constructor; cbn [vertices edges atomIdxToVertexId _atomIdx].
    + reflexivity.
    + unfold cores; cbn [vertices]. now rewrite map_app.
    + intros i q H. apply listed_app, H.
    + discriminate.
    + reflexivity.
    + reflexivity.
    + auto.
Qed.

Lemma visit_total a bond bb rb hn par br g :
  match par with Some p => p < List.length (vertices g) | None => True end ->
  exists g1, visit a bond bb rb hn par br g = Ok (g1, List.length (vertices g)).
Proof.
  destruct par as [p|]; intros Hp.
  - destruct (nth_error (vertices g) p) as [pv|] eqn:E.
    + rewrite (visit_child _ _ _ _ _ _ _ _ _ E). eauto.
    + apply nth_error_None in E. lia.
  - rewrite visit_root. eauto.
Qed.

Lemma cores_length g : List.length (cores g) = List.length (vertices g).
Proof. apply length_map. Qed.

(** ** The stereo-hydrogen block *)

Lemma map_update_nth_comm {A B : Type} (h : A -> B) (f : A -> A) (F : B -> B) i l :
  (forall x, h (f x) = F (h x)) ->
  map h (update_nth i f l) = update_nth i F (map h l).
Proof.
  intros Hh; revert i; induction l as [|y l IH]; intros [|i]; simpl; auto.
  - now rewrite Hh.
  - now rewrite IH.
Qed.

Lemma mark_cores g cs c vid :
  cores g = cs ++ [c] -> vid = List.length cs ->
  cores (modify_vertex vid (map_value markStereoCenter) g) = cs ++ [set_stereo c].
Proof.
  intros Hc ->. unfold cores, modify_vertex; cbn [vertices with_vertices].
  rewrite (map_update_nth_comm core _ set_stereo) by reflexivity.
  fold (cores g). rewrite Hc. apply update_nth_app_last.
Qed.

Lemma mark_mono g vid i p :
  child_listed g i p ->
  child_listed (modify_vertex vid (map_value markStereoCenter) g) i p.
Proof. apply listed_update; reflexivity. Qed.

Lemma init_hydrogen_spec i vid g g' :
  init_hydrogen i (Some vid) true g = Ok g' ->
  loop_post g g' [hydrogen_core vid (List.length (vertices g))]
  /\ child_listed g' (List.length (vertices g)) vid.
Proof.
  unfold init_hydrogen.
  destruct (visit _ _ _ _ _ _ _ g) as [[g1 v]|] eqn:E; [|discriminate].
  intros [= <-]. apply visit_spec in E. destruct E as [-> Hc Hm Hp Ha Hi He].
  split; [constructor; auto|].
  apply (Hp vid eq_refl).
Qed.

Lemma stereo_loop_spec n : forall i vid g g',
  stereo_loop n i vid g = Ok g' ->
  loop_post g g' (map (hydrogen_core vid) (seq (List.length (vertices g)) n))
  /\ (forall k, k < n -> child_listed g' (List.length (vertices g) + k) vid).
Proof.
  induction n as [|n IH]; intros i vid g g'; simpl.
  - intros [= <-]. split; [|intros; lia].
    constructor; auto. now rewrite app_nil_r.
  - destruct (init_hydrogen i (Some vid) true g) as [g1|] eqn:E1; [|discriminate].
    simpl. intros E2.
    apply init_hydrogen_spec in E1. destruct E1 as [[Hc Hm Ha Hi He] Hch].
    apply IH in E2. destruct E2 as [[Hc' Hm' Ha' Hi' He'] Hch'].
    assert (Hlen : List.length (vertices g1) = S (List.length (vertices g))).
    { rewrite <- !cores_length, Hc, length_app. simpl. lia. }
    rewrite Hlen in *.
    split.
    + constructor; try congruence; auto.
      * rewrite Hc', Hc, <- app_assoc. reflexivity.
      * intros e H. apply He' in H as [H|H]; auto.
    + intros [|k] Hk.
      * rewrite Nat.add_0_r. auto.
      * replace (List.length (vertices g) + S k)
          with (S (List.length (vertices g)) + k) by lia.
        apply Hch'. lia.
Qed.

Lemma stereo_loop_total n : forall i vid g,
  vid < List.length (vertices g) -> exists g', stereo_loop n i vid g = Ok g'.
Proof.
  induction n as [|n IH]; intros i vid g Hv; simpl; eauto.
  unfold init_hydrogen.
  destruct (visit_total (SimpleAtom "H") "-" None [] false (Some vid) true g Hv)
    as [g1 E].
  rewrite E. simpl. apply IH.
  apply visit_spec in E. destruct E as [_ Hc _ _ _ _ _].
  rewrite <- !cores_length, Hc, length_app, cores_length. simpl. lia.
Qed.

Lemma stereo_part_spec a hn par g0 g1 g2 vid :
  cores g1 = cores g0 ++ [visit_core a hn par g0] ->
  vid = List.length (vertices g0) ->
  stereo_part (bracket_of a) vid g1 = Ok g2 ->
  cores g2 = cores g0 ++ finish (visit_core a hn par g0)
                         :: stereo_new vid (visit_core a hn par g0)
  /\ (forall i p, child_listed g1 i p -> child_listed g2 i p)
  /\ _atomIdx g2 = _atomIdx g1
  /\ atomIdxToVertexId g2 = atomIdxToVertexId g1
  /\ (forall e, In e (edges g2) -> In e (edges g1) \/ e_weight e = 1)
  /\ (chiral (visit_core a hn par g0) = true ->
      forall k, k < core_hcount (visit_core a hn par g0) ->
                child_listed g2 (S vid + k) vid).
Proof.
  intros Hc Hv. unfold stereo_part, finish, stereo_new, chiral, core_hcount.
  cbn [visit_core c_bracket c_id c_parent c_element c_idx].
  destruct (bracket_of a) as [b|] eqn:Eb;
    [destruct (truthy (b_chirality b)) eqn:Ht|].
  - intros E. apply stereo_loop_spec in E. destruct E as [[Hc' Hm Ha Hi He] Hch].
    assert (Hmark := mark_cores _ _ _ vid Hc).
    rewrite cores_length in Hmark. specialize (Hmark Hv).
    assert (Hlen : List.length
              (vertices (modify_vertex vid (map_value markStereoCenter) g1))
            = S vid).
    { rewrite <- cores_length, Hmark, length_app, cores_length. simpl. lia. }
    rewrite Hlen in *.
    repeat split; auto.
    + rewrite Hc', Hmark, <- app_assoc.
      unfold set_stereo, visit_core;
        cbn [c_bracket c_id c_parent c_element c_idx].
      rewrite Eb. reflexivity.
    + intros i p H. apply Hm, mark_mono, H.
  - intros [= <-]. repeat split; auto; try discriminate.
    rewrite Hc. unfold visit_core. now rewrite Eb.
  - intros [= <-]. repeat split; auto; try discriminate.
    rewrite Hc. unfold visit_core. now rewrite Eb.
Qed.

Lemma stereo_part_total bracket vid g :
  vid < List.length (vertices g) -> exists g', stereo_part bracket vid g = Ok g'.
Proof.
  intros Hv. unfold stereo_part.
  destruct bracket as [b|]; [destruct (truthy (b_chirality b))|]; eauto.
  apply stereo_loop_total.
  unfold modify_vertex; cbn [vertices with_vertices].
  now rewrite update_nth_length.
Qed.

(** ** The invariant *)

Lemma grows_refl g : grows g g.
Proof. split; auto. exists []. now rewrite app_nil_r. Qed.

Lemma grows_trans g1 g2 g3 : grows g1 g2 -> grows g2 g3 -> grows g1 g3.
Proof.
  intros [[l Hl] Hm] [[l' Hl'] Hm']. split; auto.
  exists (l ++ l'). now rewrite Hl', Hl, app_assoc.
Qed.

Lemma grows_nth g g' i c :
  grows g g' -> nth_error (cores g) i = Some c -> nth_error (cores g') i = Some c.
Proof.
  intros [[l Hl] _] H. rewrite Hl, nth_error_app1; auto.
  apply nth_error_Some; congruence.
Qed.

Lemma grows_length g g' :
  grows g g' -> List.length (vertices g) <= List.length (vertices g').
Proof.
  intros [[l Hl] _]. rewrite <- !cores_length, Hl, length_app. lia.
Qed.

Lemma vertex_ok_mono g g' i c :
  grows g g' -> vertex_ok g i c -> vertex_ok g' i c.
Proof.
  intros Hg (H1 & H2 & H3 & H4 & H5 & H6).
  repeat split; auto.
  - destruct (c_parent c); auto. destruct H2; split; auto. now apply Hg.
  - intros Hc k Hk. eapply grows_nth; eauto.
Qed.

Lemma nth_error_map_seq {A : Type} (f : nat -> A) s n k :
  k < n -> nth_error (map f (seq s n)) k = Some (f (s + k)).
Proof.
  revert s k; induction n as [|n IH]; intros s [|k] Hk; simpl; try lia.
  - now rewrite Nat.add_0_r.
  - rewrite IH by lia. do 2 f_equal. lia.
Qed.

Lemma filter_hydrogens p l : filter has_idx (map (hydrogen_core p) l) = [].
Proof. induction l; simpl; auto. Qed.

Lemma seq_snoc n : seq 0 (S n) = seq 0 n ++ [n].
Proof. now rewrite seq_S. Qed.

Lemma nth_error_map_seq_inv {A : Type} (f : nat -> A) s n k x :
  nth_error (map f (seq s n)) k = Some x -> k < n /\ x = f (s + k).
Proof.
  intros H.
  assert (Hk : k < n).
  { assert (Hl : List.length (map f (seq s n)) = n)
      by now rewrite length_map, length_seq.
    rewrite <- Hl. apply nth_error_Some; congruence. }
  rewrite nth_error_map_seq in H by exact Hk. split; congruence.
Qed.

Lemma head_inv a bond bb rb hn par br g g1 g2 vid :
  Inv g -> parent_ok par g ->
  visit a bond bb rb hn par br g = Ok (g1, vid) ->
  stereo_part (bracket_of a) vid g1 = Ok g2 ->
  Inv g2 /\ grows g g2 /\ vid = List.length (vertices g)
  /\ cores g2 = cores g ++ finish (visit_core a hn par g)
                          :: stereo_new vid (visit_core a hn par g).
Proof.
  intros HI Hpar Ev Es.
  apply visit_spec in Ev. destruct Ev as [Hv Hc Hm Hp Ha Hi He].
  destruct (stereo_part_spec _ _ _ _ _ _ _ Hc Hv Es)
    as (Hc2 & Hm2 & Ha2 & Hi2 & He2 & Hch).
  assert (Hg : grows g g2).
  { split; [eexists; exact Hc2 | intros; apply Hm2, Hm; auto]. }
  split; [|auto].
  set (c0 := visit_core a hn par g) in *.
  constructor.
  - intros i c Hn.
    destruct (lt_dec i (List.length (cores g))) as [Hlt|Hge].
    { eapply vertex_ok_mono; [exact Hg|]. apply HI.
      rewrite Hc2, nth_error_app1 in Hn; auto. }
    rewrite Hc2, nth_error_app2 in Hn by lia.
    rewrite cores_length in *.
    destruct (i - List.length (vertices g)) as [|j] eqn:Hj.
    + injection Hn as <-. assert (i = vid) by lia. subst i.
      unfold vertex_ok, finish, chiral, core_hcount;
        cbn [c_id c_parent c_element c_idx c_bracket c_stereo c0 visit_core].
      split; [auto|]. split.
      { destruct par as [p|].
        - destruct (Hp p eq_refl). split; auto.
        - simpl in Hpar. rewrite Hv, Hpar. reflexivity. }
      split.
      { unfold indexed_at. intros ->. simpl. discriminate. }
      split.
      { unfold indexed_at. intros ->. simpl.
        destruct hn, par; simpl; try congruence.
        intros _. simpl in Hpar. rewrite Hv, Hpar. reflexivity. }
      split; [reflexivity|].
      intros Hchi k Hk. rewrite Hc2.
      rewrite nth_error_app2 by (rewrite cores_length; lia).
      rewrite cores_length.
      replace (vid + 1 + k - List.length (vertices g)) with (S k) by lia.
      simpl. unfold stereo_new, chiral, core_hcount;
        cbn [c_bracket c0 visit_core]. rewrite Hchi.
      rewrite nth_error_map_seq by exact Hk.
      do 2 f_equal. lia.
    + simpl in Hn. unfold stereo_new in Hn.
      destruct (chiral c0) eqn:Hchi; [|destruct j; discriminate].
      apply nth_error_map_seq_inv in Hn. destruct Hn as [Hk ->].
      assert (i = S vid + j) by lia. subst i.
      unfold vertex_ok, hydrogen_core, chiral;
        cbn [c_id c_parent c_element c_idx c_bracket c_stereo].
      repeat split; try discriminate; try congruence; try lia.
      apply Hch; auto.
  - rewrite Hi2, Hi, Hc2, filter_app, map_app, <- (inv_map _ HI).
    cbn [filter]. unfold stereo_new.
    replace (has_idx (finish c0)) with (indexed_at a hn par)
      by (unfold has_idx, finish, c0, visit_core; cbn [c_idx];
          destruct (indexed_at a hn par); reflexivity).
    rewrite Hv.
    destruct (indexed_at a hn par), (chiral c0);
      rewrite ?filter_hydrogens, ?app_nil_r; reflexivity.
  - rewrite Ha2, Ha, Hc2, filter_app, map_app, (inv_idx _ HI).
    cbn [filter]. unfold stereo_new.
    replace (has_idx (finish c0)) with (indexed_at a hn par)
      by (unfold has_idx, finish, c0, visit_core; cbn [c_idx];
          destruct (indexed_at a hn par); reflexivity).
    unfold finish, c0, visit_core; cbn [c_idx].
    destruct (indexed_at a hn par), (chiral _);
      rewrite ?filter_hydrogens, ?app_nil_r, ?seq_snoc, ?map_app; reflexivity.
  - intros e H. apply He2 in H as [H|H]; auto.
    apply He in H as [H|H]; auto. now apply (inv_edge _ HI).
Qed.

(** ** Induction over parse trees *)

Section ParseTreeInduction.

Variable P : ParseTreeNode -> Prop.
Hypothesis Hnode : forall a b bb rb bs bc rc nx hn,
  Forall P bs -> option_all P nx -> P (mkNode a b bb rb bs bc rc nx hn).

Fixpoint ParseTreeNode_induction (n : ParseTreeNode) : P n :=
  match n with
  | mkNode a b bb rb bs bc rc nx hn =>
    Hnode a b bb rb bs bc rc nx hn
      ((fix all (l : list ParseTreeNode) : Forall P l :=
          match l with
          | [] => Forall_nil P
          | x :: l' => Forall_cons x (ParseTreeNode_induction x) (all l')
          end) bs)
      (match nx as o return option_all P o with
       | Some n' => ParseTreeNode_induction n'
       | None => I
       end)
  end.

End ParseTreeInduction.

Lemma _init_unfold a b bb rb bs bc rc nx hn order par br g :
  _init (mkNode a b bb rb bs bc rc nx hn) order par br g =
  match visit a b bb rb hn par br g with
  | Throw e => Throw e
  | Ok (g, vid) =>
    let offset := rc + 1
                  + match bracket_of a with Some b => hcount_of b | None => 0 end in
    g <- stereo_part (bracket_of a) vid g ;;
    g <- branch_loop _init offset vid bs bc 0 g ;;
    if hn then
      match nx with
      | None => Throw TypeError
      | Some nx => _init nx (bc + offset) (Some vid) false g
      end
    else Ok g
  end.
Proof. reflexivity. Qed.

(** [_init] on the hydrogen literal is the inlined [init_hydrogen]. *)
Lemma _init_hydrogenNode order par br g :
  _init hydrogenNode order par br g = init_hydrogen order par br g.
Proof.
  unfold hydrogenNode, init_hydrogen. rewrite _init_unfold.
  destruct (visit _ _ _ _ _ _ _ _) as [[g1 vid]|]; reflexivity.
Qed.

(** ** [_init] keeps the invariant *)

Lemma branch_loop_inv offset vid bs :
  Forall keeps_inv bs ->
  forall n i g g',
    branch_loop _init offset vid bs n i g = Ok g' ->
    Inv g -> vid < List.length (vertices g) ->
    Inv g' /\ grows g g'.
Proof.
  induction 1 as [|b bs Hb _ IH]; intros [|n] i g g'; simpl;
    try discriminate; try (intros [= <-]; split; auto using grows_refl).
  destruct (_init b _ _ _ g) as [g1|] eqn:E; [|discriminate]. simpl.
  intros E' HI Hv.
  destruct (Hb _ _ _ _ _ E HI Hv) as [HI1 Hg1].
  assert (Hv1 := grows_length _ _ Hg1).
  destruct (IH _ _ _ _ E' HI1 ltac:(lia)) as [HI2 Hg2].
  split; eauto using grows_trans.
Qed.

Lemma init_inv node : keeps_inv node.
Proof.
  induction node as [a b bb rb bs bc rc nx hn IHbs IHnx]
    using ParseTreeNode_induction.
  intros order par br g g'. rewrite _init_unfold.
  destruct (visit _ _ _ _ _ _ _ _) as [[g1 vid]|] eqn:Ev; [|discriminate].
  cbv zeta.
  destruct (stereo_part _ _ _) as [g2|] eqn:Es; [|discriminate]. simpl.
  destruct (branch_loop _ _ _ _ _ _ _) as [g3|] eqn:Eb; [|discriminate]. simpl.
  intros E HI Hpar.
  destruct (head_inv _ _ _ _ _ _ _ _ _ _ _ HI Hpar Ev Es) as (HI2 & Hg2 & Hv & Hc2).
  assert (Hv2 : vid < List.length (vertices g2)).
  { rewrite <- (cores_length g2), Hc2, length_app, cores_length. simpl. lia. }
  destruct (branch_loop_inv _ _ _ IHbs _ _ _ _ Eb HI2 Hv2) as [HI3 Hg3].
  assert (Hv3 := grows_length _ _ Hg3).
  destruct hn.
  - destruct nx as [nx|]; [|discriminate].
    destruct (IHnx _ _ _ _ _ E HI3 ltac:(simpl; lia)) as [HI4 Hg4].
    split; eauto using grows_trans.
  - injection E as <-. split; eauto using grows_trans.
Qed.

Lemma Inv_empty iso : Inv (empty_graph iso).
Proof.
  constructor; simpl; auto.
  - intros [|i] c; discriminate.
  - intros e [].
Qed.

Lemma Graph_new_inv t iso g : Graph_new t iso = Ok g -> Inv g.
Proof.
  intros E. apply (init_inv t 0 None false (empty_graph iso) g E).
  - apply Inv_empty.
  - reflexivity.
Qed.

(** The vertex created for a node keeps its fixed fields to the end. *)
Lemma init_root a b bb rb bs bc rc nx hn order par br g g' :
  _init (mkNode a b bb rb bs bc rc nx hn) order par br g = Ok g' ->
  Inv g -> parent_ok par g ->
  nth_error (cores g') (List.length (vertices g))
  = Some (finish (visit_core a hn par g)).
Proof.
  rewrite _init_unfold.
  destruct (visit _ _ _ _ _ _ _ _) as [[g1 vid]|] eqn:Ev; [|discriminate].
  cbv zeta.
  destruct (stereo_part _ _ _) as [g2|] eqn:Es; [|discriminate]. simpl.
  destruct (branch_loop _ _ _ _ _ _ _) as [g3|] eqn:Eb; [|discriminate]. simpl.
  intros E HI Hpar.
  destruct (head_inv _ _ _ _ _ _ _ _ _ _ _ HI Hpar Ev Es) as (HI2 & Hg2 & Hv & Hc2).
  assert (Hv2 : vid < List.length (vertices g2)).
  { rewrite <- (cores_length g2), Hc2, length_app, cores_length. simpl. lia. }
  assert (H2 : nth_error (cores g2) (List.length (vertices g))
               = Some (finish (visit_core a hn par g))).
  { rewrite Hc2, nth_error_app2 by (rewrite cores_length; lia).
    now rewrite cores_length, Nat.sub_diag. }
  assert (Hall : Forall keeps_inv bs)
    by (apply Forall_forall; intros; apply init_inv).
  destruct (branch_loop_inv _ _ _ Hall _ _ _ _ Eb HI2 Hv2) as [HI3 Hg3].
  assert (Hv3 := grows_length _ _ Hg3).
  assert (H3 := grows_nth _ _ _ _ Hg3 H2).
  destruct hn.
  - destruct nx as [nx|]; [|discriminate].
    destruct (init_inv nx _ _ _ _ _ E HI3 ltac:(simpl; lia)) as [_ Hg4].
    eapply grows_nth; eauto.
  - now injection E as <-.
Qed.

(** ** [_init] returns on every tree of the promised shape *)

Lemma head_length a bond bb rb hn par br g g1 g2 vid :
  visit a bond bb rb hn par br g = Ok (g1, vid) ->
  stereo_part (bracket_of a) vid g1 = Ok g2 ->
  List.length (vertices g2)
  = List.length (vertices g) + 1
    + (if chiral (visit_core a hn par g) then core_hcount (visit_core a hn par g)
       else 0).
Proof.
  intros Ev Es. apply visit_spec in Ev. destruct Ev as [Hv Hc _ _ _ _ _].
  destruct (stereo_part_spec _ _ _ _ _ _ _ Hc Hv Es) as (Hc2 & _).
  rewrite <- (cores_length g2), Hc2, length_app, cores_length. simpl.
  unfold stereo_new. destruct (chiral _); simpl.
  - rewrite length_map, length_seq. lia.
  - lia.
Qed.

Lemma branch_loop_returns offset vid bs :
  Forall returns bs -> forallb shape_ok bs = true ->
  forall i g, vid < List.length (vertices g) ->
    exists g', branch_loop _init offset vid bs (List.length bs) i g = Ok g'
               /\ List.length (vertices g) <= List.length (vertices g').
Proof.
  induction 1 as [|b bs Hb _ IH]; simpl; intros Hs i g Hv; eauto.
  apply andb_prop in Hs as [Hs1 Hs2].
  destruct (Hb Hs1 (i + offset) (Some vid) true g Hv) as (g1 & E & Hl).
  rewrite E. simpl.
  destruct (IH Hs2 (S i) g1 ltac:(lia)) as (g2 & E2 & Hl2).
  exists g2. split; auto. lia.
Qed.

Lemma init_returns node : returns node.
Proof.
  induction node as [a b bb rb bs bc rc nx hn IHbs IHnx]
    using ParseTreeNode_induction.
  intros Hs order par br g Hpar. simpl in Hs.
  apply andb_prop in Hs as [Hs Hnx]. apply andb_prop in Hs as [Hbc Hbs].
  apply Nat.eqb_eq in Hbc. subst bc.
  rewrite _init_unfold.
  destruct (visit_total a b bb rb hn par br g Hpar) as [g1 Ev]. rewrite Ev.
  cbv zeta.
  assert (Hl1 : List.length (vertices g1) = S (List.length (vertices g))).
  { apply visit_spec in Ev. destruct Ev as [_ Hc _ _ _ _ _].
    rewrite <- !cores_length, Hc, length_app. simpl. lia. }
  destruct (stereo_part_total (bracket_of a) (List.length (vertices g)) g1
              ltac:(lia)) as [g2 Es].
  rewrite Es. simpl.
  assert (Hl2 := head_length _ _ _ _ _ _ _ _ _ _ _ Ev Es).
  destruct (branch_loop_returns
              (rc + 1 + match bracket_of a with
                        | Some b0 => hcount_of b0 | None => 0 end)
              (List.length (vertices g)) bs IHbs Hbs 0 g2 ltac:(lia))
    as (g3 & Eb & Hl3).
  rewrite Eb. simpl.
  destruct nx as [nx|].
  - apply andb_prop in Hnx as [-> Hnx].
    destruct (IHnx Hnx (List.length bs + (rc + 1 + match bracket_of a with
                        | Some b0 => hcount_of b0 | None => 0 end))
                   (Some (List.length (vertices g))) false g3
                   ltac:(simpl; lia)) as (g4 & E4 & Hl4).
    exists g4. split; auto. lia.
  - destruct hn; [discriminate|]. exists g3. split; auto. lia.
Qed.

(** ** Counting the vertices *)

Lemma chiral_stereo_hcount a hn par g :
  bracket_ok a = true ->
  (if chiral (visit_core a hn par g) then core_hcount (visit_core a hn par g)
   else 0) = stereo_hcount a.
Proof.
  unfold chiral, core_hcount, visit_core, stereo_hcount, bracket_of, bracket_ok;
    cbn [c_bracket].
  destruct a as [s|b]; auto.
  destruct (String.eqb (b_element b) ""); simpl; [discriminate|].
  unfold truthy. destruct (b_chirality b) as [c|]; auto.
  destruct (String.eqb c ""); simpl; [discriminate|auto].
Qed.

Lemma branch_loop_counted offset vid bs :
  Forall counted bs -> forallb shape_ok bs = true ->
  forallb brackets_ok bs = true ->
  forall i g g',
    branch_loop _init offset vid bs (List.length bs) i g = Ok g' ->
    List.length (vertices g')
    = List.length (vertices g)
      + fold_right (fun b acc => atom_count b + acc) 0 bs
      + fold_right (fun b acc => stereo_count b + acc) 0 bs.
Proof.
  induction 1 as [|b bs Hb _ IH]; simpl; intros Hs Hk i g g'.
  - intros [= <-]. lia.
  - apply andb_prop in Hs as [Hs1 Hs2]. apply andb_prop in Hk as [Hk1 Hk2].
    destruct (_init b _ _ _ g) as [g1|] eqn:E; [|discriminate]. simpl.
    intros E'. rewrite (IH Hs2 Hk2 _ _ _ E'), (Hb Hs1 Hk1 _ _ _ _ _ E). lia.
Qed.

Lemma init_counted node : counted node.
Proof.
  induction node as [a b bb rb bs bc rc nx hn IHbs IHnx]
    using ParseTreeNode_induction.
  intros Hs Hk order par br g g'. simpl in Hs, Hk.
  apply andb_prop in Hs as [Hs Hnx]. apply andb_prop in Hs as [Hbc Hbs].
  apply andb_prop in Hk as [Hk Hknx]. apply andb_prop in Hk as [Hka Hkbs].
  apply Nat.eqb_eq in Hbc. subst bc.
  rewrite _init_unfold.
  destruct (visit _ _ _ _ _ _ _ _) as [[g1 vid]|] eqn:Ev; [|discriminate].
  cbv zeta.
  destruct (stereo_part _ _ _) as [g2|] eqn:Es; [|discriminate]. simpl.
  destruct (branch_loop _ _ _ _ _ _ _) as [g3|] eqn:Eb; [|discriminate]. simpl.
  intros E.
  assert (Hl2 := head_length _ _ _ _ _ _ _ _ _ _ _ Ev Es).
  rewrite chiral_stereo_hcount in Hl2 by exact Hka.
  assert (Hl3 := branch_loop_counted _ _ _ IHbs Hbs Hkbs _ _ _ Eb).
  cbn [atom_count stereo_count].
  destruct nx as [nx|].
  - apply andb_prop in Hnx as [-> Hnx].
    rewrite (IHnx Hnx Hknx _ _ _ _ _ E). lia.
  - destruct hn; [discriminate|]. injection E as <-. lia.
Qed.

(** ** From cores back to vertices *)

Lemma nth_cores g i v :
  nth_error (vertices g) i = Some v -> nth_error (cores g) i = Some (core v).
Proof. intros H. unfold cores. now rewrite nth_error_map, H. Qed.

Lemma nth_cores_inv g i c :
  nth_error (cores g) i = Some c ->
  exists v, nth_error (vertices g) i = Some v /\ core v = c.
Proof.
  unfold cores. rewrite nth_error_map.
  destruct (nth_error (vertices g) i) as [v|]; [|discriminate].
  intros [= <-]. eauto.
Qed.

Lemma filter_map_comm {A B : Type} (h : A -> B) (p : B -> bool) (l : list A) :
  filter p (map h l) = map h (filter (fun x => p (h x)) l).
Proof.
  induction l as [|x l IH]; simpl; auto.
  destruct (p (h x)); simpl; now rewrite IH.
Qed.

Lemma indexed_cores g :
  filter has_idx (cores g) = map core (indexed_vertices g).
Proof. unfold cores. now rewrite filter_map_comm. Qed.

Lemma Graph_new_root a b bb rb bs bc rc nx hn iso g :
  Graph_new (mkNode a b bb rb bs bc rc nx hn) iso = Ok g ->
  exists v0, nth_error (vertices g) 0 = Some v0
             /\ core v0 = finish (visit_core a hn None (empty_graph iso)).
Proof.
  intros E. apply nth_cores_inv.
  apply (init_root _ _ _ _ _ _ _ _ _ _ _ _ _ _ E (Inv_empty iso) eq_refl).
Qed.

Lemma ancestor_root g :
  Inv g -> forall i, i < List.length (vertices g) ->
  exists k, ancestor (vertices g) k i = Some 0.
Proof.
  intros HI i. induction i as [i IH] using lt_wf_ind. intros Hi.
  destruct (nth_error (vertices g) i) as [v|] eqn:Hv;
    [|apply nth_error_None in Hv; lia].
  destruct (inv_vertex _ HI _ _ (nth_cores _ _ _ Hv)) as (_ & Hp & _).
  cbn [core c_parent] in Hp.
  destruct (v_parentVertexId v) as [p|] eqn:Ep.
  - destruct Hp as [Hlt _].
    destruct (IH p Hlt ltac:(lia)) as [k Hk].
    exists (S k). simpl. now rewrite Hv, Ep.
  - exists 0. simpl. now rewrite Hp.
Qed.

Lemma ancestor_below g :
  Inv g -> forall k i j, 0 < k -> ancestor (vertices g) k i = Some j -> j < i.
Proof.
  intros HI k. induction k as [|k IH]; intros i j Hk; [lia|]. simpl.
  destruct (nth_error (vertices g) i) as [v|] eqn:Hv; [|discriminate].
  destruct (inv_vertex _ HI _ _ (nth_cores _ _ _ Hv)) as (_ & Hp & _).
  cbn [core c_parent] in Hp.
  destruct (v_parentVertexId v) as [p|]; [|discriminate].
  destruct Hp as [Hlt _]. destruct k as [|k'].
  - simpl. intros [= <-]. exact Hlt.
  - intros H. apply IH in H; lia.
Qed.

Lemma Graph_new_ethene : Graph_new ethene false = Ok ethene_graph.
Proof. vm_compute. reflexivity. Qed.

Lemma Graph_new_hydrogen_with_branch :
  Graph_new hydrogen_with_branch false = Ok hydrogen_with_branch_graph.
Proof. vm_compute. reflexivity. Qed.

Lemma Graph_new_chiral_carbon :
  Graph_new chiral_carbon false = Ok chiral_carbon_graph.
Proof. vm_compute. reflexivity. Qed.

(** ** Graph builder: the claims *)

(** C2 (as stated, refuted).  The claim lets a hydrogen keep an index only
    when it is the sole atom of the molecule.  On [[H](C)] the root
    hydrogen has no chain continuation and no parent, so it is indexed,
    although the tree has two atoms. *)
Lemma C2_counterexample_hydrogen_root_with_branch :
  ~ (forall t iso g v,
       Graph_new t iso = Ok g -> In v (vertices g) ->
       isH (a_element (v_value v)) = true ->
       a_idx (v_value v) <> None -> atom_count t = 1).
Proof.
  intros H.
  pose (v0 := hd (createVertex (visit_atom (SimpleAtom "") "" None [] false
                                           None (empty_graph false)))
                 (vertices hydrogen_with_branch_graph)).
  assert (C : atom_count hydrogen_with_branch = 1).
  { apply (H hydrogen_with_branch false hydrogen_with_branch_graph v0
             Graph_new_hydrogen_with_branch).
    - left. reflexivity.
    - reflexivity.
    - discriminate. }
  discriminate.
Qed.

(** C2 (amended).  In the graph built from a parse tree, the vertices
    that carry a heavy-atom index carry 0, 1, 2, ... in creation order and
    [atomIdxToVertexId] lists their ids in that order; every atom whose
    element is not "H" carries an index; an atom whose element is "H"
    carries one exactly when it is the root vertex and the root node has
    no chain continuation ([hasNext] false). *)
Theorem C2_heavy_atom_indexing t iso g :
  Graph_new t iso = Ok g ->
  map (fun v => a_idx (v_value v)) (indexed_vertices g)
  = map Some (seq 0 (List.length (indexed_vertices g)))
  /\ atomIdxToVertexId g = map v_id (indexed_vertices g)
  /\ (forall v, In v (vertices g) ->
        isH (a_element (v_value v)) = false -> a_idx (v_value v) <> None)
  /\ (forall v, In v (vertices g) ->
        isH (a_element (v_value v)) = true ->
        (a_idx (v_value v) <> None <-> v_id v = 0 /\ hasNext t = false)).
Proof.
  intros E. assert (HI := Graph_new_inv _ _ _ E).
  assert (Hidx := inv_idx _ HI). assert (Hmap := inv_map _ HI).
  rewrite indexed_cores, map_map in Hidx, Hmap.
  cbn [core c_idx c_id] in Hidx, Hmap.
  assert (Hlen : List.length (indexed_vertices g) = _atomIdx g).
  { apply (f_equal (@List.length _)) in Hidx.
    now rewrite !length_map, length_seq in Hidx. }
  split; [now rewrite Hlen|]. split; [exact Hmap|]. split.
  - intros v Hin Hh. apply In_nth_error in Hin as [i Hi].
    destruct (inv_vertex _ HI _ _ (nth_cores _ _ _ Hi)) as (_ & _ & H3 & _).
    now apply H3.
  - intros v Hin Hh. apply In_nth_error in Hin as [i Hi].
    destruct (inv_vertex _ HI _ _ (nth_cores _ _ _ Hi))
      as (Hid & _ & _ & H4 & _).
    cbn [core c_id c_element c_idx] in Hid, H4.
    destruct t as [a b bb rb bs bc rc nx hn].
    destruct (Graph_new_root _ _ _ _ _ _ _ _ _ _ _ E) as (v0 & Hv0 & Hc0).
    apply (f_equal c_idx) in Hc0 as Hci.
    apply (f_equal c_element) in Hc0 as Hce.
    cbn [core finish visit_core c_idx c_element] in Hci, Hce.
    unfold indexed_at in Hci. cbn [hasNext].
    split.
    + intros Hn. specialize (H4 Hh Hn). rewrite H4 in Hi, Hid.
      rewrite Hi in Hv0. injection Hv0 as <-.
      rewrite <- Hce, Hh in Hci. split; [exact Hid|].
      destruct hn; simpl in Hci; congruence.
    + intros [Hid0 Hhn]. rewrite Hid0 in Hid. rewrite <- Hid in Hi.
      rewrite Hhn in Hci.
      rewrite Hi in Hv0. injection Hv0 as <-.
      rewrite <- Hce, Hh in Hci. simpl in Hci. congruence.
Qed.

Lemma C2_heavy_atom_indexing_witness :
  exists g, Graph_new hydrogen_with_branch false = Ok g
  /\ (map (fun v => a_idx (v_value v)) (indexed_vertices g)
      = map Some (seq 0 (List.length (indexed_vertices g)))
      /\ atomIdxToVertexId g = map v_id (indexed_vertices g)
      /\ (forall v, In v (vertices g) ->
            isH (a_element (v_value v)) = false -> a_idx (v_value v) <> None)
      /\ (forall v, In v (vertices g) ->
            isH (a_element (v_value v)) = true ->
            (a_idx (v_value v) <> None
             <-> v_id v = 0 /\ hasNext hydrogen_with_branch = false))).
Proof.
  exists hydrogen_with_branch_graph.
  split; [exact Graph_new_hydrogen_with_branch|].
  exact (C2_heavy_atom_indexing hydrogen_with_branch false
           hydrogen_with_branch_graph Graph_new_hydrogen_with_branch).
Defined.

(** Every edge the builder creates keeps the weight 1 of its literal. *)
Lemma built_edges_have_weight_one t iso g :
  Graph_new t iso = Ok g -> forall e, In e (edges g) -> e_weight e = 1.
Proof. intros E. apply inv_edge. eapply Graph_new_inv, E. Qed.

(** The [Edge] class resolves the six symbols of its table. *)
Lemma Edge_setBondType_table (e : Edge.t) :
  Edge.weight (Edge.setBondType "-" e) = Some 1
  /\ Edge.weight (Edge.setBondType "/" e) = Some 1
  /\ Edge.weight (Edge.setBondType "\" e) = Some 1
  /\ Edge.weight (Edge.setBondType "=" e) = Some 2
  /\ Edge.weight (Edge.setBondType "#" e) = Some 3
  /\ Edge.weight (Edge.setBondType "$" e) = Some 4.
Proof. repeat split. Qed.

(** C3 (code defect).  On [C=C] the builder creates one edge whose bond
    symbol is "=" and whose weight is still the 1 of the edge literal,
    while the symbol table of the [Edge] class gives 2 for "=": the
    [setBondType] of the literal in [_init] stores the symbol and does not
    look the weight up. *)
Theorem C3_double_bond_edge_keeps_weight_one :
  exists g e,
    Graph_new ethene false = Ok g
    /\ edges g = [e]
    /\ e_bondType e = "="
    /\ e_weight e = 1
    /\ Edge.bonds (e_bondType e) = Some 2
    /\ Edge.weight (Edge.setBondType (e_bondType e) (Edge.new 0 1)) = Some 2.
Proof.
  exists ethene_graph. eexists.
  split; [exact Graph_new_ethene|].
  split; [reflexivity|]. repeat split.
Qed.

(** C4.  For a parse tree of the promised shape the graph has one vertex
    per atom node plus, for every bracket atom with a chirality tag, as
    many vertices as its hydrogen count.  A vertex is marked as
    stereocenter exactly when its bracket carries a chirality tag, and
    then the vertices created right after it, one per bracket hydrogen,
    have element "H", have it as parent and are listed among its
    children. *)
Theorem C4_vertex_count_and_stereo_hydrogens t iso :
  shape_ok t = true -> brackets_ok t = true ->
  exists g,
    Graph_new t iso = Ok g
    /\ List.length (vertices g) = atom_count t + stereo_count t
    /\ forall i v, nth_error (vertices g) i = Some v ->
         a_isStereoCenter (v_value v) = chiral (core v)
         /\ (chiral (core v) = true ->
             forall k, k < core_hcount (core v) ->
               exists h, nth_error (vertices g) (i + 1 + k) = Some h
                         /\ a_element (v_value h) = ElemStr "H"
                         /\ v_parentVertexId h = Some i
                         /\ In (i + 1 + k) (v_spanningTreeChildren v)).
Proof.
  intros Hs Hk.
  destruct (init_returns t Hs 0 None false (empty_graph iso) I) as (g & E & _).
  exists g. split; [exact E|]. split.
  - apply (init_counted t Hs Hk _ _ _ _ _ E).
  - assert (HI : Inv g) by (eapply Graph_new_inv, E).
    intros i v Hv.
    destruct (inv_vertex _ HI _ _ (nth_cores _ _ _ Hv)) as (_ & _ & _ & _ & H5 & H6).
    split; [exact H5|].
    intros Hc k Hlt.
    destruct (nth_cores_inv _ _ _ (H6 Hc k Hlt)) as (h & Hh & Hcore).
    exists h. split; [exact Hh|].
    apply (f_equal c_element) in Hcore as He.
    apply (f_equal c_parent) in Hcore as Hp.
    cbn [core hydrogen_core c_element c_parent] in He, Hp.
    repeat split; auto.
    destruct (inv_vertex _ HI _ _ (nth_cores _ _ _ Hh)) as (_ & Hpar & _).
    cbn [core c_parent] in Hpar. rewrite Hp in Hpar.
    destruct Hpar as (_ & pv & Hpv & Hin & _).
    rewrite Hv in Hpv. now injection Hpv as <-.
Qed.

Lemma C4_vertex_count_and_stereo_hydrogens_witness :
  shape_ok chiral_carbon = true /\ brackets_ok chiral_carbon = true
  /\ exists g,
       Graph_new chiral_carbon true = Ok g
       /\ List.length (vertices g)
          = atom_count chiral_carbon + stereo_count chiral_carbon
       /\ forall i v, nth_error (vertices g) i = Some v ->
            a_isStereoCenter (v_value v) = chiral (core v)
            /\ (chiral (core v) = true ->
                forall k, k < core_hcount (core v) ->
                  exists h, nth_error (vertices g) (i + 1 + k) = Some h
                            /\ a_element (v_value h) = ElemStr "H"
                            /\ v_parentVertexId h = Some i
                            /\ In (i + 1 + k) (v_spanningTreeChildren v)).
Proof.
  assert (Hs : shape_ok chiral_carbon = true) by (vm_compute; reflexivity).
  assert (Hk : brackets_ok chiral_carbon = true) by (vm_compute; reflexivity).
  split; [exact Hs|]. split; [exact Hk|].
  exact (C4_vertex_count_and_stereo_hydrogens chiral_carbon true Hs Hk).
Defined.

(** C5.  On every parse tree of the promised shape [new Graph] returns a
    graph: no path of [_init] throws.  [_init] is a structural recursion
    on the tree, so it terminates. *)
Theorem C5_graph_construction_returns t iso :
  shape_ok t = true -> exists g, Graph_new t iso = Ok g.
Proof.
  intros Hs.
  destruct (init_returns t Hs 0 None false (empty_graph iso) I) as (g & E & _).
  now exists g.
Qed.

Lemma C5_graph_construction_returns_witness :
  shape_ok chiral_carbon = true
  /\ exists g, Graph_new chiral_carbon false = Ok g.
Proof.
  assert (Hs : shape_ok chiral_carbon = true) by (vm_compute; reflexivity).
  split; [exact Hs|].
  exact (C5_graph_construction_returns chiral_carbon false Hs).
Defined.

(** C6.  In a built graph the vertex stored at index [i] has id [i];
    vertex 0 exists and has no parent; every other vertex has a parent
    with a smaller id, and that parent lists it in [spanningTreeChildren]
    and [neighbours]; following parents leads from every vertex to
    vertex 0 and never back to the vertex one started from. *)
Theorem C6_spanning_tree t iso g :
  Graph_new t iso = Ok g ->
  (forall i v, nth_error (vertices g) i = Some v -> v_id v = i)
  /\ (exists v0, nth_error (vertices g) 0 = Some v0
                 /\ v_parentVertexId v0 = None)
  /\ (forall i v, nth_error (vertices g) i = Some v -> 0 < i ->
        exists p pv, v_parentVertexId v = Some p /\ p < i
                     /\ nth_error (vertices g) p = Some pv
                     /\ In i (v_spanningTreeChildren pv)
                     /\ In i (v_neighbours pv))
  /\ (forall i, i < List.length (vertices g) ->
        exists k, ancestor (vertices g) k i = Some 0)
  /\ (forall i k, 0 < k -> ancestor (vertices g) k i <> Some i).
Proof.
  intros E. assert (HI := Graph_new_inv _ _ _ E).
  split; [|split; [|split; [|split]]].
  - intros i v Hv.
    now destruct (inv_vertex _ HI _ _ (nth_cores _ _ _ Hv)) as (Hid & _).
  - destruct t as [a b bb rb bs bc rc nx hn].
    destruct (Graph_new_root _ _ _ _ _ _ _ _ _ _ _ E) as (v0 & Hv0 & Hc0).
    exists v0. split; [exact Hv0|].
    now apply (f_equal c_parent) in Hc0.
  - intros i v Hv Hi.
    destruct (inv_vertex _ HI _ _ (nth_cores _ _ _ Hv)) as (_ & Hp & _).
    cbn [core c_parent] in Hp.
    destruct (v_parentVertexId v) as [p|]; [|lia].
    destruct Hp as (Hlt & pv & Hpv & H1 & H2).
    exists p, pv. auto.
  - apply ancestor_root, HI.
  - intros i k Hk H. apply (ancestor_below _ HI) in H; lia.
Qed.

Lemma C6_spanning_tree_witness :
  exists g, Graph_new chiral_carbon false = Ok g
  /\ ((forall i v, nth_error (vertices g) i = Some v -> v_id v = i)
      /\ (exists v0, nth_error (vertices g) 0 = Some v0
                     /\ v_parentVertexId v0 = None)
      /\ (forall i v, nth_error (vertices g) i = Some v -> 0 < i ->
            exists p pv, v_parentVertexId v = Some p /\ p < i
                         /\ nth_error (vertices g) p = Some pv
                         /\ In i (v_spanningTreeChildren pv)
                         /\ In i (v_neighbours pv))
      /\ (forall i, i < List.length (vertices g) ->
            exists k, ancestor (vertices g) k i = Some 0)
      /\ (forall i k, 0 < k -> ancestor (vertices g) k i <> Some i)).
Proof.
  exists chiral_carbon_graph. split; [exact Graph_new_chiral_carbon|].
  exact (C6_spanning_tree chiral_carbon false chiral_carbon_graph
           Graph_new_chiral_carbon).
Defined.

(** ** [RingConnection.isBridge] *)

Lemma isBridge_loop_spec (vs : list Vertex) (ids : list nat) :
  (forall v, In v ids -> v < List.length vs) ->
  exists b, RingConnection.isBridge_loop ids vs = Ok b
    /\ (b = true <->
        exists v vx, In v ids /\ nth_error vs v = Some vx
                     /\ 2 < List.length (Atom.rings (value vx))).
Proof.
  induction ids as [|v ids IH]; intros Hin; simpl.
  - exists false. split; auto. split; [discriminate|].
    intros (v & vx & [] & _).
  - destruct (nth_error vs v) as [vx|] eqn:Hv.
    + destruct (2 <? List.length (Atom.rings (value vx))) eqn:Hr.
      * exists true. split; auto. split; auto. intros _.
        exists v, vx. apply Nat.ltb_lt in Hr. auto.
      * destruct IH as (b & Hb & Hiff); [intros; apply Hin; now right|].
        exists b. split; auto. rewrite Hiff. split.
        -- intros (w & wx & Hw & Hwx & Hl). exists w, wx. auto.
        -- intros (w & wx & [<-|Hw] & Hwx & Hl).
           ++ rewrite Hv in Hwx. injection Hwx as <-.
              apply Nat.ltb_ge in Hr. lia.
           ++ exists w, wx. auto.
    + apply nth_error_None in Hv. specialize (Hin v (or_introl eq_refl)). lia.
Qed.

(** The shared-vertex list is a set: no id occurs twice, so its length is
    the size of the [Set]. *)
Lemma set_add_NoDup x s : NoDup s -> NoDup (RingConnection.set_add x s).
Proof.
  intros Hs. unfold RingConnection.set_add.
  destruct (existsb (Nat.eqb x) s) eqn:E; [exact Hs|].
  apply NoDup_app; [exact Hs | repeat constructor; intros [] |].
  intros y Hy [<-|[]].
  assert (C : existsb (Nat.eqb x) s = true)
    by (apply existsb_exists; exists x; split; [exact Hy | apply Nat.eqb_refl]).
  congruence.
Qed.

Lemma RingConnection_new_NoDup r1 r2 :
  NoDup (RingConnection.vertices (RingConnection.new r1 r2)).
Proof.
  unfold RingConnection.new.
  set (inner := fun (c : nat) (rc : RingConnection.t) (d : nat) =>
                  if c =? d then RingConnection.addVertex c rc else rc).
  assert (Hin : forall c l rc, NoDup (RingConnection.vertices rc) ->
            NoDup (RingConnection.vertices (fold_left (inner c) l rc))).
  { intros c l. induction l as [|d l IH]; intros rc Hrc; simpl; auto.
    apply IH. unfold inner. destruct (c =? d); auto.
    now apply set_add_NoDup. }
  assert (Hout : forall l rc, NoDup (RingConnection.vertices rc) ->
            NoDup (RingConnection.vertices
                     (fold_left (fun rc c => fold_left (inner c) (members r2) rc)
                                l rc))).
  { induction l as [|c l IH]; intros rc Hrc; simpl; auto. }
  apply Hout. constructor.
Qed.

(** C1.  Given a vertex array that holds every shared vertex id,
    [isBridge] returns, and it returns [true] exactly when the shared set
    has more than two members or some shared vertex has an atom with more
    than two rings; otherwise it returns [false]. *)
Theorem C1_isBridge_iff (rc : RingConnection.t) (vs : list Vertex) :
  (forall v, In v (RingConnection.vertices rc) -> v < List.length vs) ->
  exists b, RingConnection.isBridge rc vs = Ok b
    /\ (b = true <->
        2 < List.length (RingConnection.vertices rc)
        \/ exists v vx, In v (RingConnection.vertices rc)
                        /\ nth_error vs v = Some vx
                        /\ 2 < List.length (Atom.rings (value vx))).
Proof.
  intros Hin. unfold RingConnection.isBridge.
  destruct (2 <? List.length (RingConnection.vertices rc)) eqn:Hs.
  - exists true. apply Nat.ltb_lt in Hs. split; auto. split; auto.
  - destruct (isBridge_loop_spec vs _ Hin) as (b & Hb & Hiff).
    exists b. split; auto. rewrite Hiff. apply Nat.ltb_ge in Hs.
    split; [auto|]. intros [H|H]; [lia|exact H].
Qed.

Lemma C1_isBridge_iff_witness :
  (forall v, In v (RingConnection.vertices decalin_connection) ->
             v < List.length decalin_vertices)
  /\ exists b, RingConnection.isBridge decalin_connection decalin_vertices = Ok b
       /\ (b = true <->
           2 < List.length (RingConnection.vertices decalin_connection)
           \/ exists v vx, In v (RingConnection.vertices decalin_connection)
                           /\ nth_error decalin_vertices v = Some vx
                           /\ 2 < List.length (Atom.rings (value vx))).
Proof.
  assert (H : forall v, In v (RingConnection.vertices decalin_connection) ->
                        v < List.length decalin_vertices).
  { simpl. intros v [<-|[<-|[]]]; lia. }
  split; [exact H|].
  apply (C1_isBridge_iff decalin_connection decalin_vertices H).
Defined.

(** ** The [Atom] constructor *)

Lemma upper_ascii_changes c : upper_ascii c <> c <-> is_lower_ascii c = true.
Proof.
  destruct c as [[] [] [] [] [] [] [] []]; vm_compute;
    split; congruence.
Qed.

(** C7 (as stated, refuted).  Aromatic selenium is written "se", in
    lower-case notation, and the constructor does not flag it. *)
Lemma C7_counterexample_two_letter_symbol :
  ~ (forall s bondType,
       Atom.isPartOfAromaticRing (Atom.new s bondType) = true
       <-> lower_case_notation s = true).
Proof.
  intros H. destruct (H "se" None) as [_ H2].
  specialize (H2 eq_refl). discriminate.
Qed.

(** C7 (amended).  For a string of 7-bit characters the constructor
    stores the upper-cased symbol when the string has one character and
    the string itself otherwise; it sets [isPartOfAromaticRing] exactly
    when the supplied string differs from the stored one, which is
    exactly when the string is one lower-case letter a-z.  One lower-case
    letter is stored as its capital, any other single character as it
    is; a string that does not have exactly one character, such as a
    lower-case symbol of two letters, is stored as written and not
    flagged. *)
Theorem C7_aromatic_flag (s : string) (bondType : option string) :
  seven_bit s = true ->
  Atom.element (Atom.new s bondType)
  = (if (String.length s =? 1)%nat then toUpperCase s else s)
  /\ (Atom.isPartOfAromaticRing (Atom.new s bondType) = true
      <-> s <> Atom.element (Atom.new s bondType))
  /\ (Atom.isPartOfAromaticRing (Atom.new s bondType) = true
      <-> exists c, s = String c EmptyString /\ is_lower_ascii c = true)
  /\ (forall c, s = String c EmptyString ->
        Atom.element (Atom.new s bondType)
        = String (if is_lower_ascii c then ascii_of_nat (nat_of_ascii c - 32)
                  else c) EmptyString)
  /\ (String.length s <> 1 ->
      Atom.element (Atom.new s bondType) = s
      /\ Atom.isPartOfAromaticRing (Atom.new s bondType) = false).
Proof.
  intros _.
  split; [reflexivity|]. split; [|split; [|split]].
  - cbn [Atom.new Atom.isPartOfAromaticRing Atom.element].
    rewrite negb_true_iff. split.
    + intros H E. rewrite <- E, String.eqb_refl in H. discriminate.
    + intros H. apply String.eqb_neq. exact H.
  - cbn [Atom.new Atom.isPartOfAromaticRing]. unfold Atom.stored_element.
    rewrite negb_true_iff, String.eqb_neq.
    destruct s as [|c [|c' s']]; cbn [String.length Nat.eqb toUpperCase].
    + split; [congruence|]. intros (c & H & _). discriminate.
    + split.
      * intros H. exists c. split; auto. apply upper_ascii_changes.
        intros E. apply H. now rewrite E.
      * intros (c0 & [= <-] & Hl). apply upper_ascii_changes in Hl.
        intros E. apply Hl. now injection E.
    + split; [congruence|]. intros (c0 & H & _). discriminate.
  - intros c ->. cbn [Atom.new Atom.element]. unfold Atom.stored_element.
    cbn [String.length Nat.eqb toUpperCase]. reflexivity.
  - intros Hl. cbn [Atom.new Atom.element Atom.isPartOfAromaticRing].
    unfold Atom.stored_element.
    apply Nat.eqb_neq in Hl. rewrite Hl, String.eqb_refl. auto.
Qed.

Lemma C7_aromatic_flag_witness :
  seven_bit "c" = true
  /\ Atom.element (Atom.new "c" None)
     = (if (String.length "c" =? 1)%nat then toUpperCase "c" else "c")
  /\ (Atom.isPartOfAromaticRing (Atom.new "c" None) = true
      <-> "c" <> Atom.element (Atom.new "c" None))
  /\ (Atom.isPartOfAromaticRing (Atom.new "c" None) = true
      <-> exists c, "c" = String c EmptyString /\ is_lower_ascii c = true)
  /\ (forall c, "c" = String c EmptyString ->
        Atom.element (Atom.new "c" None)
        = String (if is_lower_ascii c then ascii_of_nat (nat_of_ascii c - 32)
                  else c) EmptyString)
  /\ (String.length "c" <> 1 ->
      Atom.element (Atom.new "c" None) = "c"
      /\ Atom.isPartOfAromaticRing (Atom.new "c" None) = false).
Proof.
  split; [reflexivity|].
  apply (C7_aromatic_flag "c" None). reflexivity.
Defined.

(** ** [ThemeManager.getColor] *)



(** ** [MathHelper.parityOfPermutation] *)

(** [%] by 2 flips from one number to the next. *)
Lemma mod2_succ c : S c mod 2 = 1 - c mod 2.
Proof.
  assert (H := Nat.mod_upper_bound c 2 ltac:(lia)).
  assert (H' := Nat.mod_upper_bound (S c) 2 ltac:(lia)).
  assert (E := Nat.div_mod_eq c 2). assert (E' := Nat.div_mod_eq (S c) 2).
  lia.
Qed.

Module Parity.

Import mathcomp.boot.boot mathcomp.finite_group.fingroup
       mathcomp.finite_group.perm.
Import CycleInvariants.

(** [cycleLength % 2] is the parity bit. *)
Lemma mod2_odd c : Nat.modulo c 2 = odd c.
Proof. elim: c => [//|c IH]; rw mod2_succ IH /=; by case: (odd c). Qed.

Lemma nth_error_nth (l : seq nat) i : i < size l -> nth_error l i = Some (nth 0 l i).
Proof. elim: l i => [|x l IH] [|i] //=; exact: IH. Qed.

(** One iteration of the outer loop. *)
Lemma cycle_loopS k i arr visited c :
  MathHelper.cycle_loop k.+1 i arr visited c =
  match nth_error visited i with
  | None => None
  | Some b =>
    if Nat.eqb b 1 then MathHelper.cycle_loop k i.+1 arr visited c
    else
      match MathHelper.traverseCycle (List.length arr).+1 arr visited i 0 with
      | None => None
      | Some (visited', cycleLength) =>
        MathHelper.cycle_loop k i.+1 arr visited'
          (c + (1 - Nat.modulo cycleLength 2))
      end
  end.
Proof. by []. Qed.

Section Cycles.

Variables (n : nat) (s : 'S_n) (arr : seq nat).
Hypothesis arrE : forall i : 'I_n, nth_error arr i = Some (nat_of_ord (s i)).

Lemma marks_ext visited (P Q : pred 'I_n) :
  P =1 Q -> marks visited P -> marks visited Q.
Proof.
move=> PQ H y; case: (H y) => b [Hb Hm]; exists b; split=> //; by rw -PQ.
Qed.

(** [visited[x] = 1] adds [x] to the marked set. *)
Lemma marks_update visited (P : pred 'I_n) (x : 'I_n) :
  marks visited P ->
  marks (update_nth x (fun=> 1) visited) (fun y => (y == x) || P y).
Proof.
move=> H y; case: (H x) => bx [Hbx _].
case: (y =P x) => [->|ne] /=.
  by exists 1; split=> //; rw (nth_error_update_nth_eq _ _ _ _ Hbx).
case: (H y) => b [Hb Hm]; exists b; split=> //.
rw nth_error_update_nth_neq // => E; apply: ne; exact/val_inj.
Qed.

(** A cycle that starts outside a union of cycles stays outside. *)
Lemma orbit_outside (V : {set 'I_n}) x j :
  closed s V -> x \notin V -> iter j s x \notin V.
Proof.
move=> clV xV; apply/negP => /clV.
rw -permX porbit_perm => /subsetP /(_ x (porbit_id s x)).
by rw (negbTE xV).
Qed.

(** [traverseCycle] from an unvisited [x], after [j] steps with [d] to go:
    it marks exactly the cycle of [x] and returns its length. *)
Lemma traverse_ok (V : {set 'I_n}) x :
  closed s V -> x \notin V ->
  forall d j visited fuel,
    d + j = #|porbit s x| -> d < fuel ->
    marks visited (fun y => (y \in V) || (y \in traject s x j)) ->
    exists visited',
      MathHelper.traverseCycle fuel arr visited (iter j s x) j
      = Some (visited', #|porbit s x|)
      /\ marks visited' (fun y => (y \in V) || (y \in porbit s x)).
Proof.
move=> clV xV; elim=> [|d IH] j visited [|fuel] // Hj Hf Hm.
- rw add0n in Hj; subst j.
  exists visited; split; last first.
    by apply: marks_ext Hm => y; rw -porbit_traject.
  rw iter_porbit /=.
  case: (Hm x) => b [-> ]; rw -porbit_traject porbit_id orbT => ->.
  by [].
- have Hy := @orbit_outside V x j clV xV.
  have Hu : iter j s x \notin traject s x j.
    have := uniq_traject_porbit s x.
    rw -Hj addnC trajectD cat_uniq => /and3P[_ /hasPn H _].
    by apply: H; rw /= inE eqxx.
  case: (Hm (iter j s x)) => b [Hb]; rw (negbTE Hy) (negbTE Hu) /= => Hb1.
  rw /= Hb Hb1 arrE.
  have -> : nat_of_ord (s (iter j s x)) = nat_of_ord (iter j.+1 s x) by [].
  apply: IH; first by rw -Hj addSnnS.
    by [].
  apply: marks_ext (@marks_update _ _ (iter j s x) Hm) => y.
  by rw trajectSr mem_rcons inE orbCA.
Qed.

Lemma porbits_setT : porbit s @: [set: 'I_n] = porbits s.
Proof. by apply/setP=> O; apply/imsetP/imsetP => -[x _ ->]; exists x. Qed.

(** The outer loop: the visited set [V] is a union of cycles containing
    every index below [i], and the counter has the parity of
    [#|V|] plus the number of cycles in [V]. *)
Lemma loop_ok k : forall i visited c (V : {set 'I_n}),
  k + i = n -> size arr = n ->
  marks visited (fun y => y \in V) -> closed s V ->
  (forall y : 'I_n, y < i -> y \in V) ->
  odd c = odd #|V| (+) odd #|porbit s @: V| ->
  exists c', MathHelper.cycle_loop k i arr visited c = Some c'
             /\ odd c' = odd_perm s.
Proof.
elim: k => [|k IH] i visited c V Hk Hsz Hm clV Hlt Hc.
- exists c; split=> //.
  have VT : V = [set: 'I_n].
    apply/setP=> y; rw inE; apply: Hlt.
    by move: Hk; rw add0n => ->.
  by rw Hc VT cardsT porbits_setT.
- have Hi : i < n by rw -Hk addSn ltnS leq_addl.
  pose x := Ordinal Hi.
  have Hnext (W : {set 'I_n}) : V \subset W -> x \in W ->
      forall y : 'I_n, y < i.+1 -> y \in W.
    move=> /subsetP VW xW y; rw ltnS leq_eqVlt => /orP[/eqP Hy|/Hlt /VW //].
    by have -> : y = x by apply: val_inj.
  case: (Hm x) => b [Hb Hb1].
  have {}Hb1 : Nat.eqb b 1 = (x \in V) by [].
  rw cycle_loopS [nth_error visited i]Hb Hb1.
  case Hx: (x \in V).
    apply: (IH i.+1 visited c V) => //; first by rw -Hk addSnnS.
    by apply: Hnext.
  have xV : x \notin V by rw Hx.
  have HL : #|porbit s x| < (List.length arr).+1.
    rw ltnS.
    have -> : List.length arr = n by rw -Hsz.
    by rw -[X in _ <= X]card_ord max_card.
  have Hm0 : marks visited (fun y => (y \in V) || (y \in traject s x 0)).
    by apply: marks_ext Hm => y; rw /= orbF.
  case: (@traverse_ok V x clV xV _ 0 visited _ (addn0 _) HL Hm0) => visited' [-> Hm'].
  apply: (IH i.+1 visited' _ (V :|: porbit s x)) => //.
  + by rw -Hk addSnnS.
  + by apply: marks_ext Hm' => y; rw inE.
  + move=> y; rw inE => /orP[/clV H|H].
      by apply: subset_trans H (subsetUl _ _).
    have -> : porbit s y = porbit s x by apply/eqP; rw eq_porbit_mem.
    exact: subsetUr.
  + by apply: Hnext; rw ?subsetUl // inE porbit_id orbT.
  + have Hdisj : V :&: porbit s x = set0.
      apply/setP=> y; rw !inE; apply/negP => /andP[/clV /subsetP H Hy].
      by move: xV; rw (H x) // porbit_sym.
    have Him : porbit s @: porbit s x = [set porbit s x].
      apply/setP=> O; rw inE; apply/imsetP/eqP => [[y Hy ->]|->].
        by apply/eqP; rw eq_porbit_mem.
      by exists x => //; exact: porbit_id.
    have Hnot : porbit s x \notin porbit s @: V.
      apply/negP => /imsetP[y /clV /subsetP H E].
      by move: xV; rw (H x) // -E porbit_id.
    rw cardsU Hdisj cards0 subn0 imsetU Him setUC cardsU1 Hnot.
    rw mod2_odd !oddD Hc /=.
    by case: (odd #|V|); case: (odd #|porbit s x|); case: (odd #|_|).
Qed.

End Cycles.

(** The array read as a permutation of the ordinals, and the result. *)
Lemma parity_of_value_table (arr : seq nat) :
  perm_eq arr (iota 0 (size arr)) ->
  exists s : 'S_(size arr),
    (forall i : 'I_(size arr), nth 0 arr i = s i)
    /\ MathHelper.parityOfPermutation arr
       = Some (if odd_perm s then (-1)%Z else 1%Z).
Proof.
move=> Hp.
have Hlt (i : 'I_(size arr)) : nth 0 arr i < size arr.
  have := mem_nth 0 (ltn_ord i).
  by rw (perm_mem Hp) mem_iota add0n.
have Hu : uniq arr by rw (perm_uniq Hp) iota_uniq.
pose f (i : 'I_(size arr)) : 'I_(size arr) := Ordinal (Hlt i).
have finj : injective f.
  move=> i j /(congr1 val) /= /eqP.
  by rw nth_uniq // => /eqP /val_inj.
exists (perm finj); split; first by move=> i; rw permE.
have arrE (i : 'I_(size arr)) :
    nth_error arr i = Some (nat_of_ord (perm finj i)).
  by rw permE nth_error_nth.
have Hm0 : @marks (size arr) (repeat 0 (size arr))
             (fun y => y \in (set0 : {set 'I_(size arr)})).
  move=> y; exists 0; split; last by rw inE.
  by apply: nth_error_repeat; apply/ltP.
have cl0 : @closed _ (perm finj) set0 by move=> y; rw inE.
have Hc0 : odd 0 = odd #|(set0 : {set 'I_(size arr)})|
                   (+) odd #|porbit (perm finj) @: (set0 : {set 'I_(size arr)})|.
  by rw imset0 !cards0.
have Hall (y : 'I_(size arr)) : y < 0 -> y \in (set0 : {set 'I_(size arr)}) by [].
case: (@loop_ok _ (perm finj) arr arrE (size arr) 0 _ 0 set0
         (addn0 _) (erefl _) Hm0 cl0 Hall Hc0) => c [Hl Hodd].
rw /MathHelper.parityOfPermutation.
have -> : List.length arr = size arr by [].
rw Hl -Hodd mod2_odd.
by case: (odd c).
Qed.

(** C9.  An array that is a permutation of [0..n-1] is the value table of
    a permutation [s] of the ordinals below [n], and
    [parityOfPermutation] returns the sign of [s]: -1 when [s] is odd and
    1 when it is even.  [odd_perm] is the parity of the symmetric group of
    MathComp; in particular, for every way of writing [s] as a product of
    transpositions, the result is -1 exactly when their number is odd. *)
Theorem C9_parityOfPermutation_sign (arr : seq nat) :
  perm_eq arr (iota 0 (size arr)) ->
  exists s : 'S_(size arr),
    (forall i : 'I_(size arr), nth 0 arr i = s i)
    /\ MathHelper.parityOfPermutation arr
       = Some (if odd_perm s then (-1)%Z else 1%Z)
    /\ (forall ts : seq ('I_(size arr) * 'I_(size arr)),
          all dpair ts -> s = (\prod_(t <- ts) tperm t.1 t.2)%g ->
          MathHelper.parityOfPermutation arr
          = Some (if odd (size ts) then (-1)%Z else 1%Z)).
Proof.
move=> /parity_of_value_table[s [Hs Hr]]; exists s; split=> //; split=> //.
by move=> ts Hts Es; rw Hr Es odd_perm_prod.
Qed.

Lemma C9_parityOfPermutation_sign_witness :
  perm_eq [:: 1; 0; 2] (iota 0 (size [:: 1; 0; 2]))
  /\ exists s : 'S_(size [:: 1; 0; 2]),
       (forall i : 'I_(size [:: 1; 0; 2]), nth 0 [:: 1; 0; 2] i = s i)
       /\ MathHelper.parityOfPermutation [:: 1; 0; 2]
          = Some (if odd_perm s then (-1)%Z else 1%Z)
       /\ (forall ts : seq ('I_(size [:: 1; 0; 2]) * 'I_(size [:: 1; 0; 2])),
             all dpair ts -> s = (\prod_(t <- ts) tperm t.1 t.2)%g ->
             MathHelper.parityOfPermutation [:: 1; 0; 2]
             = Some (if odd (size ts) then (-1)%Z else 1%Z)).
Proof.
have H : perm_eq [:: 1; 0; 2] (iota 0 (size [:: 1; 0; 2])) by vm_compute.
split; [exact: H | exact: (C9_parityOfPermutation_sign [:: 1; 0; 2] H)].
Defined.

(** One transposition is odd, a three-cycle is even. *)
Example parity_of_swap :
  MathHelper.parityOfPermutation [:: 1; 0; 2] = Some (-1)%Z.
Proof. by vm_compute. Qed.

Example parity_of_three_cycle :
  MathHelper.parityOfPermutation [:: 1; 2; 0] = Some 1%Z.
Proof. by vm_compute. Qed.

End Parity.

(** * Further properties of the modelled code *)

(** ** [RingConnection]: constructor and static lookups *)

Lemma set_add_In x s v :
  In v (RingConnection.set_add x s) <-> v = x \/ In v s.
Proof.
  unfold RingConnection.set_add.
  destruct (existsb (Nat.eqb x) s) eqn:E.
  - split; [auto|]. intros [->|H]; auto.
    apply existsb_exists in E as (y & Hy & Hxy).
    apply Nat.eqb_eq in Hxy. now subst.
  - rewrite in_app_iff. simpl. intuition auto.
Qed.

(** X1.  The constructor collects exactly the vertex ids that are members
    of both rings, each once, and records the two ring ids. *)
Theorem RingConnection_new_shared (r1 r2 : Ring) :
  NoDup (RingConnection.vertices (RingConnection.new r1 r2))
  /\ (forall v, In v (RingConnection.vertices (RingConnection.new r1 r2))
                <-> In v (members r1) /\ In v (members r2))
  /\ RingConnection.firstRingId (RingConnection.new r1 r2) = ring_id r1
  /\ RingConnection.secondRingId (RingConnection.new r1 r2) = ring_id r2.
Proof.
  split; [apply RingConnection_new_NoDup|].
  unfold RingConnection.new.
  set (inner := fun (c : nat) (rc : RingConnection.t) (d : nat) =>
                  if c =? d then RingConnection.addVertex c rc else rc).
  assert (Hin : forall c l rc,
            let rc' := fold_left (inner c) l rc in
            (forall v, In v (RingConnection.vertices rc')
                       <-> In v (RingConnection.vertices rc) \/ (v = c /\ In c l))
            /\ RingConnection.firstRingId rc' = RingConnection.firstRingId rc
            /\ RingConnection.secondRingId rc' = RingConnection.secondRingId rc).
  { intros c l. induction l as [|d l IH]; intros rc; simpl.
    - split; [|auto]. intros v. split; [auto|]. intros [H|[_ []]]; auto.
    - destruct (IH (inner c rc d)) as (Hv & Hf & Hs). unfold inner in *.
      destruct (Nat.eqb_spec c d) as [->|Hne]; simpl in *.
      + split; [|auto]. intros v. rewrite Hv, set_add_In. tauto.
      + split; [|auto]. intros v. rewrite Hv. split; [tauto|].
        intros [H|[Hvc [Hd|Hl]]]; auto. congruence. }
  assert (Hout : forall l rc,
            let rc' := fold_left
                         (fun rc c => fold_left (inner c) (members r2) rc) l rc in
            (forall v, In v (RingConnection.vertices rc')
                       <-> In v (RingConnection.vertices rc)
                           \/ (In v l /\ In v (members r2)))
            /\ RingConnection.firstRingId rc' = RingConnection.firstRingId rc
            /\ RingConnection.secondRingId rc' = RingConnection.secondRingId rc).
  { induction l as [|c l IH]; intros rc; simpl.
    - split; [|auto]. intros v. tauto.
    - destruct (IH (fold_left (inner c) (members r2) rc)) as (Hv & Hf & Hs).
      destruct (Hin c (members r2) rc) as (Hv' & Hf' & Hs').
      split; [|split; congruence].
      intros v. rewrite Hv, Hv'. split.
      + intros [[H|[-> H]]|[H1 H2]]; auto.
      + intros [H|[[<-|H1] H2]]; auto. }
  destruct (Hout (members r1)
              (RingConnection.mk None (ring_id r1) (ring_id r2) []))
    as (Hv & Hf & Hs).
  split; [|split; assumption].
  intros v. destruct (Hv v) as [H1 H2]. simpl in H1, H2. split.
  - intros H. apply H1 in H. tauto.
  - intros H. apply H2. tauto.
Qed.

(** X2.  [updateOther(ringId, otherRingId)] on a connection that contains
    [otherRingId] keeps that ring, installs [ringId] as its partner and
    leaves the shared vertices alone. *)
Theorem updateOther_keeps_other (ringId otherRingId : nat)
    (rc : RingConnection.t) :
  RingConnection.containsRing otherRingId rc = true ->
  RingConnection.containsRing otherRingId
    (RingConnection.updateOther ringId otherRingId rc) = true
  /\ RingConnection.containsRing ringId
       (RingConnection.updateOther ringId otherRingId rc) = true
  /\ RingConnection.vertices (RingConnection.updateOther ringId otherRingId rc)
     = RingConnection.vertices rc.
Proof.
  unfold RingConnection.containsRing, RingConnection.updateOther.
  destruct (RingConnection.is_ring (RingConnection.firstRingId rc) otherRingId)
    eqn:E; simpl; intros H.
  - rewrite E, Nat.eqb_refl, orb_true_r. auto.
  - rewrite H, Nat.eqb_refl, orb_true_r. auto.
Qed.

Lemma updateOther_keeps_other_witness :
  RingConnection.containsRing 1 decalin_connection = true
  /\ RingConnection.containsRing 1
       (RingConnection.updateOther 7 1 decalin_connection) = true
  /\ RingConnection.containsRing 7
       (RingConnection.updateOther 7 1 decalin_connection) = true
  /\ RingConnection.vertices (RingConnection.updateOther 7 1 decalin_connection)
     = RingConnection.vertices decalin_connection.
Proof.
  assert (H : RingConnection.containsRing 1 decalin_connection = true)
    by reflexivity.
  split; [exact H|].
  exact (updateOther_keeps_other 7 1 decalin_connection H).
Defined.

Lemma joins_sym rc a b : RingConnection.joins rc a b = RingConnection.joins rc b a.
Proof. unfold RingConnection.joins. apply orb_comm. Qed.

(** X3.  The two lookups by ring pair do not depend on the order in which
    the two ring ids are given. *)
Theorem ring_pair_lookups_symmetric (rcs : list RingConnection.t)
    (vs : list Vertex) (a b : nat) :
  RingConnection.static_isBridge rcs vs a b
  = RingConnection.static_isBridge rcs vs b a
  /\ RingConnection.getVertices rcs a b = RingConnection.getVertices rcs b a.
Proof.
  induction rcs as [|rc rcs [IH1 IH2]]; simpl; [auto|].
  rewrite (joins_sym rc b a). destruct (RingConnection.joins rc a b); auto.
Qed.

Lemma isBridge_loop_true ids vs :
  RingConnection.isBridge_loop ids vs = Ok true ->
  exists v vx, In v ids /\ nth_error vs v = Some vx
               /\ 2 < List.length (Atom.rings (value vx)).
Proof.
  induction ids as [|v ids IH]; simpl; [discriminate|].
  destruct (nth_error vs v) as [vx|] eqn:Hv; [|discriminate].
  destruct (2 <? List.length (Atom.rings (value vx))) eqn:Hr.
  - intros _. exists v, vx. apply Nat.ltb_lt in Hr. auto.
  - intros H. destruct (IH H) as (w & wx & Hw & Hwx & Hl).
    exists w, wx. auto.
Qed.

(** X4.  A positive answer of the static [isBridge] is backed by the
    vertices that [getVertices] returns for the same pair: they are more
    than two, or one of them lies in more than two rings.  Without a
    connection joining the two rings the answers are [false] and the
    empty array. *)
Theorem static_isBridge_getVertices (rcs : list RingConnection.t)
    (vs : list Vertex) (a b : nat) :
  (RingConnection.static_isBridge rcs vs a b = Ok true ->
   2 < List.length (RingConnection.getVertices rcs a b)
   \/ exists v vx, In v (RingConnection.getVertices rcs a b)
                   /\ nth_error vs v = Some vx
                   /\ 2 < List.length (Atom.rings (value vx)))
  /\ ((forall rc, In rc rcs -> RingConnection.joins rc a b = false) ->
      RingConnection.static_isBridge rcs vs a b = Ok false
      /\ RingConnection.getVertices rcs a b = []).
Proof.
  induction rcs as [|rc rcs [IH1 IH2]]; simpl.
  - split; [discriminate|auto].
  - split.
    + destruct (RingConnection.joins rc a b); [|exact IH1].
      unfold RingConnection.isBridge.
      destruct (2 <? List.length (RingConnection.vertices rc)) eqn:Hs.
      * intros _. left. now apply Nat.ltb_lt.
      * intros H. right. now apply isBridge_loop_true.
    + intros H. rewrite (H rc (or_introl eq_refl)). apply IH2.
      intros rc' Hin. apply H. now right.
Qed.

Lemma static_isBridge_getVertices_witness :
  RingConnection.static_isBridge [bridged_connection] decalin_vertices 0 1
  = Ok true
  /\ (2 < List.length (RingConnection.getVertices [bridged_connection] 0 1)
      \/ exists v vx, In v (RingConnection.getVertices [bridged_connection] 0 1)
                      /\ nth_error decalin_vertices v = Some vx
                      /\ 2 < List.length (Atom.rings (value vx)))
  /\ (forall rc, In rc [bridged_connection] ->
                 RingConnection.joins rc 0 2 = false)
  /\ RingConnection.static_isBridge [bridged_connection] decalin_vertices 0 2
     = Ok false
  /\ RingConnection.getVertices [bridged_connection] 0 2 = [].
Proof.
  assert (H1 : RingConnection.static_isBridge [bridged_connection]
                 decalin_vertices 0 1 = Ok true) by reflexivity.
  assert (H2 : forall rc, In rc [bridged_connection] ->
                          RingConnection.joins rc 0 2 = false)
    by (intros rc [<-|[]]; reflexivity).
  split; [exact H1|].
  split; [exact (proj1 (static_isBridge_getVertices [bridged_connection]
                          decalin_vertices 0 1) H1)|].
  split; [exact H2|].
  exact (proj2 (static_isBridge_getVertices [bridged_connection]
                  decalin_vertices 0 2) H2).
Defined.

(** What one connection contributes to [getNeighbours]. *)
Lemma getNeighbours_cons rc rcs a r :
  In r (RingConnection.getNeighbours (rc :: rcs) a)
  <-> (RingConnection.is_ring (RingConnection.firstRingId rc) a = true
       /\ r = RingConnection.secondRingId rc)
      \/ (RingConnection.is_ring (RingConnection.firstRingId rc) a = false
          /\ RingConnection.is_ring (RingConnection.secondRingId rc) a = true
          /\ r = RingConnection.firstRingId rc)
      \/ In r (RingConnection.getNeighbours rcs a).
Proof.
  simpl.
  destruct (RingConnection.is_ring (RingConnection.firstRingId rc) a);
    [|destruct (RingConnection.is_ring (RingConnection.secondRingId rc) a)];
    simpl; intuition congruence.
Qed.

Lemma is_ring_true o r : RingConnection.is_ring o r = true <-> o = Some r.
Proof.
  destruct o as [x|]; simpl; [|split; discriminate].
  rewrite Nat.eqb_eq. split; congruence.
Qed.

Lemma is_ring_false o r : RingConnection.is_ring o r = false <-> o <> Some r.
Proof.
  rewrite <- is_ring_true. destruct (RingConnection.is_ring o r);
    split; congruence.
Qed.

(** X5.  Ring adjacency read through [getNeighbours] is symmetric: ring
    [b] is listed for ring [a] exactly when [a] is listed for [b]. *)
Theorem getNeighbours_symmetric (rcs : list RingConnection.t) (a b : nat) :
  In (Some b) (RingConnection.getNeighbours rcs a)
  <-> In (Some a) (RingConnection.getNeighbours rcs b).
Proof.
  induction rcs as [|rc rcs IH]; [simpl; tauto|].
  rewrite !getNeighbours_cons, IH, !is_ring_true, !is_ring_false.
  destruct (Nat.eq_dec a b) as [->|Hab]; [tauto|].
  assert (Some a <> Some b) by congruence.
  assert (Some b <> Some a) by congruence.
  split; intros [[H1 H2]|[(H1 & H2 & H3)|H1]]; auto;
    first [ left; split; congruence
          | right; left; split; [intros E; congruence | split; congruence] ].
Qed.

(** ** The [Atom] class: rings, anchors, ring bonds, pseudo elements *)

(** X6.  [restoreRings] brings back the ring list that was current at
    the last [backupRings], whatever happened to [rings] in between. *)
Theorem backupRings_restoreRings (a a' : Atom.t) :
  Atom.originalRings a' = Atom.originalRings (Atom.backupRings a) ->
  Atom.rings (Atom.restoreRings a') = Atom.rings a
  /\ Atom.originalRings (Atom.restoreRings a') = Atom.rings a.
Proof. intros H. simpl. rewrite H. auto. Qed.

Lemma backupRings_restoreRings_witness :
  Atom.originalRings
    (Atom.set_rings [7; 8] (Atom.backupRings (value (ring_atom [0; 1]))))
  = Atom.originalRings (Atom.backupRings (value (ring_atom [0; 1])))
  /\ Atom.rings
       (Atom.restoreRings
          (Atom.set_rings [7; 8] (Atom.backupRings (value (ring_atom [0; 1])))))
     = Atom.rings (value (ring_atom [0; 1]))
  /\ Atom.originalRings
       (Atom.restoreRings
          (Atom.set_rings [7; 8] (Atom.backupRings (value (ring_atom [0; 1])))))
     = Atom.rings (value (ring_atom [0; 1])).
Proof.
  assert (H : Atom.originalRings
                (Atom.set_rings [7; 8]
                   (Atom.backupRings (value (ring_atom [0; 1]))))
              = Atom.originalRings (Atom.backupRings (value (ring_atom [0; 1]))))
    by reflexivity.
  split; [exact H|].
  exact (backupRings_restoreRings (value (ring_atom [0; 1])) _ H).
Defined.

Lemma addAnchoredRing_In x a r :
  In r (Atom.anchoredRings (Atom.addAnchoredRing x a))
  <-> r = x \/ In r (Atom.anchoredRings a).
Proof.
  unfold Atom.addAnchoredRing.
  destruct (existsb (Nat.eqb x) (Atom.anchoredRings a)) eqn:E.
  - split; [auto|]. intros [->|H]; auto.
    apply existsb_exists in E as (y & Hy & Hxy).
    apply Nat.eqb_eq in Hxy. now subst.
  - simpl. rewrite in_app_iff. simpl. intuition auto.
Qed.

Lemma addAnchoredRing_NoDup x a :
  NoDup (Atom.anchoredRings a) ->
  NoDup (Atom.anchoredRings (Atom.addAnchoredRing x a)).
Proof.
  intros Hs. unfold Atom.addAnchoredRing.
  destruct (existsb (Nat.eqb x) (Atom.anchoredRings a)) eqn:E; [exact Hs|].
  simpl. apply NoDup_app; [exact Hs | repeat constructor; intros [] |].
  intros y Hy [<-|[]].
  assert (C : existsb (Nat.eqb x) (Atom.anchoredRings a) = true)
    by (apply existsb_exists; exists x; split; [exact Hy | apply Nat.eqb_refl]).
  congruence.
Qed.

(** X7.  However often and in whatever order rings are anchored to a
    freshly constructed atom, [anchoredRings] holds each anchored ring id
    once and nothing else; anchoring a ring again changes nothing. *)
Theorem anchoredRings_is_a_set (s : string) (bondType : option string)
    (ringIds : list nat) (r : nat) :
  NoDup (Atom.anchoredRings (anchor_all ringIds (Atom.new s bondType)))
  /\ (In r (Atom.anchoredRings (anchor_all ringIds (Atom.new s bondType)))
      <-> In r ringIds)
  /\ Atom.addAnchoredRing r
       (Atom.addAnchoredRing r (anchor_all ringIds (Atom.new s bondType)))
     = Atom.addAnchoredRing r (anchor_all ringIds (Atom.new s bondType)).
Proof.
  assert (H : forall l a,
            (NoDup (Atom.anchoredRings a) ->
             NoDup (Atom.anchoredRings (anchor_all l a)))
            /\ (In r (Atom.anchoredRings (anchor_all l a))
                <-> In r (Atom.anchoredRings a) \/ In r l)).
  { induction l as [|x l IH]; intros a; simpl.
    - split; [auto|tauto].
    - destruct (IH (Atom.addAnchoredRing x a)) as [H1 H2]. split.
      + intros Hn. apply H1, addAnchoredRing_NoDup, Hn.
      + unfold anchor_all in H2. rewrite H2, addAnchoredRing_In.
        intuition auto. }
  destruct (H ringIds (Atom.new s bondType)) as [H1 H2].
  split; [apply H1; constructor|]. split.
  - rewrite H2. simpl. tauto.
  - set (a := anchor_all ringIds (Atom.new s bondType)).
    unfold Atom.addAnchoredRing at 1.
    assert (E : existsb (Nat.eqb r)
                  (Atom.anchoredRings (Atom.addAnchoredRing r a)) = true).
    { apply existsb_exists. exists r. split; [|apply Nat.eqb_refl].
      apply addAnchoredRing_In. now left. }
    now rewrite E.
Qed.

(** X8.  [haveCommonRingbond] holds exactly when some ring bond of the
    first atom and some ring bond of the second carry the same id, and
    it does not depend on the order of the two atoms. *)
Theorem haveCommonRingbond_spec (atomA atomB : Atom.t) :
  (Atom.haveCommonRingbond atomA atomB = true
   <-> exists rbA rbB, In rbA (Atom.ringbonds atomA)
                       /\ In rbB (Atom.ringbonds atomB)
                       /\ rb_id rbA = rb_id rbB)
  /\ Atom.haveCommonRingbond atomA atomB = Atom.haveCommonRingbond atomB atomA.
Proof.
  assert (H : forall x y,
            Atom.haveCommonRingbond x y = true
            <-> exists rbA rbB, In rbA (Atom.ringbonds x)
                                /\ In rbB (Atom.ringbonds y)
                                /\ rb_id rbA = rb_id rbB).
  { intros x y. unfold Atom.haveCommonRingbond. rewrite existsb_exists. split.
    - intros (rbA & HA & H). apply existsb_exists in H as (rbB & HB & H).
      apply Nat.eqb_eq in H. eauto.
    - intros (rbA & rbB & HA & HB & H). exists rbA. split; [exact HA|].
      apply existsb_exists. exists rbB. split; [exact HB|].
      now apply Nat.eqb_eq. }
  split; [apply H|].
  destruct (Atom.haveCommonRingbond atomA atomB) eqn:E1,
           (Atom.haveCommonRingbond atomB atomA) eqn:E2; auto.
  - apply H in E1 as (rbA & rbB & HA & HB & Hid).
    assert (C : Atom.haveCommonRingbond atomB atomA = true)
      by (apply H; exists rbB, rbA; auto).
    congruence.
  - apply H in E2 as (rbA & rbB & HA & HB & Hid).
    assert (C : Atom.haveCommonRingbond atomA atomB = true)
      by (apply H; exists rbB, rbA; auto).
    congruence.
Qed.

Lemma lookup_bump_same key o pe :
  Atom.lookup_pseudo key o = Some pe ->
  exists pe', Atom.lookup_pseudo key (Atom.bump_count key o) = Some pe'
              /\ pe_count pe' = pe_count pe + 1.
Proof.
  induction o as [|[k p] o IH]; simpl; [discriminate|].
  destruct (String.eqb k key) eqn:E; simpl; rewrite E.
  - intros [= ->]. eauto.
  - exact IH.
Qed.

Lemma lookup_bump_other key key' o :
  key' <> key ->
  Atom.lookup_pseudo key' (Atom.bump_count key o) = Atom.lookup_pseudo key' o.
Proof.
  intros Hne. induction o as [|[k p] o IH]; simpl; [reflexivity|].
  destruct (String.eqb k key) eqn:E; simpl.
  - apply String.eqb_eq in E. subst k.
    apply not_eq_sym, String.eqb_neq in Hne. now rewrite Hne.
  - now rewrite IH.
Qed.

Lemma total_bump key o pe :
  Atom.lookup_pseudo key o = Some pe ->
  pseudo_total (Atom.bump_count key o) = S (pseudo_total o)
  /\ List.length (Atom.bump_count key o) = List.length o.
Proof.
  induction o as [|[k p] o IH]; simpl; [discriminate|].
  destruct (String.eqb k key) eqn:E; simpl.
  - intros _. split; lia.
  - intros H. destruct (IH H). split; lia.
Qed.

Lemma lookup_snoc key key' o pe :
  Atom.lookup_pseudo key' (o ++ [(key, pe)])
  = match Atom.lookup_pseudo key' o with
    | Some p => Some p
    | None => if String.eqb key key' then Some pe else None
    end.
Proof.
  induction o as [|[k p] o IH]; simpl; [reflexivity|].
  destruct (String.eqb k key'); auto.
Qed.

Lemma total_snoc o key pe :
  pseudo_total (o ++ [(key, pe)]) = pseudo_total o + pe_count pe.
Proof. induction o as [|[k p] o IH]; simpl; lia. Qed.

(** X9.  [attachPseudoElement] counts attachments per key: afterwards the
    entry under the key of the call has a count one above the count it
    had before (1 if the key is new), every other key reads as before,
    the counts add up to one more, at most one key is added, and the
    atom is flagged as having pseudo elements. *)
Theorem attachPseudoElement_counts (element previousElement : string)
    (hydrogenCount : option nat) (charge : option Z) (a : Atom.t) :
  let key := Atom.pseudo_key (match hydrogenCount with Some h => h | None => 0 end)
                             element
                             (match charge with Some c => c | None => 0%Z end) in
  let a' := Atom.attachPseudoElement element previousElement hydrogenCount
                                     charge a in
  (exists pe, Atom.lookup_pseudo key (Atom.attachedPseudoElements a') = Some pe
              /\ pe_count pe
                 = match Atom.lookup_pseudo key (Atom.attachedPseudoElements a)
                   with Some old => pe_count old + 1 | None => 1 end)
  /\ (forall key', key' <> key ->
        Atom.lookup_pseudo key' (Atom.attachedPseudoElements a')
        = Atom.lookup_pseudo key' (Atom.attachedPseudoElements a))
  /\ pseudo_total (Atom.attachedPseudoElements a')
     = S (pseudo_total (Atom.attachedPseudoElements a))
  /\ Atom.getAttachedPseudoElementsCount a'
     = Atom.getAttachedPseudoElementsCount a
       + match Atom.lookup_pseudo key (Atom.attachedPseudoElements a) with
         | Some _ => 0
         | None => 1
         end
  /\ Atom.hasAttachedPseudoElements a' = true.
Proof.
  intros key a'. subst a'. unfold Atom.attachPseudoElement.
  fold key. unfold Atom.getAttachedPseudoElementsCount.
  destruct (Atom.lookup_pseudo key (Atom.attachedPseudoElements a))
    as [old|] eqn:E; cbn [Atom.set_pseudo Atom.attachedPseudoElements
                           Atom.hasAttachedPseudoElements].
  - destruct (lookup_bump_same _ _ _ E) as (pe' & H1 & H2).
    destruct (total_bump _ _ _ E) as [H3 H4].
    split; [eauto|]. split; [intros; now apply lookup_bump_other|].
    split; [exact H3|]. split; [lia|reflexivity].
  - split.
    + eexists. rewrite lookup_snoc, E, String.eqb_refl. split; reflexivity.
    + split.
      * intros key' Hne. rewrite lookup_snoc.
        destruct (Atom.lookup_pseudo key' (Atom.attachedPseudoElements a)); auto.
        apply not_eq_sym, String.eqb_neq in Hne. now rewrite Hne.
      * rewrite total_snoc, length_app. simpl. repeat split; lia.
Qed.

(** ** Sorting strings, and [neighbouringElementsEqual] *)

Lemma le_str_trans a b c : le_str a b -> le_str b c -> le_str a c.
Proof.
  unfold le_str, String.leb. revert b c.
  induction a as [|x a IH]; intros [|y b] [|z c]; simpl; auto;
    try discriminate.
  unfold Ascii.compare.
  destruct (N.compare_spec (N_of_ascii x) (N_of_ascii y)) as [Exy|Lxy|Gxy],
           (N.compare_spec (N_of_ascii y) (N_of_ascii z)) as [Eyz|Lyz|Gyz],
           (N.compare_spec (N_of_ascii x) (N_of_ascii z)) as [Exz|Lxz|Gxz];
    try discriminate; auto; try lia.
  apply IH.
Qed.

Lemma le_str_total a b : le_str a b \/ le_str b a.
Proof. apply String.leb_total. Qed.

Lemma insert_sorted_perm x l : Permutation (x :: l) (insert_sorted x l).
Proof.
  induction l as [|y l IH]; simpl; auto.
  destruct (String.leb x y); auto.
  rewrite perm_swap. now constructor.
Qed.

Lemma js_sort_perm l : Permutation l (js_sort l).
Proof.
  induction l as [|x l IH]; simpl; auto.
  rewrite <- insert_sorted_perm. now constructor.
Qed.

Lemma insert_sorted_sorted x l :
  StronglySorted le_str l -> StronglySorted le_str (insert_sorted x l).
Proof.
  induction 1 as [|y l Hs IH Hy]; simpl.
  - repeat constructor.
  - destruct (String.leb x y) eqn:E.
    + constructor; [now constructor|]. constructor; [exact E|].
      eapply Forall_impl; [|exact Hy]. intros z. now apply le_str_trans.
    + constructor; [exact IH|].
      assert (Hyx : le_str y x)
        by (destruct (le_str_total x y) as [H|H]; [unfold le_str in H; congruence|exact H]).
      rewrite Forall_forall. intros z Hz.
      apply (Permutation_in _ (Permutation_sym (insert_sorted_perm x l))) in Hz.
      destruct Hz as [<-|Hz]; [exact Hyx|].
      rewrite Forall_forall in Hy. now apply Hy.
Qed.

Lemma js_sort_sorted l : StronglySorted le_str (js_sort l).
Proof.
  induction l as [|x l IH]; simpl; [constructor|].
  now apply insert_sorted_sorted.
Qed.

Lemma sorted_perm_unique l1 : forall l2,
  StronglySorted le_str l1 -> StronglySorted le_str l2 ->
  Permutation l1 l2 -> l1 = l2.
Proof.
  induction l1 as [|x l1 IH]; intros [|y l2] H1 H2 Hp.
  - reflexivity.
  - apply Permutation_nil in Hp. discriminate.
  - apply Permutation_sym, Permutation_nil in Hp. discriminate.
  - inversion H1 as [|? ? S1 F1]; inversion H2 as [|? ? S2 F2]; subst.
    rewrite Forall_forall in F1, F2.
    assert (Hxy : x = y).
    { assert (Hx : In x (y :: l2))
        by (apply (Permutation_in _ Hp); now left).
      assert (Hy : In y (x :: l1))
        by (apply (Permutation_in _ (Permutation_sym Hp)); now left).
      destruct Hx as [<-|Hx]; [reflexivity|].
      destruct Hy as [->|Hy]; [reflexivity|].
      apply String.leb_antisym; [apply F1, Hy | apply F2, Hx]. }
    subst y. f_equal. apply IH; auto.
    now apply Permutation_cons_inv in Hp.
Qed.

(** Any array that is sorted and holds the same strings is the array the
    model computes. *)
Lemma js_sort_unique l l' :
  Permutation l l' -> StronglySorted le_str l' -> js_sort l = l'.
Proof.
  intros Hp Hs. apply sorted_perm_unique; auto using js_sort_sorted.
  now rewrite <- js_sort_perm.
Qed.

Lemma every_equal_eq l1 : forall l2,
  List.length l1 = List.length l2 ->
  (Atom.every_equal l1 l2 = true <-> l1 = l2).
Proof.
  induction l1 as [|x l1 IH]; intros [|y l2]; simpl; try discriminate.
  - tauto.
  - intros [= Hl]. rewrite andb_true_iff, String.eqb_eq, (IH l2 Hl).
    split; [intros [-> ->]; reflexivity | intros [= -> ->]; auto].
Qed.

(** X10.  [neighbouringElementsEqual(arr)] is true exactly when [arr]
    holds the neighbouring elements of the atom, each as often, in any
    order. *)
Theorem neighbouringElementsEqual_iff_permutation (arr : list string)
    (a : Atom.t) :
  Atom.neighbouringElementsEqual arr a = true
  <-> Permutation arr (Atom.neighbouringElements a).
Proof.
  unfold Atom.neighbouringElementsEqual.
  destruct (Nat.eqb_spec (List.length arr)
              (List.length (Atom.neighbouringElements a))) as [Hl|Hl]; simpl.
  - rewrite every_equal_eq
      by (rewrite <- !(Permutation_length (js_sort_perm _)); exact Hl).
    split.
    + intros E. rewrite (js_sort_perm arr), E. symmetry. apply js_sort_perm.
    + intros Hp. apply js_sort_unique; [|apply js_sort_sorted].
      now rewrite Hp, <- js_sort_perm.
  - split; [discriminate|]. intros Hp. apply Permutation_length in Hp. tauto.
Qed.

(** ** The element tables and the constructor *)

Lemma table_lookup_In key o v :
  Atom.table_lookup key o = Some v -> In (key, v) o.
Proof.
  induction o as [|[k w] o IH]; simpl; [discriminate|].
  destruct (String.eqb_spec k key) as [->|Hne].
  - intros [= ->]. now left.
  - intros H. right. now apply IH.
Qed.

(** X11.  Constructing an atom from a symbol of the table of atomic
    numbers yields the number tabulated for that symbol, and likewise for
    the table of maximal bonds: upper-casing a one-letter symbol never
    leaves a table or changes the entry, so the lower-case aromatic symbols
    report the atomic number of their element (and their own entries are
    never read). *)
Theorem constructed_atom_reads_tables (s : string) (bondType : option string)
    (n : nat) :
  Atom.table_lookup s Atom.atomicNumbers = Some n ->
  Atom.getAtomicNumber (Atom.new s bondType) = Some n
  /\ (forall m, Atom.table_lookup s Atom.maxBonds = Some m ->
                Atom.getMaxBonds (Atom.new s bondType) = Some m).
Proof.
  assert (Ha : forallb (fun kv =>
                 match Atom.table_lookup (Atom.stored_element (fst kv))
                                         Atom.atomicNumbers with
                 | Some m => m =? snd kv
                 | None => false
                 end) Atom.atomicNumbers = true) by (vm_compute; reflexivity).
  assert (Hm : forallb (fun kv =>
                 match Atom.table_lookup (Atom.stored_element (fst kv))
                                         Atom.maxBonds with
                 | Some m => m =? snd kv
                 | None => false
                 end) Atom.maxBonds = true) by (vm_compute; reflexivity).
  rewrite forallb_forall in Ha, Hm.
  unfold Atom.getAtomicNumber, Atom.getMaxBonds. cbn [Atom.new Atom.element].
  intros H. split.
  - apply table_lookup_In in H.
    specialize (Ha _ H). cbn [fst snd] in Ha.
    destruct (Atom.table_lookup _ _); [|discriminate].
    apply Nat.eqb_eq in Ha. now subst.
  - intros m H'. apply table_lookup_In in H'.
    specialize (Hm _ H'). cbn [fst snd] in Hm.
    destruct (Atom.table_lookup _ _); [|discriminate].
    apply Nat.eqb_eq in Hm. now subst.
Qed.

Lemma constructed_atom_reads_tables_witness :
  Atom.getAtomicNumber (Atom.new "n" None) = Some 7
  /\ (forall m, Atom.table_lookup "n" Atom.maxBonds = Some m ->
                Atom.getMaxBonds (Atom.new "n" None) = Some m).
Proof. apply (constructed_atom_reads_tables "n" None 7). reflexivity. Defined.

Lemma stored_element_is (s : string) (c : ascii) :
  is_lower_ascii c = false ->
  (Atom.stored_element s = String c EmptyString
   <-> s = String c EmptyString
       \/ (exists l, s = String l EmptyString /\ upper_ascii l = c /\ l <> c)).
Proof.
  intros Hc. unfold Atom.stored_element.
  destruct s as [|x [|y s']]; cbn [String.length Nat.eqb toUpperCase].
  - split; [discriminate|]. intros [H|(l & H & _)]; discriminate.
  - split.
    + intros [= E]. destruct (ascii_dec x c) as [->|Hne]; [now left|].
      right. exists x. auto.
    + intros [[= ->]|(l & [= ->] & E & _)].
      * f_equal. unfold upper_ascii. unfold is_lower_ascii in Hc.
        now rewrite Hc.
      * now rewrite E.
  - split; [discriminate|]. intros [H|(l & H & _)]; discriminate.
Qed.

(** X12.  For an atom built by the constructor, [isHeteroAtom] is false
    exactly for the four symbols "C", "c", "H" and "h": aromatic carbon
    counts as carbon, and every symbol of two or more letters as a
    hetero atom. *)
Theorem constructed_isHeteroAtom (s : string) (bondType : option string) :
  Atom.isHeteroAtom (Atom.new s bondType) = false
  <-> s = "C" \/ s = "c" \/ s = "H" \/ s = "h".
Proof.
  unfold Atom.isHeteroAtom. cbn [Atom.new Atom.element].
  rewrite andb_false_iff, !negb_false_iff, !String.eqb_eq.
  rewrite (stored_element_is s "C"%char eq_refl),
          (stored_element_is s "H"%char eq_refl).
  split.
  - intros [[H|(l & -> & E & Hne)]|[H|(l & -> & E & Hne)]]; auto.
    + right; left. f_equal.
      destruct l as [[] [] [] [] [] [] [] []]; vm_compute in E;
        try discriminate; try reflexivity; exfalso; apply Hne; reflexivity.
    + right; right; right. f_equal.
      destruct l as [[] [] [] [] [] [] [] []]; vm_compute in E;
        try discriminate; try reflexivity; exfalso; apply Hne; reflexivity.
  - intros [-> | [-> | [-> | ->]]].
    + left; now left.
    + left; right. exists "c"%char. repeat split. discriminate.
    + right; now left.
    + right; right. exists "h"%char. repeat split. discriminate.
Qed.

(** ** The graph builder: what every step of [_init] keeps *)

Lemma visit_length a bond bb rb hn par br g g1 vid :
  visit a bond bb rb hn par br g = Ok (g1, vid) ->
  vid = List.length (vertices g)
  /\ List.length (vertices g1) = S (List.length (vertices g)).
Proof.
  intros Ev. apply visit_spec in Ev. destruct Ev as [Hv Hc _ _ _ _ _].
  split; [exact Hv|].
  rewrite <- !cores_length, Hc, length_app. simpl. lia.
Qed.

Section InitSteps.

Variable P : Graph -> Prop.

Hypothesis P_visit : forall a bond bb rb hn par br g g1 vid,
  visit a bond bb rb hn par br g = Ok (g1, vid) -> parent_ok par g ->
  P g -> P g1.

Hypothesis P_mark : forall vid g,
  P g -> P (modify_vertex vid (map_value markStereoCenter) g).

Lemma stereo_loop_steps n : forall i vid g g',
  stereo_loop n i vid g = Ok g' -> vid < List.length (vertices g) -> P g ->
  P g' /\ List.length (vertices g) <= List.length (vertices g').
Proof.
  induction n as [|n IH]; intros i vid g g'; simpl.
  - intros [= <-]. auto.
  - unfold init_hydrogen.
    destruct (visit _ _ _ _ _ _ _ g) as [[g1 v]|] eqn:Ev; [|discriminate].
    simpl. intros E Hv HP.
    destruct (visit_length _ _ _ _ _ _ _ _ _ _ Ev) as [_ Hl].
    destruct (IH _ _ _ _ E ltac:(lia)
                 (P_visit _ _ _ _ _ _ _ _ _ _ Ev Hv HP)) as [HP' Hl'].
    split; [exact HP'|lia].
Qed.

Lemma stereo_part_steps bracket vid g g' :
  stereo_part bracket vid g = Ok g' -> vid < List.length (vertices g) -> P g ->
  P g' /\ List.length (vertices g) <= List.length (vertices g').
Proof.
  unfold stereo_part.
  destruct bracket as [b|]; [destruct (truthy (b_chirality b))|];
    try (intros [= <-]; auto).
  intros E Hv HP.
  apply stereo_loop_steps in E; auto.
  - unfold modify_vertex in E; cbn [vertices with_vertices] in E.
    now rewrite update_nth_length in E.
  - unfold modify_vertex; cbn [vertices with_vertices].
    now rewrite update_nth_length.
Qed.

Lemma branch_loop_steps offset vid bs :
  Forall (step_closed P) bs ->
  forall n i g g',
    branch_loop _init offset vid bs n i g = Ok g' ->
    vid < List.length (vertices g) -> P g ->
    P g' /\ List.length (vertices g) <= List.length (vertices g').
Proof.
  induction 1 as [|b bs Hb _ IH]; intros [|n] i g g'; simpl;
    try discriminate; try (intros [= <-]; auto).
  destruct (_init b _ _ _ g) as [g1|] eqn:E; [|discriminate]. simpl.
  intros E' Hv HP.
  destruct (Hb _ _ _ _ _ E Hv HP) as [HP1 Hl1].
  destruct (IH _ _ _ _ E' ltac:(lia) HP1) as [HP2 Hl2].
  split; [exact HP2|lia].
Qed.

Lemma init_steps node : step_closed P node.
Proof.
  induction node as [a b bb rb bs bc rc nx hn IHbs IHnx]
    using ParseTreeNode_induction.
  intros order par br g g'. rewrite _init_unfold.
  destruct (visit _ _ _ _ _ _ _ _) as [[g1 vid]|] eqn:Ev; [|discriminate].
  cbv zeta.
  destruct (stereo_part _ _ _) as [g2|] eqn:Es; [|discriminate]. simpl.
  destruct (branch_loop _ _ _ _ _ _ _) as [g3|] eqn:Eb; [|discriminate]. simpl.
  intros E Hpar HP.
  destruct (visit_length _ _ _ _ _ _ _ _ _ _ Ev) as [Hv Hl1].
  assert (HP1 := P_visit _ _ _ _ _ _ _ _ _ _ Ev Hpar HP).
  destruct (stereo_part_steps _ _ _ _ Es ltac:(lia) HP1) as [HP2 Hl2].
  destruct (branch_loop_steps _ _ _ IHbs _ _ _ _ Eb ltac:(lia) HP2)
    as [HP3 Hl3].
  destruct hn.
  - destruct nx as [nx|]; [|discriminate].
    destruct (IHnx _ _ _ _ _ E ltac:(simpl; lia) HP3) as [HP4 Hl4].
    split; [exact HP4|lia].
  - injection E as <-. split; [exact HP3|lia].
Qed.

End InitSteps.

(** ** The links of a built graph *)

Lemma nth_error_update_nth {A : Type} i j (f : A -> A) l :
  nth_error (update_nth i f l) j
  = option_map (fun x => if i =? j then f x else x) (nth_error l j).
Proof.
  revert i j; induction l as [|y l IH]; intros [|i] [|j]; simpl; auto.
  now destruct (nth_error l j).
Qed.

Lemma nth_error_snoc_inv {A : Type} (l : list A) x i v :
  nth_error (l ++ [x]) i = Some v ->
  nth_error l i = Some v \/ (i = List.length l /\ v = x).
Proof.
  destruct (lt_dec i (List.length l)) as [Hlt|Hge].
  - rewrite nth_error_app1 by exact Hlt. auto.
  - rewrite nth_error_app2 by lia.
    destruct (i - List.length l) as [|k] eqn:E; simpl.
    + intros [= <-]. right. split; [lia|reflexivity].
    + now destruct k.
Qed.

Lemma filter_none {A : Type} (q : A -> bool) l :
  (forall x, In x l -> q x = false) -> filter q l = [].
Proof.
  induction l as [|x l IH]; simpl; auto.
  intros H. rewrite (H x) by now left. apply IH. auto.
Qed.

Lemma fixed_fields x y :
  fixed x = fixed y ->
  v_id x = v_id y /\ v_parentVertexId x = v_parentVertexId y
  /\ v_element x = v_element y
  /\ a_bondType (v_value x) = a_bondType (v_value y)
  /\ a_branchBond (v_value x) = a_branchBond (v_value y).
Proof. unfold fixed. intros [= H1 H2 H3 H4 H5]. auto. Qed.

Lemma fixed_nth vs vs' j x :
  map fixed vs = map fixed vs' -> nth_error vs j = Some x ->
  exists x', nth_error vs' j = Some x' /\ fixed x' = fixed x.
Proof.
  intros Hm Hx. apply (map_nth_error fixed) in Hx.
  rewrite Hm, nth_error_map in Hx.
  destruct (nth_error vs' j) as [x'|]; [|discriminate].
  exists x'. split; [reflexivity|]. simpl in Hx. congruence.
Qed.

Lemma map_filter_fixed {B : Type} (h : GVertex -> B) (q : GVertex -> bool) vs :
  (forall x y, fixed x = fixed y -> h x = h y /\ q x = q y) ->
  forall vs', map fixed vs = map fixed vs' ->
              map h (filter q vs) = map h (filter q vs').
Proof.
  intros Hc. induction vs as [|x vs IH]; intros [|y vs']; simpl;
    try discriminate; auto.
  intros E.
  assert (Hxy : fixed x = fixed y) by congruence.
  assert (Hm : map fixed vs = map fixed vs') by congruence.
  destruct (Hc x y Hxy) as [Hh Hq].
  rewrite <- Hq. destruct (q x); simpl; [rewrite Hh; f_equal|]; now apply IH.
Qed.

Lemma children_id_fixed vs vs' i :
  map fixed vs = map fixed vs' ->
  map v_id (children_of vs i) = map v_id (children_of vs' i).
Proof.
  apply map_filter_fixed. intros x y H.
  apply fixed_fields in H as (H1 & H2 & _).
  unfold is_child_of. now rewrite H2.
Qed.

Lemma children_element_fixed vs vs' i :
  map fixed vs = map fixed vs' ->
  map v_element (children_of vs i) = map v_element (children_of vs' i).
Proof.
  apply map_filter_fixed. intros x y H.
  apply fixed_fields in H as (_ & H2 & H3 & _).
  unfold is_child_of. now rewrite H2.
Qed.

Lemma parent_element_fixed vs vs' x x' :
  map fixed vs = map fixed vs' -> fixed x' = fixed x ->
  parent_element vs' x' = parent_element vs x.
Proof.
  intros Hm H. apply fixed_fields in H as (_ & Hp & _).
  unfold parent_element. rewrite Hp.
  destruct (v_parentVertexId x) as [p|]; [|reflexivity].
  assert (E : option_map fixed (nth_error vs p)
              = option_map fixed (nth_error vs' p))
    by (rewrite <- !nth_error_map, Hm; reflexivity).
  destruct (nth_error vs p) as [a|], (nth_error vs' p) as [b|];
    simpl in E; try discriminate; auto.
  assert (E' : fixed a = fixed b) by congruence.
  apply fixed_fields in E' as (_ & _ & He & _).
  now rewrite He.
Qed.

Lemma parent_element_snoc vs nv v :
  match v_parentVertexId v with
  | Some p => p < List.length vs
  | None => True
  end ->
  parent_element (vs ++ [nv]) v = parent_element vs v.
Proof.
  unfold parent_element. destruct (v_parentVertexId v) as [p|]; auto.
  intros Hp. now rewrite nth_error_app1.
Qed.

Lemma children_snoc vs nv i :
  children_of (vs ++ [nv]) i
  = children_of vs i ++ (if is_child_of i nv then [nv] else []).
Proof. unfold children_of. now rewrite filter_app. Qed.

Lemma no_children vs k :
  (forall i v, nth_error vs i = Some v -> vertex_linked vs i v) ->
  List.length vs <= k -> children_of vs k = [].
Proof.
  intros Hall Hk. apply filter_none. intros v Hin.
  apply In_nth_error in Hin as [i Hi].
  assert (Hlt : i < List.length vs) by (apply nth_error_Some; congruence).
  destruct (Hall _ _ Hi) as (_ & Hp & _).
  unfold is_child_of. destruct (v_parentVertexId v) as [p|]; auto.
  apply Nat.eqb_neq. lia.
Qed.

(** A mutation that leaves the lists alone. *)
Lemma linked_touch vs k f :
  (forall x, fixed (f x) = fixed x) ->
  (forall x, v_neighbours (f x) = v_neighbours x) ->
  (forall x, v_spanningTreeChildren (f x) = v_spanningTreeChildren x) ->
  (forall x, a_neighbouringElements (v_value (f x))
             = a_neighbouringElements (v_value x)) ->
  (forall i v, nth_error vs i = Some v -> vertex_linked vs i v) ->
  forall i v, nth_error (update_nth k f vs) i = Some v ->
              vertex_linked (update_nth k f vs) i v.
Proof.
  intros Hf Hn Hs He Hall i v Hv.
  assert (Hm : map fixed vs = map fixed (update_nth k f vs))
    by (symmetry; now apply map_update_nth).
  rewrite nth_error_update_nth in Hv.
  destruct (nth_error vs i) as [x|] eqn:Hx; [|discriminate].
  simpl in Hv. injection Hv as <-.
  destruct (Hall _ _ Hx) as (H1 & H2 & H3 & H4 & H5).
  assert (Hfx : fixed (if k =? i then f x else x) = fixed x)
    by (destruct (k =? i); auto).
  apply fixed_fields in Hfx as Hff. destruct Hff as (F1 & F2 & _).
  unfold vertex_linked.
  rewrite <- (children_id_fixed _ _ _ Hm), <- (children_element_fixed _ _ _ Hm),
    (parent_element_fixed _ _ _ _ Hm Hfx), F1, F2.
  destruct (k =? i); rewrite ?Hn, ?Hs, ?He; auto.
Qed.

(** One new vertex under the parent [p]. *)
Lemma linked_step vs p pv nv el :
  (forall i v, nth_error vs i = Some v -> vertex_linked vs i v) ->
  nth_error vs p = Some pv ->
  v_id nv = List.length vs -> v_parentVertexId nv = Some p ->
  v_element nv = el -> v_neighbours nv = [] ->
  v_spanningTreeChildren nv = [] ->
  a_neighbouringElements (v_value nv) = [v_element pv] ->
  forall i v,
    nth_error (update_nth p (adopt (List.length vs) el) vs ++ [nv]) i = Some v ->
    vertex_linked (update_nth p (adopt (List.length vs) el) vs ++ [nv]) i v.
Proof.
  intros Hall Hp Hid Hpar Hel Hn Hs Hne i v Hv.
  set (n := List.length vs) in *.
  set (vs1 := update_nth p (adopt n el) vs) in *.
  assert (Hm : map fixed vs = map fixed vs1)
    by (symmetry; now apply map_update_nth).
  assert (Hlen : List.length vs1 = n) by apply update_nth_length.
  assert (Hpn : p < n) by (apply nth_error_Some; congruence).
  assert (Hc : is_child_of i nv = (p =? i))
    by (unfold is_child_of; now rewrite Hpar).
  unfold vertex_linked. rewrite children_snoc, !map_app, Hc.
  rewrite <- (children_id_fixed _ _ _ Hm), <- (children_element_fixed _ _ _ Hm).
  apply nth_error_snoc_inv in Hv as [Hv | [-> ->]].
  - unfold vs1 in Hv. rewrite nth_error_update_nth in Hv.
    destruct (nth_error vs i) as [x|] eqn:Hx; [|discriminate].
    simpl in Hv. injection Hv as <-.
    destruct (Hall _ _ Hx) as (H1 & H2 & H3 & H4 & H5).
    assert (Hi : i < n) by (apply nth_error_Some; congruence).
    assert (Hfx : fixed (if p =? i then adopt n el x else x) = fixed x)
      by (destruct (p =? i); reflexivity).
    apply fixed_fields in Hfx as Hff. destruct Hff as (F1 & F2 & _).
    rewrite parent_element_snoc
      by (rewrite F2, Hlen; destruct (v_parentVertexId x); [lia|exact I]).
    rewrite (parent_element_fixed _ _ _ _ Hm Hfx), F1, F2.
    destruct (p =? i); simpl.
    + rewrite H3, H4, H5, Hid, Hel, <- app_assoc. auto.
    + rewrite !app_nil_r. auto.
  - rewrite Hlen, Hid, Hpar, Hn, Hs, Hne.
    rewrite (no_children vs n Hall) by reflexivity.
    replace (p =? n) with false by (symmetry; apply Nat.eqb_neq; lia).
    simpl. repeat split; auto.
    unfold parent_element. rewrite Hpar.
    rewrite nth_error_app1 by lia.
    unfold vs1. rewrite (nth_error_update_nth_eq _ _ _ _ Hp). reflexivity.
Qed.

Lemma edge_linked_fixed vs vs' k e :
  map fixed vs = map fixed vs' -> edge_linked vs k e -> edge_linked vs' k e.
Proof.
  intros Hm (Ht & v & pv & Hv & Hpar & Hpv & Hb).
  split; [exact Ht|].
  destruct (fixed_nth _ _ _ _ Hm Hv) as (v' & Hv' & Fv).
  destruct (fixed_nth _ _ _ _ Hm Hpv) as (pv' & Hpv' & Fpv).
  apply fixed_fields in Fv as (_ & F2 & _ & _ & F5).
  apply fixed_fields in Fpv as (_ & _ & _ & G4 & _).
  exists v', pv'. rewrite F2, F5, G4. auto.
Qed.

Lemma edge_linked_snoc vs nv k e :
  edge_linked vs k e -> edge_linked (vs ++ [nv]) k e.
Proof.
  intros (Ht & v & pv & Hv & Hpar & Hpv & Hb).
  split; [exact Ht|]. exists v, pv.
  rewrite !nth_error_app1 by (apply nth_error_Some; congruence). auto.
Qed.

Lemma Linked_mark vid g :
  Linked g -> Linked (modify_vertex vid (map_value markStereoCenter) g).
Proof.
  intros [Hv Hc He].
  assert (Hm : map fixed (vertices g)
               = map fixed (update_nth vid (map_value markStereoCenter)
                                       (vertices g)))
    by (symmetry; now apply map_update_nth).
  constructor; cbn [modify_vertex with_vertices vertices edges].
  - now apply linked_touch.
  - now rewrite update_nth_length.
  - intros k e H. eapply edge_linked_fixed; [exact Hm|]. now apply He.
Qed.

Lemma Linked_visit a bond bb rb hn par br g g1 vid :
  visit a bond bb rb hn par br g = Ok (g1, vid) -> parent_ok par g ->
  Linked g -> Linked g1.
Proof.
  intros Ev Hpar [Hv Hc He]. destruct par as [p|].
  - destruct (nth_error (vertices g) p) as [pv|] eqn:Hp.
    + rewrite (visit_child _ _ _ _ _ _ _ _ _ Hp) in Ev.
      injection Ev as <- <-.
      assert (Hpn : p < List.length (vertices g))
        by (apply nth_error_Some; congruence).
      assert (Hm : map fixed (vertices g)
                   = map fixed (update_nth p
                       (adopt (List.length (vertices g)) (element_of a))
                       (vertices g)))
        by (symmetry; now apply map_update_nth).
      constructor; cbn [vertices edges].
      * now apply (linked_step _ _ pv).
      * rewrite !length_app, update_nth_length. simpl. lia.
      * intros k e H. apply nth_error_snoc_inv in H as [H | [-> ->]].
        -- apply edge_linked_snoc. eapply edge_linked_fixed; [exact Hm|].
           now apply He.
        -- rewrite Hc. unfold edge_linked.
           replace (S (pred (List.length (vertices g))))
             with (List.length (vertices g)) by lia.
           split; [now destruct br|].
           eexists. exists (adopt (List.length (vertices g)) (element_of a) pv).
           split; [|split; [|split]].
           ++ rewrite nth_error_app2 by (rewrite update_nth_length; lia).
              rewrite update_nth_length, Nat.sub_diag. reflexivity.
           ++ now destruct br.
           ++ replace (e_sourceId _) with p by now destruct br.
              rewrite nth_error_app1 by (rewrite update_nth_length; lia).
              now apply nth_error_update_nth_eq.
           ++ destruct br; [left|right]; reflexivity.
    + rewrite (visit_dangling _ _ _ _ _ _ _ _ Hp) in Ev. discriminate.
  - rewrite visit_root in Ev. injection Ev as <- <-.
    simpl in Hpar. rewrite Hpar in *.
    constructor; cbn [vertices edges app List.length].
    + intros [|[|i]] v; simpl; try discriminate.
      intros [= <-]. repeat split.
    + exact Hc.
    + intros k e H. destruct (edges g); [|discriminate].
      now destruct k.
Qed.

Lemma Linked_empty iso : Linked (empty_graph iso).
Proof.
  constructor; simpl; auto.
  - intros [|i] v; discriminate.
  - intros [|k] e; discriminate.
Qed.

Lemma Graph_new_linked t iso g : Graph_new t iso = Ok g -> Linked g.
Proof.
  intros E.
  apply (init_steps Linked Linked_visit Linked_mark t 0 None false
                    (empty_graph iso) g E).
  - reflexivity.
  - apply Linked_empty.
Qed.

Lemma filter_all {A : Type} (q : A -> bool) l :
  (forall x, In x l -> q x = true) -> filter q l = l.
Proof.
  induction l as [|x l IH]; simpl; auto.
  intros H. rewrite (H x) by now left. f_equal. apply IH. auto.
Qed.

Lemma children_above vs i j :
  (forall k v, nth_error vs k = Some v -> vertex_linked vs k v) ->
  In j (map v_id (children_of vs i)) -> i < j.
Proof.
  intros Hall Hj. apply in_map_iff in Hj as (w & <- & Hw).
  apply filter_In in Hw as [Hin Hc].
  apply In_nth_error in Hin as [k Hk].
  destruct (Hall _ _ Hk) as (Hid & Hp & _).
  unfold is_child_of in Hc. destruct (v_parentVertexId w) as [p|];
    [|discriminate].
  apply Nat.eqb_eq in Hc. lia.
Qed.

Lemma or_dash_nonempty s : or_dash s <> "".
Proof.
  unfold or_dash. destruct (String.eqb_spec s ""); [discriminate|assumption].
Qed.

(** X13.  In a built graph the [neighbours] of a vertex are exactly the
    ids of the vertices that have it as parent, in creation order, and
    [spanningTreeChildren] is the same array.  Every listed id is greater
    than the vertex's own, so the parent is never among them and
    [getNeighbours] and [getSpanningTreeNeighbours], asked to leave the
    parent out, return the arrays whole.  (Ids are those of
    [Graph.addVertex], modelled as the index in [vertices].) *)
Theorem built_neighbours_are_children t iso g :
  Graph_new t iso = Ok g ->
  forall v, In v (vertices g) ->
    v_neighbours v = map v_id (children_of (vertices g) (v_id v))
    /\ v_spanningTreeChildren v = v_neighbours v
    /\ (forall j, In j (v_neighbours v) -> v_id v < j)
    /\ getNeighbours (v_parentVertexId v) v = v_neighbours v
    /\ getSpanningTreeNeighbours (v_parentVertexId v) v
       = v_spanningTreeChildren v.
Proof.
  intros E v Hin. apply Graph_new_linked in E. destruct E as [Hall _ _].
  apply In_nth_error in Hin as [i Hi].
  destruct (Hall _ _ Hi) as (Hid & Hp & Hn & Hs & _).
  rewrite Hid.
  assert (Habove : forall j, In j (v_neighbours v) -> i < j)
    by (intros j Hj; rewrite Hn in Hj; now apply (children_above _ _ _ Hall)).
  split; [exact Hn|]. split; [congruence|]. split; [exact Habove|].
  unfold getNeighbours, getSpanningTreeNeighbours.
  destruct (v_parentVertexId v) as [p|]; [|auto].
  split; apply filter_all; intros j Hj; apply negb_true_iff, Nat.eqb_neq.
  - apply Habove in Hj. lia.
  - rewrite Hs, <- Hn in Hj. apply Habove in Hj. lia.
Qed.

Lemma built_neighbours_are_children_witness :
  Graph_new chiral_carbon false = Ok chiral_carbon_graph
  /\ forall v, In v (vertices chiral_carbon_graph) ->
       v_neighbours v
       = map v_id (children_of (vertices chiral_carbon_graph) (v_id v))
       /\ v_spanningTreeChildren v = v_neighbours v
       /\ (forall j, In j (v_neighbours v) -> v_id v < j)
       /\ getNeighbours (v_parentVertexId v) v = v_neighbours v
       /\ getSpanningTreeNeighbours (v_parentVertexId v) v
          = v_spanningTreeChildren v.
Proof.
  split; [exact Graph_new_chiral_carbon|].
  exact (built_neighbours_are_children chiral_carbon false chiral_carbon_graph
           Graph_new_chiral_carbon).
Defined.

(** X14.  In a built graph the [neighbouringElements] of an atom are the
    element of the parent vertex, if there is one, followed by the
    elements of the child vertices in creation order; their number is the
    number of [neighbours] plus one for the parent. *)
Theorem built_neighbouringElements t iso g :
  Graph_new t iso = Ok g ->
  forall v, In v (vertices g) ->
    a_neighbouringElements (v_value v)
    = parent_element (vertices g) v
      ++ map v_element (children_of (vertices g) (v_id v))
    /\ List.length (a_neighbouringElements (v_value v))
       = (if is_null (v_parentVertexId v) then 0 else 1)
         + List.length (v_neighbours v).
Proof.
  intros E v Hin. apply Graph_new_linked in E. destruct E as [Hall _ _].
  apply In_nth_error in Hin as [i Hi].
  destruct (Hall _ _ Hi) as (Hid & Hp & Hn & _ & He).
  rewrite Hid. split; [exact He|].
  rewrite He, Hn, length_app, !length_map. f_equal.
  unfold parent_element.
  destruct (v_parentVertexId v) as [p|]; [|reflexivity].
  assert (Hlt : p < List.length (vertices g)).
  { assert (i < List.length (vertices g))
      by (apply nth_error_Some; congruence). lia. }
  apply nth_error_Some in Hlt.
  now destruct (nth_error (vertices g) p).
Qed.

Lemma built_neighbouringElements_witness :
  Graph_new chiral_carbon false = Ok chiral_carbon_graph
  /\ forall v, In v (vertices chiral_carbon_graph) ->
       a_neighbouringElements (v_value v)
       = parent_element (vertices chiral_carbon_graph) v
         ++ map v_element (children_of (vertices chiral_carbon_graph) (v_id v))
       /\ List.length (a_neighbouringElements (v_value v))
          = (if is_null (v_parentVertexId v) then 0 else 1)
            + List.length (v_neighbours v).
Proof.
  split; [exact Graph_new_chiral_carbon|].
  exact (built_neighbouringElements chiral_carbon false chiral_carbon_graph
           Graph_new_chiral_carbon).
Defined.

(** X15.  A built graph has one edge per vertex but the first.  The edge
    at index [k] has vertex [k + 1] as target and that vertex's parent as
    source; its bond symbol is never empty: it is the target's
    [branchBond] or the source's [bondType], with "-" in place of a
    missing or empty one.  ([Graph.addEdge] is modelled as appending the
    edge to [edges].) *)
Theorem built_edges t iso g :
  Graph_new t iso = Ok g ->
  List.length (edges g) = pred (List.length (vertices g))
  /\ forall k e, nth_error (edges g) k = Some e ->
       e_targetId e = S k
       /\ e_bondType e <> ""
       /\ exists v pv,
            nth_error (vertices g) (S k) = Some v
            /\ v_parentVertexId v = Some (e_sourceId e)
            /\ nth_error (vertices g) (e_sourceId e) = Some pv
            /\ (e_bondType e = or_dash_opt (a_branchBond (v_value v))
                \/ e_bondType e = or_dash (a_bondType (v_value pv))).
Proof.
  intros E. apply Graph_new_linked in E. destruct E as [_ Hc He].
  split; [exact Hc|].
  intros k e Hk. destruct (He _ _ Hk) as (Ht & v & pv & Hv & Hp & Hpv & Hb).
  split; [exact Ht|]. split; [|eauto 8].
  destruct Hb as [-> | ->].
  - destruct (a_branchBond (v_value v)); simpl;
      [apply or_dash_nonempty|discriminate].
  - apply or_dash_nonempty.
Qed.

Lemma built_edges_witness :
  Graph_new chiral_carbon false = Ok chiral_carbon_graph
  /\ List.length (edges chiral_carbon_graph)
     = pred (List.length (vertices chiral_carbon_graph))
  /\ forall k e, nth_error (edges chiral_carbon_graph) k = Some e ->
       e_targetId e = S k
       /\ e_bondType e <> ""
       /\ exists v pv,
            nth_error (vertices chiral_carbon_graph) (S k) = Some v
            /\ v_parentVertexId v = Some (e_sourceId e)
            /\ nth_error (vertices chiral_carbon_graph) (e_sourceId e) = Some pv
            /\ (e_bondType e = or_dash_opt (a_branchBond (v_value v))
                \/ e_bondType e = or_dash (a_bondType (v_value pv))).
Proof.
  split; [exact Graph_new_chiral_carbon|].
  exact (built_edges chiral_carbon false chiral_carbon_graph
           Graph_new_chiral_carbon).
Defined.

(** ** The vertices follow the parse tree depth first *)

Lemma visit_labels a bond bb rb hn par br g g1 vid :
  visit a bond bb rb hn par br g = Ok (g1, vid) ->
  map label (vertices g1)
  = map label (vertices g) ++ [node_atom false a bond bb rb].
Proof.
  destruct par as [p|].
  - destruct (nth_error (vertices g) p) as [pv|] eqn:Hp.
    + rewrite (visit_child _ _ _ _ _ _ _ _ _ Hp). intros [= <- <-].
      cbn [vertices]. rewrite map_app, map_update_nth by reflexivity.
      reflexivity.
    + rewrite (visit_dangling _ _ _ _ _ _ _ _ Hp). discriminate.
  - rewrite visit_root. intros [= <- <-].
    cbn [vertices]. rewrite map_app. reflexivity.
Qed.

Lemma stereo_loop_labels n : forall i vid g g',
  stereo_loop n i vid g = Ok g' ->
  map label (vertices g') = map label (vertices g) ++ repeat hydrogen_atom n.
Proof.
  induction n as [|n IH]; intros i vid g g'; simpl.
  - intros [= <-]. now rewrite app_nil_r.
  - unfold init_hydrogen.
    destruct (visit _ _ _ _ _ _ _ g) as [[g1 v]|] eqn:Ev; [|discriminate].
    simpl. intros E. apply IH in E. apply visit_labels in Ev.
    rewrite E, Ev, <- app_assoc. reflexivity.
Qed.

Lemma head_labels a bond bb rb hn par br g g1 g2 vid :
  visit a bond bb rb hn par br g = Ok (g1, vid) ->
  stereo_part (bracket_of a) vid g1 = Ok g2 ->
  map label (vertices g2)
  = map label (vertices g)
    ++ node_atom (tok_chiral a) a bond bb rb
       :: repeat hydrogen_atom (tok_hydrogens a).
Proof.
  intros Ev Es.
  destruct (visit_length _ _ _ _ _ _ _ _ _ _ Ev) as [Hv _].
  apply visit_labels in Ev.
  unfold stereo_part, tok_chiral, tok_hydrogens in *.
  destruct (bracket_of a) as [b|] eqn:Eb;
    [destruct (truthy (b_chirality b)) eqn:Ht|].
  - apply stereo_loop_labels in Es. rewrite Es.
    unfold modify_vertex; cbn [vertices with_vertices].
    rewrite (map_update_nth_comm label _ markStereoCenter) by reflexivity.
    rewrite Ev, Hv, <- (length_map label), update_nth_app_last.
    rewrite <- app_assoc. reflexivity.
  - injection Es as <-. rewrite Ev. reflexivity.
  - injection Es as <-. rewrite Ev. reflexivity.
Qed.

Lemma branch_loop_labels offset vid bs :
  Forall visits_preorder bs -> forallb shape_ok bs = true ->
  forall i g g',
    branch_loop _init offset vid bs (List.length bs) i g = Ok g' ->
    map label (vertices g')
    = map label (vertices g) ++ flat_map preorder bs.
Proof.
  induction 1 as [|b bs Hb _ IH]; simpl; intros Hs i g g'.
  - intros [= <-]. now rewrite app_nil_r.
  - apply andb_prop in Hs as [Hs1 Hs2].
    destruct (_init b _ _ _ g) as [g1|] eqn:E; [|discriminate]. simpl.
    intros E'. apply (IH Hs2) in E'. apply (Hb Hs1) in E.
    rewrite E', E, <- app_assoc. reflexivity.
Qed.

Lemma init_labels node : visits_preorder node.
Proof.
  induction node as [a b bb rb bs bc rc nx hn IHbs IHnx]
    using ParseTreeNode_induction.
  intros Hs order par br g g'. simpl in Hs.
  apply andb_prop in Hs as [Hs Hnx]. apply andb_prop in Hs as [Hbc Hbs].
  apply Nat.eqb_eq in Hbc. subst bc.
  rewrite _init_unfold.
  destruct (visit _ _ _ _ _ _ _ _) as [[g1 vid]|] eqn:Ev; [|discriminate].
  cbv zeta.
  destruct (stereo_part _ _ _) as [g2|] eqn:Es; [|discriminate]. simpl.
  destruct (branch_loop _ _ _ _ _ _ _) as [g3|] eqn:Eb; [|discriminate]. simpl.
  intros E.
  assert (H2 := head_labels _ _ _ _ _ _ _ _ _ _ _ Ev Es).
  assert (H3 := branch_loop_labels _ _ _ IHbs Hbs _ _ _ Eb).
  destruct nx as [nx|].
  - apply andb_prop in Hnx as [-> Hnx].
    apply (IHnx Hnx) in E. rewrite E, H3, H2.
    rewrite <- !app_assoc. reflexivity.
  - destruct hn; [discriminate|]. injection E as <-.
    rewrite H3, H2, <- !app_assoc, app_nil_r. reflexivity.
Qed.

(** X16.  For a parse tree of the promised shape the vertices of the
    built graph, in creation order, are the atoms of the tree depth
    first: a node, then its stereo hydrogens, then its branches from left
    to right, then the rest of the chain.  Each atom carries the element,
    bond, branch bond, ring bonds, bracket and class of its node as
    written (the element is not upper-cased and no atom is flagged
    aromatic), and is marked as stereocenter exactly when its bracket has
    a chirality tag. *)
Theorem built_vertices_preorder t iso g :
  shape_ok t = true -> Graph_new t iso = Ok g ->
  map label (vertices g) = preorder t.
Proof.
  intros Hs E. apply (init_labels t Hs) in E. exact E.
Qed.

Lemma built_vertices_preorder_witness :
  shape_ok chiral_carbon = true
  /\ Graph_new chiral_carbon false = Ok chiral_carbon_graph
  /\ map label (vertices chiral_carbon_graph) = preorder chiral_carbon.
Proof.
  assert (Hs : shape_ok chiral_carbon = true) by (vm_compute; reflexivity).
  split; [exact Hs|]. split; [exact Graph_new_chiral_carbon|].
  exact (built_vertices_preorder chiral_carbon false chiral_carbon_graph Hs
           Graph_new_chiral_carbon).
Defined.

(** ** [ThemeManager]: keys and theme changes *)

Lemma upper_ascii_idempotent c : upper_ascii (upper_ascii c) = upper_ascii c.
Proof. destruct c as [[] [] [] [] [] [] [] []]; reflexivity. Qed.

Lemma toUpperCase_idempotent s : toUpperCase (toUpperCase s) = toUpperCase s.
Proof.
  induction s as [|c s IH]; simpl; auto.
  now rewrite upper_ascii_idempotent, IH.
Qed.

Lemma getColor_upper tm k1 k2 :
  toUpperCase k1 = toUpperCase k2 ->
  ThemeManager.getColor tm k1 = ThemeManager.getColor tm k2.
Proof.
  intros H. unfold ThemeManager.getColor.
  destruct (ThemeManager.theme tm) as [th|]; [|reflexivity].
  destruct k1 as [|c1 s1], k2 as [|c2 s2]; try discriminate; auto.
  cbn [String.eqb]. now rewrite H.
Qed.

(** X17.  [getColor] sees a key only through its upper-cased form: two
    keys that differ in the case of their letters get the same answer
    (the same colour, or the same exception when no theme is loaded), and
    so does the upper-cased key itself. *)
Theorem getColor_ignores_case (tm : ThemeManager.t) (k1 k2 : string) :
  toUpperCase k1 = toUpperCase k2 ->
  ThemeManager.getColor tm k1 = ThemeManager.getColor tm k2
  /\ ThemeManager.getColor tm (toUpperCase k1) = ThemeManager.getColor tm k1.
Proof.
  intros H. split; [now apply getColor_upper|].
  apply getColor_upper, toUpperCase_idempotent.
Qed.

Lemma getColor_ignores_case_witness :
  toUpperCase "background" = toUpperCase "BackGround"
  /\ ThemeManager.getColor light_manager "background"
     = ThemeManager.getColor light_manager "BackGround"
  /\ ThemeManager.getColor light_manager (toUpperCase "background")
     = ThemeManager.getColor light_manager "background".
Proof.
  split; [reflexivity|].
  apply (getColor_ignores_case light_manager "background" "BackGround").
  reflexivity.
Defined.

Lemma set_themes_snoc names n tm :
  set_themes (names ++ [n]) tm = ThemeManager.setTheme n (set_themes names tm).
Proof. unfold set_themes. now rewrite fold_left_app. Qed.

(** X18.  After any sequence of [setTheme] calls the table of themes is
    the one the manager was built with, and the current theme is the
    theme of the last name of the sequence that the table holds, or the
    theme from before if it holds none of them: unknown names are
    ignored.  A manager with a loaded theme never loses it, so its
    [getColor] keeps returning. *)
Theorem setTheme_last_known_wins (tm : ThemeManager.t) (names : list string) :
  ThemeManager.colors (set_themes names tm) = ThemeManager.colors tm
  /\ ThemeManager.theme (set_themes names tm)
     = match find (known (ThemeManager.colors tm)) (rev names) with
       | Some n => ThemeManager.lookup n (ThemeManager.colors tm)
       | None => ThemeManager.theme tm
       end
  /\ (ThemeManager.theme tm <> None ->
      forall key, exists c,
        ThemeManager.getColor (set_themes names tm) key = Ok c).
Proof.
  assert (H : ThemeManager.colors (set_themes names tm) = ThemeManager.colors tm
    /\ ThemeManager.theme (set_themes names tm)
       = match find (known (ThemeManager.colors tm)) (rev names) with
         | Some n => ThemeManager.lookup n (ThemeManager.colors tm)
         | None => ThemeManager.theme tm
         end
    /\ (ThemeManager.theme tm <> None ->
        ThemeManager.theme (set_themes names tm) <> None)).
  { induction names as [|n names IH] using rev_ind.
    - simpl. auto.
    - destruct IH as (Hc & Ht & Hl).
      rewrite set_themes_snoc, rev_app_distr. simpl.
      unfold ThemeManager.setTheme, known. rewrite Hc.
      destruct (ThemeManager.lookup n (ThemeManager.colors tm)) as [th|] eqn:E;
        simpl; auto.
      repeat split; auto. discriminate. }
  destruct H as (Hc & Ht & Hl). split; [exact Hc|]. split; [exact Ht|].
  intros Hne key. specialize (Hl Hne).
  unfold ThemeManager.getColor.
  destruct (ThemeManager.theme (set_themes names tm)) as [th|]; [|congruence].
  destruct (String.eqb key ""); [eauto|].
  destruct (ThemeManager.lookup (toUpperCase key) th); eauto.
Qed.

(** ** [parityOfPermutation] on arrays of indices *)

Lemma unvisited_le visited : unvisited visited <= List.length visited.
Proof. apply filter_length_le. Qed.

Lemma unvisited_mark visited i b :
  nth_error visited i = Some b -> (b =? 1) = false ->
  S (unvisited (update_nth i (fun _ => 1) visited)) = unvisited visited.
Proof.
  unfold unvisited. revert i.
  induction visited as [|x l IH]; intros [|i]; simpl; try discriminate.
  - intros [= ->] ->. reflexivity.
  - intros Hi Hb. destruct (x =? 1); simpl; [|f_equal]; now apply IH.
Qed.

Lemma traverseCycle_returns arr : forall fuel visited i c,
  Forall (fun j => j < List.length arr) arr ->
  List.length visited = List.length arr -> i < List.length arr ->
  unvisited visited < fuel ->
  exists visited' c',
    MathHelper.traverseCycle fuel arr visited i c = Some (visited', c')
    /\ List.length visited' = List.length arr.
Proof.
  induction fuel as [|fuel IH]; intros visited i c Harr Hlen Hi Hf; [lia|].
  simpl.
  destruct (nth_error visited i) as [b|] eqn:Hb.
  2:{ apply nth_error_None in Hb. lia. }
  destruct (b =? 1) eqn:Eb; [eauto|].
  destruct (nth_error arr i) as [j|] eqn:Hj.
  2:{ apply nth_error_None in Hj. lia. }
  apply IH; auto.
  - now rewrite update_nth_length.
  - rewrite Forall_forall in Harr. apply Harr. eapply nth_error_In, Hj.
  - rewrite <- (unvisited_mark _ _ _ Hb Eb) in Hf. lia.
Qed.

Lemma cycle_loop_returns arr : forall k i visited c,
  Forall (fun j => j < List.length arr) arr ->
  List.length visited = List.length arr -> i + k <= List.length arr ->
  exists r, MathHelper.cycle_loop k i arr visited c = Some r.
Proof.
  induction k as [|k IH]; intros i visited c Harr Hlen Hik;
    cbn [MathHelper.cycle_loop]; [eauto|].
  destruct (nth_error visited i) as [b|] eqn:Hb.
  2:{ apply nth_error_None in Hb. lia. }
  destruct (b =? 1).
  - apply IH; auto. lia.
  - destruct (traverseCycle_returns arr (S (List.length arr)) visited i 0
                Harr Hlen ltac:(lia))
      as (visited' & c' & E & Hlen').
    { pose proof (unvisited_le visited). lia. }
    rewrite E. apply IH; auto. lia.
Qed.

(** X19.  On every array whose entries are indices of the array, whether
    or not it is a permutation, [parityOfPermutation] returns, and returns
    1 or -1: each call of [traverseCycle] that goes on marks a cell that
    was not marked, so the recursion is at most one deeper than the array
    is long. *)
Theorem parityOfPermutation_returns (arr : list nat) :
  Forall (fun j => j < List.length arr) arr ->
  MathHelper.parityOfPermutation arr = Some 1%Z
  \/ MathHelper.parityOfPermutation arr = Some (-1)%Z.
Proof.
  intros Harr. unfold MathHelper.parityOfPermutation.
  destruct (cycle_loop_returns arr (List.length arr) 0
              (repeat 0 (List.length arr)) 0 Harr)
    as [r E].
  - apply repeat_length.
  - lia.
  - rewrite E. destruct (r mod 2 =? 0); auto.
Qed.

Lemma parityOfPermutation_returns_witness :
  Forall (fun j => j < List.length [1; 1; 0; 2]) [1; 1; 0; 2]
  /\ (MathHelper.parityOfPermutation [1; 1; 0; 2] = Some 1%Z
      \/ MathHelper.parityOfPermutation [1; 1; 0; 2] = Some (-1)%Z).
Proof.
  assert (H : Forall (fun j => j < List.length [1; 1; 0; 2]) [1; 1; 0; 2])
    by (repeat constructor).
  split; [exact H|]. exact (parityOfPermutation_returns [1; 1; 0; 2] H).
Defined.

(** ** [getAttachedPseudoElements] *)

Lemma lookup_pseudo_key k o :
  In k (map fst o) -> Atom.lookup_pseudo k o <> None.
Proof.
  induction o as [|[k0 pe] o IH]; simpl; [tauto|].
  destruct (String.eqb_spec k0 k) as [->|Hne]; [discriminate|].
  intros [H|H]; [contradiction|auto].
Qed.

Lemma lookup_pseudo_no_key k o :
  ~ In k (map fst o) -> Atom.lookup_pseudo k o = None.
Proof.
  induction o as [|[k0 pe] o IH]; simpl; auto.
  intros H. destruct (String.eqb_spec k0 k) as [->|Hne]; [tauto|].
  apply IH. tauto.
Qed.

Lemma lookup_pseudo_copy o k ks :
  Atom.lookup_pseudo k
    (flat_map (fun key => match Atom.lookup_pseudo key o with
                          | Some pe => [(key, pe)]
                          | None => []
                          end) ks)
  = if in_dec string_dec k ks then Atom.lookup_pseudo k o else None.
Proof.
  induction ks as [|k0 ks IH]; simpl; auto.
  destruct (string_dec k0 k) as [->|Hne].
  - destruct (Atom.lookup_pseudo k o) as [pe|] eqn:E; simpl.
    + now rewrite String.eqb_refl.
    + rewrite IH. now destruct (in_dec string_dec k ks).
  - destruct (Atom.lookup_pseudo k0 o) as [pe|] eqn:E; simpl.
    + apply String.eqb_neq in Hne as Hb. rewrite Hb, IH.
      destruct (in_dec string_dec k ks); reflexivity.
    + rewrite IH. destruct (in_dec string_dec k ks); reflexivity.
Qed.

Lemma keys_copy o ks :
  (forall k, In k ks -> Atom.lookup_pseudo k o <> None) ->
  map fst (flat_map (fun key => match Atom.lookup_pseudo key o with
                                | Some pe => [(key, pe)]
                                | None => []
                                end) ks) = ks.
Proof.
  induction ks as [|k0 ks IH]; simpl; auto.
  intros H. destruct (Atom.lookup_pseudo k0 o) eqn:E.
  - simpl. f_equal. apply IH. auto.
  - exfalso. apply (H k0); auto.
Qed.

(** X20.  [getAttachedPseudoElements] returns the entries of the atom
    unchanged, every key with the entry it had, in ascending order of the
    keys as strings, that is by code units.  This is not the order of the
    hydrogen counts: the key of a pseudo element with 10 hydrogens comes
    before the key of one with 2. *)
Theorem getAttachedPseudoElements_sorted_by_key (a : Atom.t) :
  (forall key,
     Atom.lookup_pseudo key (Atom.getAttachedPseudoElements a)
     = Atom.lookup_pseudo key (Atom.attachedPseudoElements a))
  /\ StronglySorted le_str (map fst (Atom.getAttachedPseudoElements a))
  /\ Permutation (map fst (Atom.getAttachedPseudoElements a))
                 (map fst (Atom.attachedPseudoElements a))
  /\ (forall element charge,
        le_str (Atom.pseudo_key 10 element charge)
               (Atom.pseudo_key 2 element charge)
        /\ Atom.pseudo_key 10 element charge <> Atom.pseudo_key 2 element charge).
Proof.
  unfold Atom.getAttachedPseudoElements.
  set (o := Atom.attachedPseudoElements a).
  assert (Hk : map fst (flat_map (fun key => match Atom.lookup_pseudo key o with
                                             | Some pe => [(key, pe)]
                                             | None => []
                                             end) (js_sort (map fst o)))
               = js_sort (map fst o)).
  { apply keys_copy. intros k Hin. apply lookup_pseudo_key.
    apply (Permutation_in _ (Permutation_sym (js_sort_perm _))), Hin. }
  split; [|split; [|split]].
  - intros key. rewrite lookup_pseudo_copy.
    destruct (in_dec string_dec key (js_sort (map fst o))) as [Hin|Hn]; auto.
    symmetry. apply lookup_pseudo_no_key. intros H. apply Hn.
    apply (Permutation_in _ (js_sort_perm _)), H.
  - rewrite Hk. apply js_sort_sorted.
  - rewrite Hk. symmetry. apply js_sort_perm.
  - intros element charge. split; [reflexivity|discriminate].
Qed.

(** ** The builder and the [Edge] class *)

(** X21.  Every edge of a built graph has weight 1, whatever its bond
    symbol: the weight is the one the [bonds] table of the [Edge] class
    gives for the symbol only when the symbol is one of "-", "/" and
    "\". *)
Theorem built_edge_weight_ignores_bond t iso g :
  Graph_new t iso = Ok g ->
  forall e, In e (edges g) ->
    e_weight e = 1
    /\ (Edge.bonds (e_bondType e) = Some (e_weight e)
        <-> e_bondType e = "-" \/ e_bondType e = "/" \/ e_bondType e = "\").
Proof.
  intros E e He. apply Graph_new_inv in E.
  assert (Hw := inv_edge _ E _ He). split; [exact Hw|]. rewrite Hw.
  unfold Edge.bonds.
  destruct (String.eqb_spec (e_bondType e) "-") as [->|H1]; [tauto|].
  destruct (String.eqb_spec (e_bondType e) "/") as [->|H2]; [tauto|].
  destruct (String.eqb_spec (e_bondType e) "\") as [->|H3]; [tauto|].
  destruct (String.eqb (e_bondType e) "=");
    [|destruct (String.eqb (e_bondType e) "#");
      [|destruct (String.eqb (e_bondType e) "$")]];
    (split; [discriminate|tauto]).
Qed.

Lemma built_edge_weight_ignores_bond_witness :
  Graph_new ethene false = Ok ethene_graph
  /\ forall e, In e (edges ethene_graph) ->
       e_weight e = 1
       /\ (Edge.bonds (e_bondType e) = Some (e_weight e)
           <-> e_bondType e = "-" \/ e_bondType e = "/" \/ e_bondType e = "\").
Proof.
  split; [exact Graph_new_ethene|].
  exact (built_edge_weight_ignores_bond ethene false ethene_graph
           Graph_new_ethene).
Defined.

(** ** When [isBridge] throws *)

Lemma isBridge_loop_throws ids vs :
  RingConnection.isBridge_loop ids vs = Throw TypeError
  <-> exists l1 v l2,
        ids = l1 ++ v :: l2 /\ nth_error vs v = None
        /\ forall w, In w l1 ->
             exists wx, nth_error vs w = Some wx
                        /\ List.length (Atom.rings (value wx)) <= 2.
Proof.
  induction ids as [|v ids IH]; simpl.
  - split; [discriminate|]. intros (l1 & v & l2 & H & _).
    now destruct l1.
  - destruct (nth_error vs v) as [vx|] eqn:Hv.
    + destruct (2 <? List.length (Atom.rings (value vx))) eqn:Hr.
      * split; [discriminate|]. intros (l1 & w & l2 & H & Hw & Hl).
        destruct l1 as [|x l1]; simpl in H; injection H as <- _.
        -- congruence.
        -- destruct (Hl v (or_introl eq_refl)) as (wx & Hwx & Hle).
           rewrite Hv in Hwx. injection Hwx as <-.
           apply Nat.ltb_lt in Hr. lia.
      * rewrite IH. apply Nat.ltb_ge in Hr. split.
        -- intros (l1 & w & l2 & -> & Hw & Hl). exists (v :: l1), w, l2.
           split; [reflexivity|]. split; [exact Hw|].
           intros x [<-|Hx]; eauto.
        -- intros (l1 & w & l2 & H & Hw & Hl).
           destruct l1 as [|x l1]; simpl in H; injection H as <- ->.
           ++ congruence.
           ++ exists l1, w, l2. split; [reflexivity|]. split; [exact Hw|].
              intros y Hy. apply Hl. now right.
    + split; [|reflexivity]. intros _. exists [], v, ids. simpl.
      repeat split; auto. intros w [].
Qed.

(** X22.  [isBridge] throws exactly when the connection has at most two
    shared vertices and, going through them in insertion order, it
    reaches an id outside the vertex array before it has seen an atom
    that lies in more than two rings.  With more than two shared vertices
    it returns [true] without reading the vertex array. *)
Theorem isBridge_throws_iff (rc : RingConnection.t) (vs : list Vertex) :
  (RingConnection.isBridge rc vs = Throw TypeError
   <-> List.length (RingConnection.vertices rc) <= 2
       /\ exists l1 v l2,
            RingConnection.vertices rc = l1 ++ v :: l2
            /\ nth_error vs v = None
            /\ forall w, In w l1 ->
                 exists wx, nth_error vs w = Some wx
                            /\ List.length (Atom.rings (value wx)) <= 2)
  /\ (2 < List.length (RingConnection.vertices rc) ->
      RingConnection.isBridge rc vs = Ok true).
Proof.
  unfold RingConnection.isBridge.
  destruct (2 <? List.length (RingConnection.vertices rc)) eqn:Hs.
  - apply Nat.ltb_lt in Hs. split; [|auto].
    split; [discriminate|]. intros [H _]. lia.
  - apply Nat.ltb_ge in Hs. split; [|lia].
    rewrite isBridge_loop_throws. tauto.
Qed.

(** ** What [_init] reads of the parse tree *)

Lemma branch_loop_counted_part offset vid bs :
  Forall reads_counted_part bs ->
  forall n i g,
    branch_loop _init offset vid bs n i g
    = branch_loop _init offset vid (firstn n (map counted_part bs)) n i g.
Proof.
  induction 1 as [|b bs Hb _ IH]; intros [|n] i g; simpl; auto.
  rewrite (Hb (i + offset) (i + offset)).
  destruct (_init (counted_part b) _ _ _ g) as [g1|]; simpl; auto.
Qed.

Lemma init_counted_part node : reads_counted_part node.
Proof.
  induction node as [a b bb rb bs bc rc nx hn IHbs IHnx]
    using ParseTreeNode_induction.
  intros order order' par br g. cbn [counted_part]. rewrite !_init_unfold.
  destruct (visit _ _ _ _ _ _ _ _) as [[g1 vid]|]; [|reflexivity].
  cbv zeta.
  destruct (stereo_part _ _ _) as [g2|]; [|reflexivity]. simpl.
  rewrite (branch_loop_counted_part _ _ _ IHbs).
  destruct (branch_loop _ _ _ _ _ _ _) as [g3|]; [|reflexivity]. simpl.
  destruct hn; [|reflexivity].
  destruct nx as [nx|]; [|reflexivity]. simpl. apply IHnx.
Qed.

(** X23.  [_init] reads of every node only what the counters announce:
    branches beyond [branchCount] and a successor under a false [hasNext]
    are never visited, anywhere in the tree, and the [order] argument is
    never used.  The graph of a tree is the graph of its counted part. *)
Theorem init_reads_counted_part (t : ParseTreeNode) (iso : bool)
    (order order' : nat) (par : option nat) (br : bool) (g : Graph) :
  _init t order par br g = _init (counted_part t) order' par br g
  /\ Graph_new t iso = Graph_new (counted_part t) iso.
Proof.
  split; [apply init_counted_part|].
  unfold Graph_new. apply init_counted_part.
Qed.

Lemma branch_loop_short offset vid bs :
  forall n i g, List.length bs < n ->
    branch_loop _init offset vid bs n i g = Throw TypeError.
Proof.
  induction bs as [|b bs IH]; intros [|n] i g; simpl; try lia; auto.
  intros Hn. destruct (_init b _ _ _ g) as [g1|[]]; simpl; auto.
  apply IH. lia.
Qed.

(** X24.  A node whose counters announce more than it holds makes
    [_init] throw: with [branchCount] above the number of branches, or
    with [hasNext] set and no successor, no graph is returned, whatever
    the rest of the tree is. *)
Theorem init_throws_on_missing_part (a : AtomTok) (bond : string)
    (bb : option string) (rb : list Ringbond) (bs : list ParseTreeNode)
    (bc rc : nat) (nx : option ParseTreeNode) (hn : bool)
    (order : nat) (par : option nat) (br : bool) (g : Graph) :
  List.length bs < bc \/ (hn = true /\ nx = None) ->
  _init (mkNode a bond bb rb bs bc rc nx hn) order par br g = Throw TypeError.
Proof.
  intros H. rewrite _init_unfold.
  destruct (visit _ _ _ _ _ _ _ _) as [[g1 vid]|[]]; [|reflexivity].
  cbv zeta.
  destruct (stereo_part _ _ _) as [g2|[]]; [|reflexivity]. simpl.
  destruct H as [H|[-> ->]].
  - now rewrite branch_loop_short.
  - destruct (branch_loop _ _ _ _ _ _ _) as [g3|[]]; reflexivity.
Qed.

Lemma init_throws_on_missing_part_witness :
  (List.length (@nil ParseTreeNode) < 1 \/ (false = true /\ @None ParseTreeNode = None))
  /\ Graph_new (mkNode (SimpleAtom "C") "-" None [] [] 1 0 None false) false
     = Throw TypeError.
Proof.
  assert (H : List.length (@nil ParseTreeNode) < 1
              \/ (false = true /\ @None ParseTreeNode = None))
    by (left; simpl; lia).
  split; [exact H|].
  exact (init_throws_on_missing_part (SimpleAtom "C") "-" None [] [] 1 0 None
           false 0 None false (empty_graph false) H).
Defined.

(** ** The [isomeric] flag *)

Lemma visit_isomeric b a bond bb rb hn par br g :
  visit a bond bb rb hn par br (set_isomeric b g)
  = match visit a bond bb rb hn par br g with
    | Ok (g1, vid) => Ok (set_isomeric b g1, vid)
    | Throw e => Throw e
    end.
Proof.
  destruct par as [p|].
  - destruct (nth_error (vertices g) p) as [pv|] eqn:Hp.
    + rewrite (visit_child _ _ _ _ _ _ g _ _ Hp).
      rewrite (visit_child _ _ _ _ _ _ (set_isomeric b g) _ _ Hp).
      reflexivity.
    + rewrite (visit_dangling _ _ _ _ _ _ g _ Hp).
      now rewrite (visit_dangling _ _ _ _ _ _ (set_isomeric b g) _ Hp).
  - rewrite !visit_root. reflexivity.
Qed.

Lemma stereo_loop_isomeric b n : forall i vid g,
  stereo_loop n i vid (set_isomeric b g)
  = (g' <- stereo_loop n i vid g ;; Ok (set_isomeric b g')).
Proof.
  induction n as [|n IH]; intros i vid g; simpl; auto.
  unfold init_hydrogen. rewrite visit_isomeric.
  destruct (visit _ _ _ _ _ _ _ g) as [[g1 v]|]; simpl; auto.
Qed.

Lemma stereo_part_isomeric b bracket vid g :
  stereo_part bracket vid (set_isomeric b g)
  = (g' <- stereo_part bracket vid g ;; Ok (set_isomeric b g')).
Proof.
  unfold stereo_part.
  destruct bracket as [k|]; [destruct (truthy (b_chirality k))|]; auto.
  apply (stereo_loop_isomeric b _ _ _
           (modify_vertex vid (map_value markStereoCenter) g)).
Qed.

Lemma branch_loop_isomeric b offset vid bs :
  Forall ignores_isomeric bs ->
  forall n i g,
    branch_loop _init offset vid bs n i (set_isomeric b g)
    = (g' <- branch_loop _init offset vid bs n i g ;; Ok (set_isomeric b g')).
Proof.
  induction 1 as [|x bs Hx _ IH]; intros [|n] i g; simpl; auto.
  rewrite Hx. destruct (_init x _ _ _ g) as [g1|]; simpl; auto.
Qed.

Lemma init_isomeric node : ignores_isomeric node.
Proof.
  induction node as [a bond bb rb bs bc rc nx hn IHbs IHnx]
    using ParseTreeNode_induction.
  intros b order par br g. rewrite !_init_unfold, visit_isomeric.
  destruct (visit _ _ _ _ _ _ _ g) as [[g1 vid]|]; [|reflexivity].
  cbv zeta. rewrite stereo_part_isomeric.
  destruct (stereo_part _ _ g1) as [g2|]; [|reflexivity]. simpl.
  rewrite (branch_loop_isomeric _ _ _ _ IHbs).
  destruct (branch_loop _ _ _ _ _ _ g2) as [g3|]; [|reflexivity]. simpl.
  destruct hn; [|reflexivity].
  destruct nx as [nx|]; [|reflexivity]. apply IHnx.
Qed.

(** X25.  The [isomeric] argument of the constructor is stored and never
    read: the graph built with the flag set is the graph built without
    it, with the flag set, and the two constructions throw on the same
    trees. *)
Theorem isomeric_is_only_recorded (t : ParseTreeNode) (iso : bool) :
  Graph_new t iso = (g <- Graph_new t false ;; Ok (set_isomeric iso g))
  /\ (forall g, Graph_new t iso = Ok g -> isomeric g = iso).
Proof.
  assert (H : Graph_new t iso
              = (g <- Graph_new t false ;; Ok (set_isomeric iso g)))
    by apply (init_isomeric t iso 0 None false (empty_graph false)).
  split; [exact H|].
  intros g E. rewrite H in E.
  destruct (Graph_new t false) as [g0|]; simpl in E; [|discriminate].
  now injection E as <-.
Qed.

